(** * ntree: a directory tree printer

    A shallow embedding of [ntree.c] and the verification of its
    specification, followed by an embedding of the second program of the
    repository, [nhex.c], and of what is proved about it.  The C program lists a directory recursively: it reads the
    children of a directory into a growing array, sorts them (directories
    first, then by name) and prints one line per child, recursing into the
    children that are directories.

    Modelling choices.
    - A C string is a Rocq [string]: the bytes before the terminating NUL.
      The box-drawing glyphs of the source are UTF-8, so ["└── "] is ten
      bytes here as it is in the C file.
    - [int] values are [Z].  The two places where an [int] is computed and
      could leave the range of the type ([capacity *= 2] and
      [indent_level + 1]) go through [int_range]: signed overflow is
      undefined behaviour and yields [Undefined].
    - The program state is threaded explicitly through a small monad [M]:
      the two output streams, the multiset of live heap blocks, the number of
      open directory streams and a plan that decides which of the coming
      allocations fail.
    - The file system is a pair of oracles ([opendir]/[readdir] and [stat]),
      which are pure functions of the path the program passes.
    - The recursion of [list_directory_recursive] follows the file system,
      which may be cyclic, so the embedding takes fuel (the depth of the call
      stack available); running out of it is [Diverge]. *)

From Stdlib Require Import ZArith Lia Ascii String.
From stdpp Require Import base list sorting gmultiset strings.

(** ** Constants and data *)

(** [PATH_MAX]: 4096 in <limits.h> on Linux, and the fallback of the source. *)
Definition PATH_MAX : nat := 4096.

Definition INT_MAX : Z := 2147483647.

(** The line terminator ['\n']. *)
Definition LF : string := String "010"%char "".

(** [typedef struct { char *name; int is_dir; } DirEntry;] *)
Record DirEntry : Type := mkDirEntry { name : string; is_dir : Z }.

(** A slot of the [entries] array: [None] is memory that [malloc] or
    [realloc] returned and the program has not written yet. *)
Abbreviation slot := (option DirEntry).

(** What the program writes to the error stream: formatted text, or a call
    of [perror] (whose suffix depends on [errno], which is not modelled). *)
Inductive diag : Type :=
| Fprintf (text : string)
| Perror (msg : string).

(** The heap blocks the program owns: the [entries] array of a frame and the
    copies of the names made by [strdup]. *)
Inductive block : Type :=
| EntriesArray
| NameCopy (s : string).

#[global] Instance block_eq_dec : EqDecision block.
Proof. solve_decision. Defined.

#[global] Instance block_countable : Countable block.
Proof.
  refine (inj_countable'
            (λ b, match b with EntriesArray => None | NameCopy s => Some s end)
            (λ o, match o with None => EntriesArray | Some s => NameCopy s end) _).
  by intros [].
Defined.

Record state : Type := mkState {
  stdout : string;
  stderr : list diag;
  heap : gmultiset block;
  alloc_plan : list bool;   (* head: does the next allocation succeed? *)
  open_dirs : nat
}.

(** The file system, as the two system calls see it.  [fs_opendir p] is the
    sequence of [d_name]s that [readdir] yields for [p] ([None]: [opendir]
    fails); [fs_stat p] is the [st_mode] of [p] ([None]: [stat] fails). *)
Record filesystem : Type := mkFs {
  fs_opendir : string → option (list string);
  fs_stat : string → option Z
}.

(** ** The monad *)

Inductive outcome (A : Type) : Type :=
| Ret (a : A) (s : state)
| Undefined            (* undefined behaviour of the C program *)
| Diverge.             (* the fuel ran out *)
Arguments Ret {A} a s.
Arguments Undefined {A}.
Arguments Diverge {A}.

Definition M (A : Type) : Type := state → outcome A.

#[global] Instance M_ret : MRet M := λ A a s, Ret a s.
#[global] Instance M_bind : MBind M := λ A B f m s,
  match m s with
  | Ret a s' => f a s'
  | Undefined => Undefined
  | Diverge => Diverge
  end.

Definition undefined {A} : M A := λ _, Undefined.
Definition diverge {A} : M A := λ _, Diverge.

(** ** The C library *)

(** [snprintf(buf, size, fmt, ...)], given the text the format expands to:
    at most [size - 1] bytes of it are stored. *)
Fixpoint take_bytes (n : nat) (s : string) : string :=
  match n, s with
  | S n', String c r => String c (take_bytes n' r)
  | _, _ => ""
  end.

Definition snprintf (size : nat) (text : string) : string :=
  take_bytes (size - 1) text.

Definition byte_val (c : ascii) : Z := Z.of_N (Ascii.N_of_ascii c).

(** [strcmp]: the difference of the first two bytes that differ, compared as
    [unsigned char]; the end of a string is its NUL byte, and a NUL byte ends
    the comparison. *)
Fixpoint strcmp (s1 s2 : string) : Z :=
  match s1, s2 with
  | "", "" => 0
  | "", String c2 _ => 0 - byte_val c2
  | String c1 _, "" => byte_val c1 - 0
  | String c1 r1, String c2 r2 =>
      if Ascii.eqb c1 c2
      then if Ascii.eqb c1 zero then 0 else strcmp r1 r2
      else byte_val c1 - byte_val c2
  end%Z.

(** [S_ISDIR(m)]: [((m) & S_IFMT) == S_IFDIR], with the Linux values
    0170000 and 0040000. *)
Definition S_ISDIR (st_mode : Z) : Z :=
  if (Z.land st_mode 61440 =? 16384)%Z then 1%Z else 0%Z.

(** [qsort] is not part of the repository.  It is taken as an interface with
    the guarantee of the C standard: the result is a rearrangement of the
    array, in ascending order of the comparison function, provided the
    function is a consistent total order. *)
Definition cmp_le {A} (cmp : A → A → Z) : relation A := λ a b, (cmp a b ≤ 0)%Z.

Class Qsort : Type := {
  qsort : ∀ {A : Type}, list A → (A → A → Z) → list A;
  qsort_Permutation : ∀ A (l : list A) cmp, qsort l cmp ≡ₚ l;
  qsort_sorted : ∀ A (l : list A) cmp,
    Total (cmp_le cmp) → Transitive (cmp_le cmp) →
    StronglySorted (cmp_le cmp) (qsort l cmp)
}.

Definition set_stdout (s : state) (o : string) : state :=
  mkState o (stderr s) (heap s) (alloc_plan s) (open_dirs s).
Definition set_stderr (s : state) (e : list diag) : state :=
  mkState (stdout s) e (heap s) (alloc_plan s) (open_dirs s).
Definition set_heap (s : state) (h : gmultiset block) : state :=
  mkState (stdout s) (stderr s) h (alloc_plan s) (open_dirs s).
Definition set_alloc_plan (s : state) (p : list bool) : state :=
  mkState (stdout s) (stderr s) (heap s) p (open_dirs s).
Definition set_open_dirs (s : state) (n : nat) : state :=
  mkState (stdout s) (stderr s) (heap s) (alloc_plan s) n.

Definition printf (text : string) : M unit :=
  λ s, Ret () (set_stdout s (stdout s +:+ text)).

Definition fprintf_stderr (text : string) : M unit :=
  λ s, Ret () (set_stderr s (stderr s ++ [Fprintf text])).

Definition perror (msg : string) : M unit :=
  λ s, Ret () (set_stderr s (stderr s ++ [Perror msg])).

(** The allocator: the next allocation succeeds unless the plan says
    otherwise. *)
Definition next_alloc : M bool :=
  λ s, match alloc_plan s with
       | [] => Ret true s
       | ok :: plan => Ret ok (set_alloc_plan s plan)
       end.

Definition own (b : block) : M unit :=
  λ s, Ret () (set_heap s ({[+ b +]} ⊎ heap s)).

(** [malloc] and [strdup]: [true] when a block was obtained. *)
Definition malloc (b : block) : M bool :=
  ok ← next_alloc; if ok : bool then own b;; mret true else mret false.

(** [realloc]: on success the block moves, on failure it stays as it was;
    the set of live blocks is the same in both cases. *)
Definition realloc : M bool := next_alloc.

(** [free]: releasing a block that is not live is undefined. *)
Definition free (b : block) : M unit :=
  λ s, if decide (b ∈ heap s) then Ret () (set_heap s (heap s ∖ {[+ b +]}))
       else Undefined.

(** The result of an [int] computation. *)
Definition int_range (z : Z) : M Z :=
  if decide (- INT_MAX - 1 ≤ z ≤ INT_MAX)%Z then mret z else undefined.

(** The access [a[i]] is defined inside the array only. *)
Definition in_bounds {A} (a : list A) (i : Z) : M unit :=
  if decide (0 ≤ i < Z.of_nat (length a))%Z then mret () else undefined.

(** Reading [a[i]]: the slot must have been written. *)
Definition load (a : list slot) (i : Z) : M DirEntry :=
  in_bounds a i;;
  match a !! Z.to_nat i with
  | Some (Some e) => mret e
  | _ => undefined
  end.

(** ** The program *)

(** [compareDirEntries] (ntree.c, lines 21-37). *)
Definition compareDirEntries (entryA entryB : DirEntry) : Z :=
  if negb (is_dir entryA =? 0)%Z && (is_dir entryB =? 0)%Z then (-1)%Z
  else if (is_dir entryA =? 0)%Z && negb (is_dir entryB =? 0)%Z then 1%Z
  else strcmp (name entryA) (name entryB).

(** The two [snprintf] calls of [list_directory_recursive] (lines 80/154
    and 151). *)
Definition full_path_of (path d_name : string) : string :=
  snprintf PATH_MAX (path +:+ "/" +:+ d_name).

Definition new_prefix_of (prefix : string) (is_last_entry : Z) : string :=
  snprintf PATH_MAX
    (prefix +:+ (if (is_last_entry =? 0)%Z then "│   " else "    ")).

Section Program.
Context `{Qsort} (fs : filesystem).

Definition opendir (path : string) : M (option (list string)) :=
  λ s, match fs_opendir fs path with
       | Some dir => Ret (Some dir) (set_open_dirs s (S (open_dirs s)))
       | None => Ret None s
       end.

Definition closedir : M unit :=
  λ s, match open_dirs s with
       | S n => Ret () (set_open_dirs s n)
       | O => Undefined
       end.

(** [for (int i = 0; i < num_entries; i++) free(entries[i].name);]
    with [todo] iterations left. *)
Fixpoint free_names (entries : list slot) (i : Z) (todo : nat) : M unit :=
  match todo with
  | O => mret ()
  | S todo' =>
      e ← load entries i;
      free (NameCopy (name e));;
      free_names entries (i + 1)%Z todo'
  end.

(** The clean-up of lines 95-101 and 110-116. *)
Definition abandon (msg : string) (entries : list slot) (num_entries : Z)
  : M unit :=
  perror msg;;
  free_names entries 0 (Z.to_nat num_entries);;
  free EntriesArray;;
  closedir.

(** Phase 1, the [while] loop of lines 72-120, over the names that
    [readdir] still has to yield.  [None] is the early [return] after a
    failed allocation. *)
Fixpoint read_entries (path : string) (dir : list string)
    (entries : list slot) (num_entries capacity : Z)
  : M (option (list slot * Z)) :=
  match dir with
  | [] => mret (Some (entries, num_entries))
  | d_name :: dir' =>
      if (strcmp d_name "." =? 0)%Z || (strcmp d_name ".." =? 0)%Z
      then read_entries path dir' entries num_entries capacity
      else
        let full_path := full_path_of path d_name in
        match fs_stat fs full_path with
        | None =>
            perror "Error getting file status";;
            read_entries path dir' entries num_entries capacity
        | Some st_mode =>
            grown ← (if (num_entries >=? capacity)%Z then
                       capacity' ← int_range (capacity * 2);
                       ok ← realloc;
                       if ok : bool
                       then mret (Some (resize (Z.to_nat capacity') None entries,
                                        capacity'))
                       else abandon "Error: Memory reallocation failed for entries array"
                              entries num_entries;;
                            mret None
                     else mret (Some (entries, capacity)));
            match grown with
            | None => mret None
            | Some (entries, capacity) =>
                ok ← malloc (NameCopy d_name);
                in_bounds entries num_entries;;
                if ok : bool
                then
                  let e := mkDirEntry d_name (S_ISDIR st_mode) in
                  read_entries path dir'
                    (<[Z.to_nat num_entries := Some e]> entries)
                    (num_entries + 1)%Z capacity
                else abandon "Error: Memory allocation failed for entry name"
                       entries num_entries;;
                     mret None
            end
        end
  end.

(** Phase 1 as a whole (lines 58-121): the array of initial capacity 10,
    the reading loop and [closedir].  [None] is the early [return]. *)
Definition read_directory (path : string) (dir : list string)
  : M (option (list slot * Z)) :=
  let capacity := 10%Z in
  ok ← malloc EntriesArray;
  if ok : bool then
    r ← read_entries path dir (replicate (Z.to_nat capacity) None) 0 capacity;
    match r with
    | None => mret None
    | Some (entries, num_entries) =>
        closedir;; mret (Some (entries, num_entries))
    end
  else
    perror "Error: Memory allocation failed for entries array";;
    closedir;;
    mret None.

(** Phase 2: [qsort(entries, num_entries, sizeof(DirEntry),
    compareDirEntries)] sorts the first [num_entries] slots in place. *)
Definition written (a : list slot) : option (list DirEntry) := mapM id a.

Definition sort_entries (entries : list slot) (num_entries : Z)
  : M (list slot) :=
  let n := Z.to_nat num_entries in
  if decide (n ≤ length entries) then
    match written (take n entries) with
    | Some es => mret ((Some <$> qsort es compareDirEntries) ++ drop n entries)
    | None => undefined
    end
  else undefined.

(** Phase 3, the [for] loop of lines 127-160, with [todo] iterations left;
    [rec] is the recursive call. *)
Fixpoint print_entries (rec : string → Z → string → M unit)
    (path : string) (indent_level : Z) (prefix : string)
    (entries : list slot) (num_entries : Z) (i : Z) (todo : nat) : M unit :=
  match todo with
  | O => mret ()
  | S todo' =>
      current_entry ← load entries i;
      let is_last_entry := Z.b2z (i =? num_entries - 1)%Z in
      printf prefix;;
      (if (is_last_entry =? 0)%Z then printf "├── " else printf "└── ");;
      printf (name current_entry +:+ LF);;
      (if (is_dir current_entry =? 0)%Z then mret ()
       else
         let new_prefix := new_prefix_of prefix is_last_entry in
         let full_path := full_path_of path (name current_entry) in
         indent_level' ← int_range (indent_level + 1);
         rec full_path indent_level' new_prefix);;
      free (NameCopy (name current_entry));;
      print_entries rec path indent_level prefix entries num_entries
        (i + 1)%Z todo'
  end.

(** [list_directory_recursive] (lines 46-163). *)
Fixpoint list_directory_recursive (fuel : nat) (path : string)
    (indent_level : Z) (prefix : string) : M unit :=
  match fuel with
  | O => diverge
  | S fuel' =>
      dir ← opendir path;
      match dir with
      | None =>
          fprintf_stderr ("Error: Cannot open directory '" +:+ path +:+ "'" +:+ LF)
      | Some dir =>
          r ← read_directory path dir;
          match r with
          | None => mret ()
          | Some (entries, num_entries) =>
              entries ← sort_entries entries num_entries;
              print_entries (list_directory_recursive fuel')
                path indent_level prefix entries num_entries
                0 (Z.to_nat num_entries);;
              free EntriesArray
          end
      end
  end.

(** [main] (lines 165-183); [argc] is the length of [argv]. *)
Definition main (fuel : nat) (argv : list string) : M Z :=
  let argc := Z.of_nat (length argv) in
  if (argc >? 2)%Z then
    fprintf_stderr ("Usage: " +:+ default "" (argv !! 0%nat)
                      +:+ " [directory_path]" +:+ LF);;
    mret 1%Z
  else
    let start_path := if (argc =? 2)%Z then default "" (argv !! 1%nat) else "." in
    printf (start_path +:+ LF);;
    list_directory_recursive fuel start_path 0 "";;
    mret 0%Z.

End Program.

(** ** A [qsort]: merge sort *)

#[local] Instance cmp_le_dec {A} (cmp : A → A → Z) : RelDecision (cmp_le cmp).
Proof. intros a b. unfold cmp_le. apply _. Defined.

#[global, refine] Instance merge_qsort : Qsort :=
  {| qsort A l cmp := merge_sort (cmp_le cmp) l |}.
Proof.
  - intros A l cmp. apply merge_sort_Permutation.
  - intros A l cmp Htot Htr. apply Sorted_StronglySorted; [done|].
    by apply Sorted_merge_sort.
Defined.

(** ** What the program is expected to print *)


(** A byte string that can be a C string: no NUL byte inside. *)
Fixpoint no_nul (s : string) : bool :=
  match s with
  | EmptyString => true
  | String c r => negb (Ascii.eqb c zero) && no_nul r
  end.

(** The number of characters of a UTF-8 text: the bytes that are not
    continuation bytes [10xxxxxx]. *)
Fixpoint utf8_length (s : string) : nat :=
  match s with
  | EmptyString => 0
  | String c r =>
      (if (Z.land (byte_val c) 192 =? 128)%Z then 0 else 1) + utf8_length r
  end.

(** The connector and the indentation unit of an entry. *)
Definition connector (is_last : bool) : string :=
  if is_last then "└── " else "├── ".

Definition indent_unit (is_last : bool) : string :=
  if is_last then "    " else "│   ".

(** The indentation that the ancestors of a line ask for, outermost first:
    one unit per ancestor, by whether that ancestor was a last sibling. *)
Fixpoint indent_of (ancestors : list bool) : string :=
  match ancestors with
  | [] => ""
  | a :: rest => indent_unit a +:+ indent_of rest
  end.

(** A directory tree: an entry and, below it, what was listed for it. *)
#[local] Unset Elimination Schemes.
Inductive tree : Type :=
| Node (entry : DirEntry) (children : list tree).
#[local] Set Elimination Schemes.

Definition entry_of (t : tree) : DirEntry := match t with Node e _ => e end.
Definition children_of (t : tree) : list tree := match t with Node _ ts => ts end.

(** The entries of a tree and of a forest in pre-order: a node, then its
    subtrees from left to right. *)
Fixpoint preorder (t : tree) : list DirEntry :=
  match t with
  | Node e ts => e :: concat (map preorder ts)
  end.

Definition preorder_forest (ts : list tree) : list DirEntry :=
  concat (map preorder ts).

(** One line of the output, with where it stands: the last-sibling flags of
    its ancestors, the prefix printed before it and whether it is the last
    of its siblings. *)
Record line : Type := mkLine {
  line_ancestors : list bool;
  line_prefix : string;
  line_last : bool;
  line_name : string
}.

Definition line_text (l : line) : string :=
  line_prefix l +:+ connector (line_last l) +:+ line_name l +:+ LF.

Fixpoint text_of (ls : list line) : string :=
  match ls with
  | [] => ""
  | l :: ls' => line_text l +:+ text_of ls'
  end.

Definition is_nil {A} (l : list A) : bool :=
  match l with [] => true | _ => false end.

(** The lines of a tree whose root stands under [ancestors] with [prefix],
    and of a forest of siblings. *)
Fixpoint lines_of_tree (ancestors : list bool) (prefix : string)
    (is_last : bool) (t : tree) : list line :=
  match t with
  | Node e ts =>
      mkLine ancestors prefix is_last (name e) ::
      (fix siblings (ts : list tree) : list line :=
         match ts with
         | [] => []
         | t' :: ts' =>
             lines_of_tree (ancestors ++ [is_last])
               (new_prefix_of prefix (Z.b2z is_last)) (is_nil ts') t'
             ++ siblings ts'
         end) ts
  end.

Fixpoint lines_of_forest (ancestors : list bool) (prefix : string)
    (ts : list tree) : list line :=
  match ts with
  | [] => []
  | t :: ts' =>
      lines_of_tree ancestors prefix (is_nil ts') t
      ++ lines_of_forest ancestors prefix ts'
  end.

(** What [perror] is given when an allocation fails. *)
Definition allocation_messages : list string :=
  ["Error: Memory allocation failed for entries array";
   "Error: Memory reallocation failed for entries array";
   "Error: Memory allocation failed for entry name"]%string.

(** The name copies that a list of entries owns. *)
Definition names (es : list DirEntry) : gmultiset block :=
  list_to_set_disj (NameCopy ∘ name <$> es).

(** No allocation is going to fail. *)
Definition all_succeed (s : state) : Prop :=
  Forall (λ ok, ok = true) (alloc_plan s).

(** The [entries] array between two rounds of the reading loop: it has
    [capacity] slots, of which the first [num_entries] hold the entries
    [collected] so far, in the order they were appended. *)
Definition array_inv (entries : list slot) (num_entries capacity : Z)
    (collected : list DirEntry) : Prop :=
  length entries = Z.to_nat capacity ∧
  (0 ≤ num_entries ≤ capacity)%Z ∧ (0 < capacity)%Z ∧
  take (Z.to_nat num_entries) entries = Some <$> collected.

(** The number of allocations that the reading loop asks for when it still
    has [todo] entries to store in an array that holds [num_entries] entries
    in [capacity] slots: a [realloc] each time the array is full, and a
    [strdup] for each entry. *)
Fixpoint loop_allocations (num_entries capacity : Z) (todo : nat) : nat :=
  match todo with
  | O => 0
  | S todo' =>
      if (num_entries >=? capacity)%Z
      then 2 + loop_allocations (num_entries + 1) (capacity * 2) todo'
      else 1 + loop_allocations (num_entries + 1) capacity todo'
  end.

(** The allocations of phase 1 for a directory of which [n] entries are
    kept: the [malloc] of the array, then those of the loop. *)
Definition directory_allocations (n : nat) : nat :=
  1 + loop_allocations 0 10 n.

(** One level of the output: for each entry of a directory, whether it is
    the last one, the entry, and the text printed below it (the lines of its
    subtree).  Of [n] entries the last one and only the last one is
    flagged. *)
Definition last_flags (n : nat) : list bool :=
  match n with
  | O => []
  | S m => replicate m false ++ [true]
  end.

Definition level_rows (es : list DirEntry) (below : list string)
  : list (bool * (DirEntry * string)) :=
  zip (last_flags (length es)) (zip es below).

Fixpoint level_text (prefix : string)
    (rows : list (bool * (DirEntry * string))) : string :=
  match rows with
  | [] => ""
  | (is_last, (e, below)) :: rows' =>
      (prefix +:+ connector is_last +:+ name e +:+ LF) +:+ below
      +:+ level_text prefix rows'
  end.

(** What is printed below each root of a forest of siblings. *)
Fixpoint below_texts (ancestors : list bool) (prefix : string)
    (ts : list tree) : list string :=
  match ts with
  | [] => []
  | t :: ts' =>
      text_of (lines_of_forest (ancestors ++ [is_nil ts'])
                 (new_prefix_of prefix (Z.b2z (is_nil ts'))) (children_of t))
      :: below_texts ancestors prefix ts'
  end.

Section View.
Context `{Qsort} (fs : filesystem).

(** [readdir] names that the reading loop passes over. *)
Definition is_dot (d_name : string) : bool :=
  (strcmp d_name "." =? 0)%Z || (strcmp d_name ".." =? 0)%Z.

(** The entries that the reading loop collects, in the order of
    [readdir]. *)
Fixpoint listed (path : string) (dir : list string) : list DirEntry :=
  match dir with
  | [] => []
  | d_name :: dir' =>
      if is_dot d_name then listed path dir'
      else match fs_stat fs (full_path_of path d_name) with
           | None => listed path dir'
           | Some st_mode =>
               mkDirEntry d_name (S_ISDIR st_mode) :: listed path dir'
           end
  end.

(** The children proper of a directory, and those among them whose status
    query fails. *)
Definition children (dir : list string) : list string :=
  filter (λ d_name, is_dot d_name = false) dir.

Definition stat_fails (path : string) (d_name : string) : bool :=
  match fs_stat fs (full_path_of path d_name) with
  | None => true
  | Some _ => false
  end.

Definition unclassified (path : string) (dir : list string) : list string :=
  filter (λ d_name, stat_fails path d_name = true) (children dir).

(** What the reading loop may do, started between two rounds with the
    array [entries] that holds [collected]: it completes and the array
    holds the old and the new entries; or an allocation fails and all that
    the frame owned is released; or the doubled capacity is not an
    [int]. *)
Definition reading_outcome (path : string) (dir : list string)
    (num_entries capacity : Z) (collected : list DirEntry) (s : state)
    (o : outcome (option (list slot * Z))) : Prop :=
  match o with
  | Ret (Some (entries', num_entries')) s' =>
      (∃ (capacity' : Z) (doublings : nat),
         array_inv entries' num_entries' capacity'
           (collected ++ listed path dir) ∧
         capacity' = (capacity * 2 ^ Z.of_nat doublings)%Z ∧
         (doublings = 0 ∨ (capacity' < 2 * num_entries')%Z)) ∧
      stdout s' = stdout s ∧
      stderr s' = stderr s ++ replicate (length (unclassified path dir))
                                (Perror "Error getting file status") ∧
      heap s' = names (listed path dir) ⊎ heap s ∧
      open_dirs s' = open_dirs s ∧
      (∃ used, alloc_plan s = used ++ alloc_plan s' ∧
               Forall (λ ok, ok = true) used)
  | Ret None s' =>
      stdout s' = stdout s ∧
      heap s = ({[+ EntriesArray +]} ⊎ names collected) ⊎ heap s' ∧
      open_dirs s = S (open_dirs s') ∧
      (∃ used, alloc_plan s = used ++ false :: alloc_plan s' ∧
               Forall (λ ok, ok = true) used) ∧
      (∃ warnings msg, msg ∈ allocation_messages ∧
         stderr s' = stderr s ++ warnings ++ [Perror msg])
  | Undefined =>
      (INT_MAX < 2 * (num_entries + Z.of_nat (length (listed path dir))))%Z
  | Diverge => False
  end.

(** Phase 1 as a whole, from a state in which the directory is open: as
    for the loop, with the initial capacity of 10 and nothing collected;
    when it completes the directory is closed and the frame owns the array
    and the names. *)
Definition directory_outcome (path : string) (dir : list string) (s : state)
    (o : outcome (option (list slot * Z))) : Prop :=
  match o with
  | Ret (Some (entries', num_entries')) s' =>
      (∃ (capacity' : Z) (doublings : nat),
         array_inv entries' num_entries' capacity' (listed path dir) ∧
         capacity' = (10 * 2 ^ Z.of_nat doublings)%Z ∧
         (doublings = 0 ∨ (capacity' < 2 * num_entries')%Z)) ∧
      stdout s' = stdout s ∧
      stderr s' = stderr s ++ replicate (length (unclassified path dir))
                                (Perror "Error getting file status") ∧
      heap s' = {[+ EntriesArray +]} ⊎ names (listed path dir) ⊎ heap s ∧
      open_dirs s = S (open_dirs s') ∧
      (∃ used, alloc_plan s = used ++ alloc_plan s' ∧
               Forall (λ ok, ok = true) used)
  | Ret None s' =>
      stdout s' = stdout s ∧
      heap s' = heap s ∧
      open_dirs s = S (open_dirs s') ∧
      (∃ used, alloc_plan s = used ++ false :: alloc_plan s' ∧
               Forall (λ ok, ok = true) used) ∧
      (∃ warnings msg, msg ∈ allocation_messages ∧
         stderr s' = stderr s ++ warnings ++ [Perror msg])
  | Undefined =>
      (INT_MAX < 2 * Z.of_nat (length (listed path dir)))%Z
  | Diverge => False
  end.

(** The tree that the program walks from [path], to the depth that the
    fuel allows: the sorted entries of each directory it can open. *)
Definition scan_entry (scan : string → option (list tree))
    (path : string) (e : DirEntry) : option tree :=
  if (is_dir e =? 0)%Z then Some (Node e [])
  else Node e <$> scan (full_path_of path (name e)).

Fixpoint scan (fuel : nat) (path : string) : option (list tree) :=
  match fuel with
  | O => None
  | S fuel' =>
      match fs_opendir fs path with
      | None => Some []
      | Some dir =>
          mapM (scan_entry (scan fuel') path)
               (qsort (listed path dir) compareDirEntries)
      end
  end.

(** Below a file there is nothing; below a directory is a forest that
    [accepted] holds of, for the path that the program joins for it. *)
Definition subtree_ok (accepted : string → list tree → Prop)
    (path : string) (t : tree) : Prop :=
  if (is_dir (entry_of t) =? 0)%Z then children_of t = []
  else accepted (full_path_of path (name (entry_of t))) (children_of t).


(** A forest that a walk from [path] can go through: its roots are the
    sorted entries of the directory and below each directory is such a
    forest for the joined path; or it is empty, the directory having been
    given up (it could not be opened, or an allocation failed). *)
Fixpoint walked (fuel : nat) (path : string) (forest : list tree) : Prop :=
  match fuel with
  | O => False
  | S fuel' =>
      forest = [] ∨
      ∃ dir, fs_opendir fs path = Some dir ∧
             entry_of <$> forest
             = qsort (listed path dir) compareDirEntries ∧
             Forall (subtree_ok (walked fuel') path) forest
  end.

(** The walk from [path] at nesting level [indent_level] stays within the
    fuel and within [int]: every directory on the way has fewer than 2^30
    entries and the level never exceeds [INT_MAX]. *)
Definition entry_bounded (bounded : string → Z → bool)
    (path : string) (indent_level : Z) (e : DirEntry) : bool :=
  (is_dir e =? 0)%Z ||
  ((- INT_MAX - 1 <=? indent_level + 1)%Z &&
   (indent_level + 1 <=? INT_MAX)%Z &&
   bounded (full_path_of path (name e)) (indent_level + 1)%Z).

Fixpoint bounded (fuel : nat) (path : string) (indent_level : Z) : bool :=
  match fuel with
  | O => false
  | S fuel' =>
      match fs_opendir fs path with
      | None => true
      | Some dir =>
          (2 * Z.of_nat (length (listed path dir)) <=? INT_MAX)%Z &&
          forallb (entry_bounded (bounded fuel') path indent_level)
            (listed path dir)
      end
  end.

(** What a call of [list_directory_recursive] may do: it returns, and then
    it has released what it allocated and closed what it opened, has only
    added to the two streams, and has printed the lines of a forest walked
    from [path], which is the whole tree under [path] when no allocation
    failed; it does not return only when the walk is not bounded. *)
Definition call_outcome (fuel : nat) (path : string) (indent_level : Z)
    (prefix : string) (s : state) (o : outcome unit) : Prop :=
  match o with
  | Ret _ s' =>
      heap s' = heap s ∧ open_dirs s' = open_dirs s ∧
      (∃ forest,
         walked fuel path forest ∧
         (∀ ancestors, stdout s' = stdout s +:+
                         text_of (lines_of_forest ancestors prefix forest)) ∧
         ((forest = [] ∧ (fs_opendir fs path = None ∨ ¬ all_succeed s)) ∨
          ∃ dir, fs_opendir fs path = Some dir ∧
                 entry_of <$> forest
                 = qsort (listed path dir) compareDirEntries) ∧
         (all_succeed s → scan fuel path = Some forest)) ∧
      (∃ err, stderr s' = stderr s ++ err) ∧
      (all_succeed s →
       all_succeed s' ∧
       (∀ dir, fs_opendir fs path = Some dir →
          ∃ err, stderr s' = stderr s ++
                   replicate (length (unclassified path dir))
                     (Perror "Error getting file status") ++ err))
  | _ => bounded fuel path indent_level = false
  end.

(** The same for the printing loop over the entries [rest] that are still
    to be printed, in a frame whose recursive calls have [fuel]. *)
Definition loop_outcome (fuel : nat) (path : string) (indent_level : Z)
    (prefix : string) (rest : list DirEntry) (s : state)
    (o : outcome unit) : Prop :=
  match o with
  | Ret _ s' =>
      heap s = names rest ⊎ heap s' ∧ open_dirs s' = open_dirs s ∧
      (∃ forest,
         entry_of <$> forest = rest ∧
         Forall (subtree_ok (walked fuel) path) forest ∧
         (∀ ancestors, stdout s' = stdout s +:+
                         text_of (lines_of_forest ancestors prefix forest)) ∧
         (all_succeed s →
          mapM (scan_entry (scan fuel) path) rest = Some forest)) ∧
      (∃ err, stderr s' = stderr s ++ err) ∧
      (all_succeed s → all_succeed s')
  | _ => forallb (entry_bounded (bounded fuel) path indent_level) rest = false
  end.

End View.

(** ** What the program is expected to report *)

Section Reports.
Context `{Qsort} (fs : filesystem).

(** What a walk from [path] in which no allocation fails writes to the
    error stream: for a directory that cannot be opened the message of line
    54; otherwise one warning for each entry whose status query fails
    (line 85), written while the directory is read, and then what the walks
    of its subdirectories write, in the order of the sorted entries. *)
Definition entry_diagnostics (diagnostics : string → list diag)
    (path : string) (e : DirEntry) : list diag :=
  if (is_dir e =? 0)%Z then []
  else diagnostics (full_path_of path (name e)).

Fixpoint diagnostics (fuel : nat) (path : string) : list diag :=
  match fuel with
  | O => []
  | S fuel' =>
      match fs_opendir fs path with
      | None =>
          [Fprintf ("Error: Cannot open directory '" +:+ path +:+ "'" +:+ LF)]
      | Some dir =>
          replicate (length (unclassified fs path dir))
            (Perror "Error getting file status")
          ++ concat (entry_diagnostics (diagnostics fuel') path
                       <$> qsort (listed fs path dir) compareDirEntries)
      end
  end.
End Reports.

(** ** Example file systems *)

Definition initial_state : state := mkState "" [] ∅ [] 0.

(** [st_mode] of a directory ([drwxr-xr-x]) and of a regular file
    ([-rw-r--r--]). *)
Definition mode_dir : Z := 16877.
Definition mode_file : Z := 33188.

(** A file system given by two tables. *)
Fixpoint lookup_path {A} (table : list (string * A)) (p : string) : option A :=
  match table with
  | [] => None
  | (q, a) :: table' => if String.eqb q p then Some a else lookup_path table' p
  end.

Definition table_fs (dirs : list (string * list string))
    (modes : list (string * Z)) : filesystem :=
  {| fs_opendir := lookup_path dirs; fs_stat := lookup_path modes |}.

(** Scenario A of the specification: [b.txt] and the empty directory [a]. *)
Definition scenario_A : filesystem :=
  table_fs [("."%string, ["."; ".."; "b.txt"; "a"]); ("./a"%string, ["."; ".."])]
           [("./b.txt"%string, mode_file); ("./a"%string, mode_dir)].

(** Scenario B: [dir1] with [file1.txt] in it, and [file2.txt]. *)
Definition scenario_B : filesystem :=
  table_fs [("."%string, ["."; ".."; "file2.txt"; "dir1"]);
            ("./dir1"%string, ["file1.txt"; ".."; "."])]
           [("./dir1"%string, mode_dir); ("./file2.txt"%string, mode_file);
            ("./dir1/file1.txt"%string, mode_file)].

(** Scenario C: the directory [secret] cannot be opened; [gone] is a name
    whose status query fails. *)
Definition scenario_C : filesystem :=
  table_fs [("."%string, ["."; "gone"; "a.txt"; "secret"; ".."; "z"]);
            ("./z"%string, ["."; ".."; "f"])]
           [("./a.txt"%string, mode_file); ("./secret"%string, mode_dir);
            ("./z"%string, mode_dir); ("./z/f"%string, mode_file)].

(** 25 files in one directory: the capacity is doubled twice. *)
Definition crowded_fs : filesystem :=
  {| fs_opendir p :=
       if String.eqb p "." then Some (replicate 25 "f"%string) else None;
     fs_stat p := if String.eqb p "./f" then Some mode_file else None |}.

(** A directory with two files under the root, and a plan in which the
    sixth allocation fails: the copy of the second name in [sub]. *)
Definition sub_fs : filesystem :=
  table_fs [("."%string, ["."; ".."; "sub"; "zz"]%string);
            ("./sub"%string, ["."; ".."; "x"; "y"]%string)]
           [("./sub"%string, mode_dir); ("./zz"%string, mode_file);
            ("./sub/x"%string, mode_file); ("./sub/y"%string, mode_file)].

Definition failing_state : state :=
  mkState "" [] ∅ [true; true; true; true; true; false] 0.



(** A chain of directories, each called [a] and the only entry of the one
    above it: [.], [./a], [./a/a] and so on, down to a given depth. *)
Fixpoint chain_below (s : string) : option nat :=
  match s with
  | EmptyString => Some 0
  | String c1 (String c2 r) =>
      if Ascii.eqb c1 "/" && Ascii.eqb c2 "a" then S <$> chain_below r else None
  | _ => None
  end.

Definition chain_depth (p : string) : option nat :=
  match p with
  | String c r => if Ascii.eqb c "." then chain_below r else None
  | EmptyString => None
  end.

Definition chain_fs (depth : nat) : filesystem :=
  {| fs_opendir p :=
       match chain_depth p with
       | Some k => if k <? depth then Some ["."; ".."; "a"]%string
                   else if k =? depth then Some ["."; ".."]%string else None
       | None => None
       end;
     fs_stat p :=
       match chain_depth p with
       | Some k => if k <=? depth then Some mode_dir else None
       | None => None
       end |}.

(** The prefix of the lines at a given depth under last siblings only. *)
Definition prefix_at_depth (depth : nat) : string :=
  Nat.iter depth (λ prefix, new_prefix_of prefix 1) "".

(** The path of the directory at a given depth of a chain of directories
    that are all called [a]. *)
Definition path_at_depth (depth : nat) : string :=
  Nat.iter depth (λ path, full_path_of path "a") ".".

(** A directory that holds a link [a] to itself: whatever the path, there
    is a directory and [a] is in it. *)
Definition loop_fs : filesystem :=
  {| fs_opendir _ := Some ["."; ".."; "a"]%string;
     fs_stat _ := Some mode_dir |}.

(** A directory whose path has [PATH_MAX - 1] bytes, with one entry. *)
Definition brim_path : string := Nat.iter 4095 (String "a"%char) "".

Definition brim_fs : filesystem :=
  {| fs_opendir p := if String.eqb p brim_path then Some ["x"]%string else None;
     fs_stat p := if String.eqb p brim_path then Some mode_dir else None |}.

(** Scenario B with the names of each directory in another order. *)
Definition scenario_B_shuffled : filesystem :=
  table_fs [("."%string, ["dir1"; "."; "file2.txt"; ".."]);
            ("./dir1"%string, [".."; "."; "file1.txt"])]
           [("./dir1"%string, mode_dir); ("./file2.txt"%string, mode_file);
            ("./dir1/file1.txt"%string, mode_file)].

(** * nhex: a hexadecimal dump

    The second program of the repository, [nhex.c], is one [main]: it
    prints the content of a file in rows of an offset, the bytes in
    hexadecimal and the bytes as text.  Its embedding has a state and a
    monad of its own: the two output streams, the number of live buffers and
    of open file streams, and the plan of the allocator.  The file that
    [fopen] opens is the list of its bytes and [fread] takes the next bytes
    of it; read errors are not modelled.  The [while] loop takes fuel. *)

Module nhex.

Definition DEFAULT_BYTES_PER_LINE : Z := 16.
Definition MIN_BYTES_PER_LINE : Z := 4.
Definition MAX_BYTES_PER_LINE : Z := 64.
Definition EXIT_SUCCESS : Z := 0.
Definition EXIT_FAILURE : Z := 1.
Definition LONG_MAX : Z := 9223372036854775807.

(** What the program asks of its environment: [terminal] is [ws.ws_col]
    when standard output is a terminal and the [ioctl] succeeds, [files p]
    is the content of the file that [fopen(p, "rb")] opens. *)
Record environment : Type := mkEnv {
  terminal : option Z;
  files : string → option (list ascii)
}.

Record state : Type := mkState {
  stdout : string;
  stderr : list diag;
  buffers : nat;            (* live blocks of [malloc] *)
  streams : nat;            (* open [FILE] streams *)
  alloc_plan : list bool    (* head: does the next allocation succeed? *)
}.

Inductive outcome (A : Type) : Type :=
| Ret (a : A) (s : state)
| Undefined            (* undefined behaviour of the C program *)
| Diverge.             (* the fuel ran out *)
Arguments Ret {A} a s.
Arguments Undefined {A}.
Arguments Diverge {A}.

Definition M (A : Type) : Type := state → outcome A.

#[export] Instance M_ret : MRet M := λ A a s, Ret a s.
#[export] Instance M_bind : MBind M := λ A B f m s,
  match m s with
  | Ret a s' => f a s'
  | Undefined => Undefined
  | Diverge => Diverge
  end.

Definition undefined {A} : M A := λ _, Undefined.
Definition diverge {A} : M A := λ _, Diverge.

Definition printf (text : string) : M unit :=
  λ s, Ret () (mkState (stdout s +:+ text) (stderr s) (buffers s) (streams s)
                 (alloc_plan s)).

Definition fprintf_stderr (text : string) : M unit :=
  λ s, Ret () (mkState (stdout s) (stderr s ++ [Fprintf text]) (buffers s)
                 (streams s) (alloc_plan s)).

Definition perror (msg : string) : M unit :=
  λ s, Ret () (mkState (stdout s) (stderr s ++ [Perror msg]) (buffers s)
                 (streams s) (alloc_plan s)).

Definition malloc : M bool :=
  λ s, match alloc_plan s with
       | [] => Ret true (mkState (stdout s) (stderr s) (S (buffers s))
                           (streams s) [])
       | true :: plan => Ret true (mkState (stdout s) (stderr s) (S (buffers s))
                                     (streams s) plan)
       | false :: plan => Ret false (mkState (stdout s) (stderr s) (buffers s)
                                       (streams s) plan)
       end.

Definition free : M unit :=
  λ s, match buffers s with
       | S n => Ret () (mkState (stdout s) (stderr s) n (streams s)
                          (alloc_plan s))
       | O => Undefined
       end.

Definition fclose : M unit :=
  λ s, match streams s with
       | S n => Ret () (mkState (stdout s) (stderr s) (buffers s) n
                          (alloc_plan s))
       | O => Undefined
       end.

(** The result of a [long] computation. *)
Definition long_range (z : Z) : M Z :=
  if decide (- LONG_MAX - 1 ≤ z ≤ LONG_MAX)%Z then mret z else undefined.

(** [isprint] in the "C" locale, which is the locale of a program that
    does not call [setlocale]. *)
Definition isprint (c : Z) : bool := (32 <=? c)%Z && (c <=? 126)%Z.

(** The conversions [%02X] and [%08lX] of a value that is not negative:
    upper-case hexadecimal digits, padded with zeros to the width. *)
Definition hex_digit (d : Z) : ascii :=
  ascii_of_N (Z.to_N (if (d <? 10)%Z then 48 + d else 55 + d)).

Fixpoint hex_digits (digits : nat) (n : Z) : string :=
  match digits with
  | O => ""
  | S digits' =>
      hex_digits digits' (n / 16) +:+ String (hex_digit (n mod 16)) ""
  end.

Definition hex_width (n : Z) : nat :=
  if (n =? 0)%Z then 1 else Z.to_nat (Z.log2 n / 4 + 1).

Definition printf_0X (width : nat) (n : Z) : string :=
  hex_digits (width `max` hex_width n) n.

Section Program.
Context (env : environment).

Definition fopen (path : string) : M (option (list ascii)) :=
  λ s, match files env path with
       | Some contents =>
           Ret (Some contents)
             (mkState (stdout s) (stderr s) (buffers s) (S (streams s))
                (alloc_plan s))
       | None => Ret None s
       end.

(** Lines 28-66: the number of bytes shown on a line. *)
Definition bytes_per_line_of_terminal : Z :=
  match terminal env with
  | Some terminal_width =>
      let calculated_n := ((terminal_width - 14) ÷ 4)%Z in
      let bytes_per_line :=
        if (calculated_n <? MIN_BYTES_PER_LINE)%Z then MIN_BYTES_PER_LINE
        else if (calculated_n >? MAX_BYTES_PER_LINE)%Z then MAX_BYTES_PER_LINE
        else calculated_n in
      if negb (Z.rem bytes_per_line 2 =? 0)%Z && (bytes_per_line >? 1)%Z
      then (bytes_per_line - 1)%Z
      else bytes_per_line
  | None => DEFAULT_BYTES_PER_LINE
  end.

(** The [for] loop of lines 93-103, with [todo] iterations left: the
    hexadecimal cells of a line.  [buffer] holds the bytes that [fread]
    stored; reading past them is reading what this call did not store. *)
Fixpoint hex_cells (bytes_per_line bytes_read : Z) (buffer : list ascii)
    (i : Z) (todo : nat) : M unit :=
  match todo with
  | O => mret ()
  | S todo' =>
      (if (i <? bytes_read)%Z then
         match buffer !! Z.to_nat i with
         | Some b => printf (printf_0X 2 (byte_val b) +:+ " ")
         | None => undefined
         end
       else printf "   ");;
      (if (bytes_per_line >=? 2)%Z && (i =? bytes_per_line ÷ 2 - 1)%Z
       then printf " " else mret ());;
      hex_cells bytes_per_line bytes_read buffer (i + 1)%Z todo'
  end.

(** The [for] loop of lines 107-109: the text column. *)
Fixpoint text_cells (buffer : list ascii) (i : Z) (todo : nat) : M unit :=
  match todo with
  | O => mret ()
  | S todo' =>
      match buffer !! Z.to_nat i with
      | Some b =>
          printf (String (if isprint (byte_val b) then b else "."%char) "");;
          text_cells buffer (i + 1)%Z todo'
      | None => undefined
      end
  end.

(** The [while] loop of lines 88-114 over what is left of the file. *)
Fixpoint dump_loop (fuel : nat) (bytes_per_line offset : Z)
    (rest : list ascii) : M unit :=
  match fuel with
  | O => diverge
  | S fuel' =>
      let buffer := take (Z.to_nat bytes_per_line) rest in
      let bytes_read := Z.of_nat (length buffer) in
      if (bytes_read >? 0)%Z then
        printf (printf_0X 8 offset +:+ ": ");;
        hex_cells bytes_per_line bytes_read buffer 0 (Z.to_nat bytes_per_line);;
        printf " |";;
        text_cells buffer 0 (Z.to_nat bytes_read);;
        printf ("|" +:+ LF);;
        offset' ← long_range (offset + bytes_read);
        dump_loop fuel' bytes_per_line offset'
          (drop (Z.to_nat bytes_per_line) rest)
      else mret ()
  end.

(** [main] (nhex.c, lines 15-121); [argc] is the length of [argv]. *)
Definition main (fuel : nat) (argv : list string) : M Z :=
  let argc := Z.of_nat (length argv) in
  if negb (argc =? 2)%Z then
    match argv !! 0%nat with
    | Some program =>
        fprintf_stderr ("Usage: " +:+ program +:+ " <file_path>" +:+ LF);;
        fprintf_stderr
          ("Displays the binary content of a file in hexadecimal format."
           +:+ LF);;
        mret EXIT_FAILURE
    | None => undefined
    end
  else
    let file_path := default "" (argv !! 1%nat) in
    let bytes_per_line := bytes_per_line_of_terminal in
    fp ← fopen file_path;
    match fp with
    | None => perror "Error opening file";; mret EXIT_FAILURE
    | Some contents =>
        ok ← malloc;
        if ok : bool then
          dump_loop fuel bytes_per_line 0 contents;;
          free;;
          fclose;;
          mret EXIT_SUCCESS
        else
          perror "Error allocating buffer";;
          fclose;;
          mret EXIT_FAILURE
    end.

End Program.

(** ** What the dump looks like *)

(** A byte as the text column shows it. *)
Definition shown (b : ascii) : ascii :=
  if isprint (byte_val b) then b else "."%char.

(** The cell of position [i] in the hexadecimal column of a row that shows
    [chunk]: the two digits of the byte and a space, or three spaces past
    the end of the chunk, and the gap after the middle position. *)
Definition hex_cell (bytes_per_line : Z) (chunk : list ascii) (i : nat)
  : string :=
  match chunk !! i with
  | Some b => printf_0X 2 (byte_val b) +:+ " "
  | None => "   "
  end
  +:+ (if (bytes_per_line >=? 2)%Z && (Z.of_nat i =? bytes_per_line ÷ 2 - 1)%Z
       then " " else "").

Fixpoint join (texts : list string) : string :=
  match texts with
  | [] => ""
  | t :: texts' => t +:+ join texts'
  end.

Definition row_text (bytes_per_line offset : Z) (chunk : list ascii) : string :=
  printf_0X 8 offset +:+ ": "
  +:+ join (hex_cell bytes_per_line chunk <$> seq 0 (Z.to_nat bytes_per_line))
  +:+ " |" +:+ string_of_list_ascii (shown <$> chunk) +:+ "|" +:+ LF.

(** The rows of a dump with [n] bytes to the row: row [k] starts at offset
    [k * n] and shows the next [n] bytes, or what is left of the file. *)
Definition rows (n : nat) (data : list ascii) : list (Z * list ascii) :=
  (λ k, (Z.of_nat (k * n), take n (drop (k * n) data)))
    <$> seq 0 ((length data + n - 1) / n).

Definition dump_text (bytes_per_line : Z) (data : list ascii) : string :=
  join ((λ row, row_text bytes_per_line row.1 row.2)
          <$> rows (Z.to_nat bytes_per_line) data).

(** Reading a dump back: the bytes that the hexadecimal columns of its
    rows spell, row after row. *)
Definition hex_value (c : ascii) : option Z :=
  let v := byte_val c in
  if (48 <=? v)%Z && (v <=? 57)%Z then Some (v - 48)%Z
  else if (65 <=? v)%Z && (v <=? 70)%Z then Some (v - 55)%Z
  else None.

Inductive column : Type :=
| Offset
| Cells (pending : option Z)
| Text.

Fixpoint decode (col : column) (text : string) : list ascii :=
  match text with
  | EmptyString => []
  | String c text' =>
      match col with
      | Offset =>
          if Ascii.eqb c ":" then decode (Cells None) text'
          else decode Offset text'
      | Cells pending =>
          if Ascii.eqb c "|" then decode Text text'
          else match hex_value c, pending with
               | Some low, Some high =>
                   ascii_of_N (Z.to_N (16 * high + low))
                   :: decode (Cells None) text'
               | Some high, None => decode (Cells (Some high)) text'
               | None, _ => decode (Cells pending) text'
               end
      | Text =>
          if Ascii.eqb c "010" then decode Offset text'
          else decode Text text'
      end
  end.

Definition initial_state : state := mkState "" [] 0 0 [].

End nhex.

(** A file of 34 bytes and an environment in which it is the file [f]. *)
Definition sample_file : list ascii :=
  list_ascii_of_string ("Hello, World!" +:+ LF +:+ "0123456789abcdefghij").

Definition sample_env (terminal : option Z) : nhex.environment :=
  nhex.mkEnv terminal (λ p, if String.eqb p "f" then Some sample_file else None).

(** * Proofs about ntree *)

(** ** Strings *)

#[local] Arguments String.append !_ _ / : simpl nomatch.

Section Strings.
Implicit Types s t u : string.

Lemma string_app_nil_r s : s +:+ "" = s.
Proof. induction s; simpl; congruence. Qed.

Lemma string_app_assoc s t u : (s +:+ t) +:+ u = s +:+ t +:+ u.
Proof. induction s; simpl; congruence. Qed.

Lemma string_length_app s t :
  String.length (s +:+ t) = String.length s + String.length t.
Proof. induction s; simpl; congruence. Qed.

Lemma take_bytes_length n s :
  String.length (take_bytes n s) = n `min` String.length s.
Proof.
  revert s; induction n as [|n IH]; intros [|c r]; simpl; try done.
  by rewrite IH.
Qed.

Lemma take_bytes_all n s : String.length s ≤ n → take_bytes n s = s.
Proof.
  revert s; induction n as [|n IH]; intros [|c r]; simpl; try done; [lia|].
  intros ?. rewrite IH; [done|lia].
Qed.


(** Cutting twice is cutting once: what [snprintf] stores of a text that
    starts with an already cut text. *)
Lemma take_bytes_app_take n s t :
  take_bytes n (take_bytes n s +:+ t) = take_bytes n (s +:+ t).
Proof.
  revert s; induction n as [|n IH]; intros [|c r]; simpl; try done.
  by rewrite IH.
Qed.

Lemma utf8_length_app s t :
  utf8_length (s +:+ t) = utf8_length s + utf8_length t.
Proof. induction s; simpl; lia. Qed.


Lemma byte_val_range c : (0 ≤ byte_val c < 256)%Z.
Proof.
  unfold byte_val. pose proof (N_ascii_bounded c). lia.
Qed.

Lemma byte_val_inj c1 c2 : byte_val c1 = byte_val c2 → c1 = c2.
Proof.
  unfold byte_val. intros Heq%(inj Z.of_N).
  rewrite <- (ascii_N_embedding c1), <- (ascii_N_embedding c2). by f_equal.
Qed.

Lemma byte_val_zero c : byte_val c = 0%Z ↔ c = zero.
Proof.
  split; [|by intros ->].
  intros Hc. by apply byte_val_inj.
Qed.

Lemma strcmp_flip s t : strcmp t s = (- strcmp s t)%Z.
Proof.
  revert t; induction s as [|c1 r1 IH]; intros [|c2 r2]; simpl; try lia.
  rewrite (Ascii.eqb_sym c2 c1).
  destruct (Ascii.eqb_spec c1 c2) as [->|]; [|lia].
  destruct (Ascii.eqb c2 zero); [done|apply IH].
Qed.

Lemma strcmp_refl s : strcmp s s = 0%Z.
Proof.
  induction s as [|c r IH]; simpl; [done|].
  rewrite Ascii.eqb_refl. by destruct (Ascii.eqb c zero).
Qed.

Lemma strcmp_trans s t u :
  (strcmp s t ≤ 0 → strcmp t u ≤ 0 → strcmp s u ≤ 0)%Z.
Proof.
  revert t u; induction s as [|c1 r1 IH]; intros [|c2 r2] [|c3 r3]; simpl;
    try pose proof (byte_val_range c1); try pose proof (byte_val_range c2);
    try pose proof (byte_val_range c3); try lia.
  - intros H12 _.
    assert (c1 = zero) as -> by (apply byte_val_zero; lia).
    destruct (Ascii.eqb_spec zero c3) as [<-|Hne]; [done|]. lia.
  - intros H12 H23.
    assert (c2 = zero) as -> by (apply byte_val_zero; lia).
    destruct (Ascii.eqb_spec c1 zero) as [->|]; [done|].
    change (byte_val zero) with 0%Z in H12. lia.
  - destruct (Ascii.eqb_spec c1 c2) as [->|Hne12].
    + destruct (Ascii.eqb_spec c2 c3) as [->|Hne23]; [|done].
      destruct (Ascii.eqb_spec c3 zero); [done|apply IH].
    + destruct (Ascii.eqb_spec c2 c3) as [->|Hne23].
      * rewrite (proj2 (Ascii.eqb_neq c1 c3)) by done. done.
      * intros H12 H23.
        destruct (Ascii.eqb_spec c1 c3) as [->|Hne13]; [|lia].
        assert (byte_val c3 ≠ byte_val c2) by (by intros ?%byte_val_inj).
        lia.
Qed.

(** On C strings [strcmp] is the byte-wise lexicographic order. *)
Lemma strcmp_compare s t :
  no_nul s = true → no_nul t = true →
  (strcmp s t ?= 0)%Z = String.compare s t.
Proof.
  revert t; induction s as [|c1 r1 IH]; intros [|c2 r2]; simpl; try done.
  - intros _ [Hc _]%andb_prop.
    pose proof (byte_val_range c2).
    assert (byte_val c2 ≠ 0%Z).
    { intros ->%byte_val_zero. by rewrite Ascii.eqb_refl in Hc. }
    apply Z.compare_lt_iff. lia.
  - intros [Hc _]%andb_prop _.
    pose proof (byte_val_range c1).
    assert (byte_val c1 ≠ 0%Z).
    { intros ->%byte_val_zero. by rewrite Ascii.eqb_refl in Hc. }
    apply Z.compare_gt_iff. lia.
  - intros [Hc1 Hr1]%andb_prop [Hc2 Hr2]%andb_prop.
    unfold Ascii.compare.
    destruct (Ascii.eqb_spec c1 c2) as [->|Hne].
    + rewrite N.compare_refl.
      destruct (Ascii.eqb c2 zero); [done|by apply IH].
    + assert (byte_val c1 ≠ byte_val c2) as Hv by (by intros ?%byte_val_inj).
      unfold byte_val in *.
      destruct (N.compare_spec (N_of_ascii c1) (N_of_ascii c2)) as [Heq|Hlt|Hgt].
      * congruence.
      * apply Z.compare_lt_iff. lia.
      * apply Z.compare_gt_iff. lia.
Qed.

Lemma strcmp_le s t :
  no_nul s = true → no_nul t = true → (strcmp s t ≤ 0)%Z → String.le s t.
Proof.
  intros Hs Ht Hle. unfold String.le, String.leb.
  rewrite <- (strcmp_compare s t Hs Ht).
  destruct (Z.compare_spec (strcmp s t) 0); simpl; try done. lia.
Qed.

Lemma strcmp_eq s t :
  no_nul s = true → no_nul t = true → strcmp s t = 0%Z ↔ s = t.
Proof.
  intros Hs Ht. split; [|intros ->; apply strcmp_refl].
  intros H0. apply String.compare_eq_iff.
  rewrite <- (strcmp_compare s t Hs Ht), H0. done.
Qed.
End Strings.

(** ** The comparison function and the sort *)

Section Comparator.
Implicit Types a b c : DirEntry.

Lemma compareDirEntries_dir_file a b :
  is_dir a ≠ 0%Z → is_dir b = 0%Z → compareDirEntries a b = (-1)%Z.
Proof.
  intros Ha Hb. unfold compareDirEntries.
  rewrite (proj2 (Z.eqb_neq _ _) Ha), (proj2 (Z.eqb_eq _ _) Hb). done.
Qed.

Lemma compareDirEntries_file_dir a b :
  is_dir a = 0%Z → is_dir b ≠ 0%Z → compareDirEntries a b = 1%Z.
Proof.
  intros Ha Hb. unfold compareDirEntries.
  rewrite (proj2 (Z.eqb_neq _ _) Hb), (proj2 (Z.eqb_eq _ _) Ha). done.
Qed.

Lemma compareDirEntries_same_kind a b :
  (is_dir a = 0%Z ↔ is_dir b = 0%Z) →
  compareDirEntries a b = strcmp (name a) (name b).
Proof.
  intros Hab. unfold compareDirEntries.
  destruct (Z.eqb_spec (is_dir a) 0), (Z.eqb_spec (is_dir b) 0);
    simpl; tauto.
Qed.

(** The three cases of the function, as one case analysis. *)
Lemma compareDirEntries_cases a b :
  (is_dir a ≠ 0%Z ∧ is_dir b = 0%Z ∧ compareDirEntries a b = (-1)%Z) ∨
  (is_dir a = 0%Z ∧ is_dir b ≠ 0%Z ∧ compareDirEntries a b = 1%Z) ∨
  ((is_dir a = 0%Z ↔ is_dir b = 0%Z) ∧
   compareDirEntries a b = strcmp (name a) (name b)).
Proof.
  destruct (decide (is_dir a = 0%Z)), (decide (is_dir b = 0%Z)).
  - right; right. split; [tauto|]. apply compareDirEntries_same_kind; tauto.
  - right; left. auto using compareDirEntries_file_dir.
  - left. auto using compareDirEntries_dir_file.
  - right; right. split; [tauto|]. apply compareDirEntries_same_kind; tauto.
Qed.

#[global] Instance compareDirEntries_total :
  Total (cmp_le compareDirEntries).
Proof.
  intros a b. unfold cmp_le.
  destruct (compareDirEntries_cases a b) as [(?&?&->)|[(?&?&?)|(?&->)]];
    [left; lia| |].
  - right. rewrite compareDirEntries_dir_file by done. lia.
  - rewrite (compareDirEntries_same_kind b a) by tauto.
    rewrite (strcmp_flip (name a) (name b)). lia.
Qed.

#[global] Instance compareDirEntries_trans :
  Transitive (cmp_le compareDirEntries).
Proof.
  intros a b c. unfold cmp_le.
  destruct (compareDirEntries_cases a b) as [(?&?&->)|[(?&?&->)|(?&->)]];
    destruct (compareDirEntries_cases b c) as [(?&?&->)|[(?&?&->)|(?&->)]];
    destruct (compareDirEntries_cases a c) as [(?&?&->)|[(?&?&->)|(?&->)]];
    try lia; try tauto.
  apply strcmp_trans.
Qed.

Lemma StronglySorted_lookup {A} (R : relation A) (l : list A) i j x y :
  StronglySorted R l → i < j → l !! i = Some x → l !! j = Some y → R x y.
Proof.
  intros Hl. revert i j. induction Hl as [|z l Hl IH Hz]; intros i j Hij Hi Hj.
  - done.
  - destruct j as [|j]; [lia|]. simpl in Hj. destruct i as [|i].
    + simplify_eq/=. rewrite Forall_forall in Hz. apply Hz.
      by eapply list_elem_of_lookup_2.
    + simpl in Hi. apply (IH i j); [lia|done..].
Qed.

Context `{Qsort}.

Lemma sorted_entries_lookup (entries : list DirEntry) i j a b :
  i < j →
  qsort entries compareDirEntries !! i = Some a →
  qsort entries compareDirEntries !! j = Some b →
  (compareDirEntries a b ≤ 0)%Z.
Proof.
  intros. eapply (StronglySorted_lookup (cmp_le compareDirEntries)); [|done..].
  apply qsort_sorted; apply _.
Qed.
End Comparator.

(** ** Running the monad *)

Section Monad.
Context {A B : Type}.

Lemma bind_ret (m : M A) (f : A → M B) s a s1 :
  m s = Ret a s1 → (m ≫= f) s = f a s1.
Proof. unfold mbind, M_bind. by intros ->. Qed.

Lemma mret_bind (a : A) (f : A → M B) s : (mret a ≫= f) s = f a s.
Proof. done. Qed.

Lemma bind_assoc {C} (m : M A) (f : A → M B) (g : B → M C) s :
  ((m ≫= f) ≫= g) s = (m ≫= λ a, f a ≫= g) s.
Proof. unfold mbind, M_bind. by destruct (m s). Qed.

Lemma bind_inv (m : M A) (f : A → M B) s b s' :
  (m ≫= f) s = Ret b s' → ∃ a s1, m s = Ret a s1 ∧ f a s1 = Ret b s'.
Proof. unfold mbind, M_bind. destruct (m s); naive_solver. Qed.
End Monad.

Section Allocator.
Implicit Types s : state.

Lemma next_alloc_spec s :
  ∃ ok s', next_alloc s = Ret ok s' ∧
    stdout s' = stdout s ∧ stderr s' = stderr s ∧ heap s' = heap s ∧
    open_dirs s' = open_dirs s ∧
    if ok then ∃ used, alloc_plan s = used ++ alloc_plan s' ∧
                       Forall (λ b, b = true) used
    else alloc_plan s = false :: alloc_plan s'.
Proof.
  unfold next_alloc. destruct (alloc_plan s) as [|[] plan] eqn:Hplan.
  - exists true, s. repeat split; try done. exists []. by rewrite Hplan.
  - eexists true, _. repeat split; try done. exists [true]. simpl. auto.
  - eexists false, _. repeat split; done.
Qed.

Lemma names_cons e es : names (e :: es) = {[+ NameCopy (name e) +]} ⊎ names es.
Proof. done. Qed.

Lemma names_app es1 es2 : names (es1 ++ es2) = names es1 ⊎ names es2.
Proof.
  unfold names. rewrite fmap_app. apply list_to_set_disj_app.
Qed.

Lemma names_perm es1 es2 : es1 ≡ₚ es2 → names es1 = names es2.
Proof. unfold names. by intros ->. Qed.

Lemma free_spec b s :
  b ∈ heap s → free b s = Ret () (set_heap s (heap s ∖ {[+ b +]})).
Proof. intros Hb. unfold free. by rewrite decide_True. Qed.

Lemma load_spec (a : list slot) (i : Z) e s :
  (0 ≤ i)%Z → a !! Z.to_nat i = Some (Some e) → load a i s = Ret e s.
Proof.
  intros Hi Ha. unfold load, in_bounds.
  apply lookup_lt_Some in Ha as Hlt.
  rewrite decide_True by lia. simpl.
  unfold mbind, M_bind, mret, M_ret. by rewrite Ha.
Qed.

End Allocator.

(** ** Phase 1: reading a directory *)

Section Reading.
Context (fs : filesystem).
Implicit Types s : state.

Lemma free_names_spec (entries : list slot) (es : list DirEntry) (i : Z) s :
  (0 ≤ i)%Z →
  (∀ k e, es !! k = Some e → entries !! (Z.to_nat i + k) = Some (Some e)) →
  names es ⊆ heap s →
  free_names entries i (length es) s
  = Ret () (set_heap s (heap s ∖ names es)).
Proof.
  revert i s. induction es as [|e es IH]; intros i s Hi Hes Hheap; simpl.
  - unfold mret, M_ret. f_equal. destruct s; unfold set_heap; simpl.
    f_equal. unfold names. simpl. multiset_solver.
  - rewrite names_cons in Hheap.
    erewrite bind_ret; last first.
    { apply load_spec; [done|]. specialize (Hes 0 e eq_refl).
      by rewrite Nat.add_0_r in Hes. }
    erewrite bind_ret; last first.
    { apply free_spec. multiset_solver. }
    rewrite IH; simpl.
    + f_equal. unfold set_heap; simpl. f_equal. rewrite names_cons.
      multiset_solver.
    + lia.
    + intros k e' Hk. specialize (Hes (S k) e' Hk).
      rewrite <- Hes. f_equal. lia.
    + multiset_solver.
Qed.

Lemma abandon_spec msg (entries : list slot) n cap collected s :
  array_inv entries n cap collected →
  {[+ EntriesArray +]} ⊎ names collected ⊆ heap s →
  0 < open_dirs s →
  abandon msg entries n s
  = Ret () (mkState (stdout s) (stderr s ++ [Perror msg])
              (heap s ∖ names collected ∖ {[+ EntriesArray +]})
              (alloc_plan s) (pred (open_dirs s))).
Proof.
  intros (Hlen & Hrange & Hcap & Htake) Hheap Hopen. unfold abandon.
  assert (length collected = Z.to_nat n) as Hcl.
  { apply (f_equal length) in Htake.
    rewrite length_take, length_fmap in Htake. lia. }
  unfold perror at 1. unfold mbind at 1, M_bind at 1.
  rewrite <- Hcl.
  erewrite bind_ret; last first.
  { apply free_names_spec; simpl; [done| |multiset_solver].
    intros k e Hk. simpl.
    assert (take (Z.to_nat n) entries !! k = Some (Some e)) as Hlk.
    { by rewrite Htake, list_lookup_fmap, Hk. }
    rewrite lookup_take_Some in Hlk. by destruct Hlk. }
  erewrite bind_ret; last first.
  { apply free_spec. simpl. multiset_solver. }
  unfold closedir. simpl. destruct (open_dirs s); [lia|]. done.
Qed.
End Reading.

Section ReadingLoop.
Context (fs : filesystem).
Implicit Types s : state.

Lemma array_inv_length entries n cap collected :
  array_inv entries n cap collected → length collected = Z.to_nat n.
Proof.
  intros (Hlen & Hrange & Hcap & Htake).
  apply (f_equal length) in Htake.
  rewrite length_take, length_fmap in Htake. lia.
Qed.

Lemma array_inv_count entries n cap collected :
  array_inv entries n cap collected → n = Z.of_nat (length collected).
Proof.
  intros Hinv. pose proof (array_inv_length _ _ _ _ Hinv).
  destruct Hinv as (_ & ? & _). lia.
Qed.

Lemma array_inv_resize entries n cap collected cap' :
  array_inv entries n cap collected → (cap ≤ cap')%Z →
  array_inv (resize (Z.to_nat cap') None entries) n cap' collected.
Proof.
  intros (Hlen & Hrange & Hcap & Htake) Hle.
  split; [by rewrite length_resize|]. split; [lia|]. split; [lia|].
  rewrite take_resize_le by lia.
  rewrite resize_le by lia. done.
Qed.

Lemma array_inv_store entries n cap collected e :
  array_inv entries n cap collected → (n < cap)%Z →
  array_inv (<[Z.to_nat n := Some e]> entries) (n + 1) cap (collected ++ [e]).
Proof.
  intros (Hlen & Hrange & Hcap & Htake) Hlt.
  split; [by rewrite length_insert|]. split; [lia|]. split; [lia|].
  replace (Z.to_nat (n + 1)) with (S (Z.to_nat n)) by lia.
  rewrite fmap_app. simpl.
  erewrite take_S_r; last first.
  { apply list_lookup_insert_eq. lia. }
  rewrite take_insert_ge by lia. by rewrite Htake.
Qed.

Lemma malloc_spec b s :
  ∃ ok s', malloc b s = Ret ok s' ∧
    stdout s' = stdout s ∧ stderr s' = stderr s ∧
    open_dirs s' = open_dirs s ∧
    if ok then heap s' = {[+ b +]} ⊎ heap s ∧
               ∃ used, alloc_plan s = used ++ alloc_plan s' ∧
                       Forall (λ b, b = true) used
    else heap s' = heap s ∧ alloc_plan s = false :: alloc_plan s'.
Proof.
  destruct (next_alloc_spec s) as (ok & s1 & Hrun & Hout & Herr & Hheap & Hopen & Hplan).
  unfold malloc. rewrite (bind_ret _ _ _ _ _ Hrun).
  destruct ok.
  - eexists true, _. split; [done|]. simpl. rewrite Hheap. auto.
  - exists false, s1. split; [done|]. auto.
Qed.


Lemma reading_outcome_realloc path dir n cap collected s s1 o :
  stdout s1 = stdout s → stderr s1 = stderr s → heap s1 = heap s →
  open_dirs s1 = open_dirs s →
  (∃ used, alloc_plan s = used ++ alloc_plan s1 ∧
           Forall (λ b, b = true) used) →
  length collected = Z.to_nat n → (0 < cap ≤ n)%Z →
  listed fs path dir ≠ [] →
  reading_outcome fs path dir n (cap * 2) collected s1 o →
  reading_outcome fs path dir n cap collected s o.
Proof.
  intros Hout Herr Hheap Hopen (used0 & Hplan & Hused0) Hcl Hcap Hne.
  destruct o as [[[entries' n']|] s'| |]; simpl; [| |done..].
  - intros ((cap' & k & Hinv & Hcap' & Hmin) & ? & ? & ? & ? & (used & ? & ?)).
    split.
    { exists cap', (S k). split; [done|]. split.
      - rewrite Nat2Z.inj_succ, Z.pow_succ_r by lia. lia.
      - right. apply array_inv_length in Hinv as Hlen'.
        rewrite length_app in Hlen'.
        assert (0 < length (listed fs path dir)).
        { destruct (listed fs path dir); [done|simpl; lia]. }
        destruct Hinv as (_ & ? & _).
        destruct Hmin as [->|]; [|done].
        rewrite Z.pow_0_r in Hcap'. lia. }
    repeat split; try congruence.
    exists (used0 ++ used). split; [|by apply Forall_app].
    rewrite <- (assoc_L (++)). congruence.
  - intros (? & ? & ? & (used & ? & ?) & (w & msg & ? & ?)).
    repeat split; try congruence.
    + exists (used0 ++ used). split; [|by apply Forall_app].
      rewrite <- (assoc_L (++)). congruence.
    + exists w, msg. split; [done|congruence].
Qed.

(** The second half of a round (lines 107-119): copy the name, store the
    entry, go on with the rest of the directory. *)
Lemma append_entry_spec path d dir' m entries n cap collected s :
  let e := mkDirEntry d (S_ISDIR m) in
  (∀ entries n cap collected s,
      array_inv entries n cap collected →
      {[+ EntriesArray +]} ⊎ names collected ⊆ heap s →
      0 < open_dirs s →
      reading_outcome fs path dir' n cap collected s
        (read_entries fs path dir' entries n cap s)) →
  is_dot d = false →
  fs_stat fs (full_path_of path d) = Some m →
  array_inv entries n cap collected → (n < cap)%Z →
  {[+ EntriesArray +]} ⊎ names collected ⊆ heap s →
  0 < open_dirs s →
  reading_outcome fs path (d :: dir') n cap collected s
    ((ok ← malloc (NameCopy d);
      in_bounds entries n;;
      if ok : bool
      then read_entries fs path dir'
             (<[Z.to_nat n := Some e]> entries) (n + 1)%Z cap
      else abandon "Error: Memory allocation failed for entry name"
             entries n;;
           mret None) s).
Proof.
  intros e IH Hdot Hstat Hinv Hlt Hheap Hopen.
  destruct (malloc_spec (NameCopy d) s)
    as (ok & s1 & Hrun & Hout & Herr & Hopen1 & Hok).
  rewrite (bind_ret _ _ _ _ _ Hrun).
  pose proof Hinv as (Hlen & Hrange & Hcap & Htake).
  unfold in_bounds. rewrite decide_True by lia.
  unfold mbind at 1, M_bind at 1, mret at 1, M_ret at 1.
  destruct ok.
  - destruct Hok as (Hheap1 & used0 & Hplan0 & Hused0).
    specialize (IH (<[Z.to_nat n := Some e]> entries) (n + 1)%Z cap
                  (collected ++ [e]) s1).
    unfold reading_outcome in *. simpl listed. rewrite Hdot, Hstat.
    fold e.
    assert (length (unclassified fs path (d :: dir'))
            = length (unclassified fs path dir')) as Hun.
    { unfold unclassified, children. rewrite filter_cons.
      rewrite decide_True by done. rewrite filter_cons.
      rewrite decide_False; [done|]. unfold stat_fails. by rewrite Hstat. }
    rewrite Hun.
    destruct (read_entries fs path dir' _ _ _ s1)
      as [[[entries' n']|] s'| |].
    + destruct IH as ((cap' & k & Hinv' & Hcap' & Hmin) & ? & ? & Hh & ? & (used & ? & ?)).
      * by apply array_inv_store.
      * rewrite names_app, Hheap1. unfold names at 2. simpl.
        multiset_solver.
      * lia.
      * split.
        { exists cap', k. rewrite <- (assoc_L (++)) in Hinv'. done. }
        repeat split; try congruence.
        -- rewrite Hh, Hheap1, names_cons. simpl. multiset_solver.
        -- exists (used0 ++ used). split; [|by apply Forall_app].
           rewrite <- (assoc_L (++)). congruence.
    + destruct IH as (? & Hh & ? & (used & ? & ?) & (w & msg & ? & ?)).
      * by apply array_inv_store.
      * rewrite names_app, Hheap1. unfold names at 2. simpl.
        multiset_solver.
      * lia.
      * repeat split; try congruence.
        -- rewrite names_app, Hheap1 in Hh. unfold names at 2 in Hh.
           simpl in Hh. multiset_solver.
        -- exists (used0 ++ used). split; [|by apply Forall_app].
           rewrite <- (assoc_L (++)). congruence.
        -- exists w, msg. split; [done|congruence].
    + assert (INT_MAX < 2 * (n + 1 + Z.of_nat (length (listed fs path dir'))))%Z.
      { apply IH; [by apply array_inv_store| |lia].
        rewrite names_app, Hheap1. unfold names at 2. simpl.
        multiset_solver. }
      simpl length. lia.
    + apply IH; [by apply array_inv_store| |lia].
      rewrite names_app, Hheap1. unfold names at 2. simpl. multiset_solver.
  - destruct Hok as (Hheap1 & Hplan).
    erewrite bind_ret; last first.
    { eapply abandon_spec; [done| |lia]. by rewrite Hheap1. }
    unfold mret, M_ret, reading_outcome. simpl.
    split; [done|]. split; [rewrite Hheap1; multiset_solver|].
    split; [lia|]. split.
    + exists []. by rewrite Hplan.
    + exists [], "Error: Memory allocation failed for entry name".
      split; [repeat constructor|by rewrite Herr].
Qed.

(** The reading loop, started between two rounds. *)
Lemma read_entries_spec path dir :
  ∀ entries n cap collected s,
    array_inv entries n cap collected →
    {[+ EntriesArray +]} ⊎ names collected ⊆ heap s →
    0 < open_dirs s →
    reading_outcome fs path dir n cap collected s
      (read_entries fs path dir entries n cap s).
Proof.
  induction dir as [|d dir' IH]; intros entries n cap collected s Hinv Hheap Hopen.
  - simpl. unfold mret, M_ret. split.
    { exists cap, 0. rewrite (right_id_L [] (++)). split; [done|].
      split; [|by left]. simpl. lia. }
    repeat split; try done.
    + simpl. by rewrite (right_id_L [] (++)).
    + unfold names. simpl. multiset_solver.
    + by exists [].
  - simpl read_entries. fold (is_dot d).
    destruct (is_dot d) eqn:Hdot.
    { specialize (IH entries n cap collected s Hinv Hheap Hopen).
      unfold reading_outcome in *. simpl listed. rewrite Hdot.
      assert (unclassified fs path (d :: dir') = unclassified fs path dir')
        as ->; [|done].
      unfold unclassified, children. rewrite filter_cons.
      by rewrite decide_False by (by rewrite Hdot). }
    destruct (fs_stat fs (full_path_of path d)) as [m|] eqn:Hstat.
    2:{ unfold perror at 1. unfold mbind at 1, M_bind at 1.
        specialize (IH entries n cap collected
                      (set_stderr s (stderr s ++ [Perror "Error getting file status"]))
                      Hinv Hheap Hopen).
        unfold reading_outcome in *. simpl listed. rewrite Hdot, Hstat.
        assert (unclassified fs path (d :: dir') = d :: unclassified fs path dir')
          as ->.
        { unfold unclassified, children. rewrite filter_cons.
          rewrite decide_True by done. rewrite filter_cons.
          rewrite decide_True; [done|]. unfold stat_fails. by rewrite Hstat. }
        destruct (read_entries fs path dir' _ _ _ _) as [[[entries' n']|] s'| |];
          simpl in *; [| |done..].
        - destruct IH as (? & ? & Herr & ? & ? & ?).
          repeat split; try done.
          rewrite Herr, <- (assoc_L (++)). done.
        - destruct IH as (? & ? & ? & ? & (w & msg & ? & Herr)).
          repeat split; try done.
          exists (Perror "Error getting file status" :: w), msg.
          split; [done|]. rewrite Herr, <- (assoc_L (++)). done. }
    pose proof Hinv as (Hlen & Hrange & Hcap & Htake).
    pose proof (array_inv_length _ _ _ _ Hinv) as Hcl.
    assert (listed fs path (d :: dir') ≠ []) as Hne.
    { simpl. by rewrite Hdot, Hstat. }
    destruct (Z.geb_spec n cap) as [Hge|Hlt].
    2:{ rewrite mret_bind. by apply append_entry_spec. }
    rewrite bind_assoc. unfold int_range. case_decide as Hint.
    2:{ simpl. rewrite Hdot, Hstat. simpl length. unfold INT_MAX in *. lia. }
    rewrite mret_bind, bind_assoc. unfold realloc.
    destruct (next_alloc_spec s)
      as (ok & s1 & Hrun & Hout & Herr & Hheap1 & Hopen1 & Hok).
    rewrite (bind_ret _ _ _ _ _ Hrun).
    destruct ok.
    + rewrite mret_bind.
      eapply reading_outcome_realloc; try done.
      apply append_entry_spec; try done.
      * apply (array_inv_resize _ _ cap); [done|lia].
      * lia.
      * by rewrite Hheap1.
      * lia.
    + rewrite bind_assoc. erewrite bind_ret; last first.
      { eapply abandon_spec; [done| |lia]. by rewrite Hheap1. }
      rewrite !mret_bind.
      unfold mret, M_ret, reading_outcome. simpl.
      split; [done|]. split; [rewrite Hheap1; multiset_solver|].
      split; [lia|]. split.
      * exists []. by rewrite Hok.
      * exists [], "Error: Memory reallocation failed for entries array".
        split; [repeat constructor|by rewrite Herr].
Qed.
End ReadingLoop.

Section Phases.
Context `{Qsort} (fs : filesystem).
Implicit Types s : state.

Lemma read_directory_spec path dir s :
  0 < open_dirs s →
  directory_outcome fs path dir s (read_directory fs path dir s).
Proof.
  intros Hopen. unfold read_directory.
  destruct (malloc_spec EntriesArray s)
    as (ok & s1 & Hrun & Hout & Herr & Hopen1 & Hok).
  rewrite (bind_ret _ _ _ _ _ Hrun). destruct ok.
  - destruct Hok as (Hheap1 & used0 & Hplan0 & Hused0).
    assert (array_inv (replicate (Z.to_nat 10) (None : slot)) 0 10 []) as Hinv0.
    { split; [by rewrite length_replicate|]. repeat split; lia. }
    assert ({[+ EntriesArray +]} ⊎ names [] ⊆ heap s1) as Hheap0.
    { rewrite Hheap1. unfold names. simpl. multiset_solver. }
    assert (0 < open_dirs s1) as Hopen0 by lia.
    pose proof (read_entries_spec fs path dir _ 0 10 [] s1
                  Hinv0 Hheap0 Hopen0) as Hread.
    unfold mbind at 1, M_bind at 1.
    destruct (read_entries fs path dir _ _ _ s1) as [[[entries' n']|] s2| |];
      simpl in Hread |- *; [| |done..].
    + destruct Hread as ((cap' & k & Hinv & Hcap' & Hmin) & ? & ? & Hh & Hopen2 & (used & ? & ?)).
      unfold closedir, mbind, M_bind.
      destruct (open_dirs s2) as [|k2] eqn:Hk2; [lia|]. simpl.
      split; [by exists cap', k|].
      repeat split; try congruence.
      * rewrite Hh, Hheap1. multiset_solver.
      * exists (used0 ++ used). split; [|by apply Forall_app].
        rewrite <- (assoc_L (++)). congruence.
    + destruct Hread as (? & Hh & ? & (used & ? & ?) & (w & msg & ? & ?)).
      repeat split; try congruence.
      * rewrite Hheap1 in Hh. unfold names in Hh. simpl in Hh.
        multiset_solver.
      * exists (used0 ++ used). split; [|by apply Forall_app].
        rewrite <- (assoc_L (++)). congruence.
      * exists w, msg. split; [done|congruence].
  - destruct Hok as (Hheap1 & Hplan).
    unfold perror, closedir, mbind, M_bind, mret, M_ret. simpl.
    rewrite Hopen1. destruct (open_dirs s) as [|k] eqn:Hk; [lia|]. simpl.
    repeat split; try done.
    + exists []. by rewrite Hplan.
    + exists [], "Error: Memory allocation failed for entries array".
      split; [repeat constructor|by rewrite Herr].
Qed.

Lemma written_fmap_Some (es : list DirEntry) : written (Some <$> es) = Some es.
Proof. unfold written. by apply mapM_fmap_Some. Qed.

Lemma sort_entries_spec entries n cap es s :
  array_inv entries n cap es →
  sort_entries entries n s
  = Ret ((Some <$> qsort es compareDirEntries) ++ drop (Z.to_nat n) entries) s.
Proof.
  intros (Hlen & Hrange & Hcap & Htake). unfold sort_entries.
  rewrite decide_True by lia. by rewrite Htake, written_fmap_Some.
Qed.

Lemma sorted_lookup entries n cap es k e :
  array_inv entries n cap es →
  qsort es compareDirEntries !! k = Some e →
  ((Some <$> qsort es compareDirEntries) ++ drop (Z.to_nat n) entries) !! k
  = Some (Some e).
Proof.
  intros Hinv Hk. rewrite lookup_app_l.
  - by rewrite list_lookup_fmap, Hk.
  - rewrite length_fmap. by eapply lookup_lt_Some.
Qed.
End Phases.

(** ** The lines of a tree *)

Section Lines.
Lemma lines_of_tree_Node ancestors prefix is_last e ts :
  lines_of_tree ancestors prefix is_last (Node e ts)
  = mkLine ancestors prefix is_last (name e)
    :: lines_of_forest (ancestors ++ [is_last])
         (new_prefix_of prefix (Z.b2z is_last)) ts.
Proof.
  simpl. f_equal. induction ts as [|t ts IH]; simpl; [done|]. by rewrite IH.
Qed.

Lemma text_of_app ls1 ls2 : text_of (ls1 ++ ls2) = text_of ls1 +:+ text_of ls2.
Proof.
  induction ls1 as [|l ls1 IH]; simpl; [done|].
  by rewrite IH, string_app_assoc.
Qed.

(** Induction on trees and forests together. *)
Lemma tree_forest_ind (P : tree → Prop) (Q : list tree → Prop) :
  (∀ e ts, Q ts → P (Node e ts)) →
  Q [] →
  (∀ t ts, P t → Q ts → Q (t :: ts)) →
  (∀ t, P t) ∧ (∀ ts, Q ts).
Proof.
  intros Hnode Hnil Hcons.
  assert (∀ t, P t) as Htree.
  { fix IH 1. intros [e ts]. apply Hnode.
    induction ts as [|t ts IHts]; [apply Hnil|].
    apply Hcons; [apply IH|apply IHts]. }
  split; [done|]. induction ts; auto.
Qed.
End Lines.

(** ** Phase 3 and the recursion *)

Section Walk.
Context `{Qsort} (fs : filesystem).
Implicit Types s : state.

Lemma printf_bind {A} text (f : unit → M A) s :
  (printf text ≫= f) s = f () (set_stdout s (stdout s +:+ text)).
Proof. done. Qed.

Lemma all_succeed_split s s' used :
  alloc_plan s = used ++ alloc_plan s' → all_succeed s → all_succeed s'.
Proof.
  unfold all_succeed. intros ->. rewrite Forall_app. tauto.
Qed.

Lemma all_succeed_no_failure s s' used :
  alloc_plan s = used ++ false :: alloc_plan s' → ¬ all_succeed s.
Proof.
  unfold all_succeed. intros ->. rewrite Forall_app, Forall_cons. naive_solver.
Qed.

Lemma forallb_perm {A} (f : A → bool) (l k : list A) :
  l ≡ₚ k → forallb f l = forallb f k.
Proof.
  intros Hperm. induction Hperm as [|x l k _ IH|x y l|l k m _ IH1 _ IH2];
    simpl; [done|by rewrite IH| |congruence].
  by rewrite !andb_assoc, (andb_comm (f y)).
Qed.

Lemma is_nil_length {A B} (l : list A) (k : list B) :
  length l = length k → is_nil l = is_nil k.
Proof. by destruct l, k. Qed.

Lemma last_flags_S n : last_flags (S n) = bool_decide (n = 0) :: last_flags n.
Proof. by destruct n. Qed.

Lemma level_rows_cons e es b bs :
  level_rows (e :: es) (b :: bs) = (is_nil es, (e, b)) :: level_rows es bs.
Proof.
  unfold level_rows. cbn [length]. rewrite last_flags_S. by destruct es.
Qed.

Lemma loop_outcome_cons fuel path indent prefix e rest' s s2 o :
  NameCopy (name e) ∈ heap s →
  heap s2 = heap s → open_dirs s2 = open_dirs s →
  (∃ t, entry_of t = e ∧ subtree_ok (walked fs fuel) path t ∧
     (∀ ancestors, stdout s2 = stdout s +:+
        text_of (lines_of_tree ancestors prefix (is_nil rest') t)) ∧
     (all_succeed s → scan_entry (scan fs fuel) path e = Some t)) →
  (∃ err, stderr s2 = stderr s ++ err) →
  (all_succeed s → all_succeed s2) →
  loop_outcome fs fuel path indent prefix rest'
    (set_heap s2 (heap s2 ∖ {[+ NameCopy (name e) +]})) o →
  loop_outcome fs fuel path indent prefix (e :: rest') s o.
Proof.
  intros Hin Hheap Hopen (t & Ht & Hsub & Htext & Hscan) (err & Herr) Hall.
  destruct o as [[] s'| |]; simpl.
  - intros (Hh & Ho & (forest & Hroots & Hsubs & Htext' & Hscan')
            & (err' & Herr') & Hall').
    split; [rewrite names_cons; rewrite Hheap in Hh; multiset_solver|].
    split; [congruence|]. split.
    { exists (t :: forest). split; [by rewrite fmap_cons, Ht, Hroots|].
      split; [by constructor|]. split.
      - intros ancestors. simpl.
        assert (is_nil rest' = is_nil forest) as <-.
        { apply is_nil_length. by rewrite <- Hroots, length_fmap. }
        rewrite text_of_app, (Htext' ancestors), (Htext ancestors).
        by rewrite string_app_assoc.
      - intros Hs. by rewrite (Hscan Hs), (Hscan' (Hall Hs)). }
    split.
    { exists (err ++ err'). by rewrite Herr', Herr, <- (assoc_L (++)). }
    intros Hs. by apply Hall', Hall.
  - intros ->. apply andb_false_r.
  - intros ->. apply andb_false_r.
Qed.

(** The printing loop, given what the recursive calls do. *)
Lemma print_entries_spec fuel path indent prefix entries n :
  (∀ path indent prefix s,
      call_outcome fs fuel path indent prefix s
        (list_directory_recursive fs fuel path indent prefix s)) →
  ∀ rest i s,
    (0 ≤ i)%Z → (i + Z.of_nat (length rest) = n)%Z →
    (∀ k e, rest !! k = Some e →
            entries !! (Z.to_nat i + k) = Some (Some e)) →
    names rest ⊆ heap s →
    loop_outcome fs fuel path indent prefix rest s
      (print_entries (list_directory_recursive fs fuel)
         path indent prefix entries n i (length rest) s).
Proof.
  intros Hrec. induction rest as [|e rest' IH]; intros i s Hi Hn Hlook Hheap.
  - simpl. unfold mret, M_ret. split.
    { unfold names. simpl. multiset_solver. }
    split; [done|]. split.
    { exists []. split; [done|]. split; [constructor|]. split; [|done].
      intros ?. simpl. by rewrite string_app_nil_r. }
    split; [exists []; by rewrite (right_id_L [] (++))|done].
  - cbn [length] in Hn. simpl length. simpl print_entries.
    erewrite bind_ret; last first.
    { apply load_spec; [done|]. specialize (Hlook 0 e eq_refl).
      by rewrite Nat.add_0_r in Hlook. }
    assert ((i =? n - 1)%Z = is_nil rest') as Hlast.
    { destruct rest'; simpl in *; lia. }
    rewrite Hlast. set (last := is_nil rest').
    rewrite printf_bind.
    assert ((if (Z.b2z last =? 0)%Z then printf "├── " else printf "└── ")
            = printf (connector last)) as -> by (by destruct last).
    rewrite printf_bind, printf_bind. simpl stdout.
    set (s1 := set_stdout _ _).
    assert (stdout s1 = stdout s +:+ prefix +:+ connector last +:+ name e +:+ LF)
      as Hline.
    { unfold s1. simpl. by rewrite !string_app_assoc. }
    assert (heap s1 = heap s ∧ stderr s1 = stderr s ∧
            open_dirs s1 = open_dirs s ∧ alloc_plan s1 = alloc_plan s)
      as (Hheap1 & Herr1 & Hopen1 & Hplan1) by done.
    clearbody s1.
    assert (all_succeed s → all_succeed s1) as Hall1.
    { unfold all_succeed. by rewrite Hplan1. }
    assert (NameCopy (name e) ∈ heap s) as Hin.
    { rewrite names_cons in Hheap. multiset_solver. }
    assert (∀ s2, heap s2 = heap s →
              loop_outcome fs fuel path indent prefix rest'
                (set_heap s2 (heap s2 ∖ {[+ NameCopy (name e) +]}))
                ((free (NameCopy (name e)) ≫= λ _,
                  print_entries (list_directory_recursive fs fuel)
                    path indent prefix entries n (i + 1)%Z (length rest')) s2))
      as Hrest.
    { intros s2 Hh2.
      rewrite (bind_ret _ _ s2 () _ (free_spec _ _ ltac:(by rewrite Hh2))).
      apply IH; simpl.
      - lia.
      - lia.
      - intros k e' Hk. specialize (Hlook (S k) e' Hk).
        rewrite <- Hlook. f_equal. lia.
      - rewrite Hh2. rewrite names_cons in Hheap. multiset_solver. }
    destruct (Z.eqb_spec (is_dir e) 0) as [Hfile|Hdir].
    + rewrite mret_bind.
      eapply (loop_outcome_cons _ _ _ _ _ _ s s1); try done.
      * exists (Node e []). split; [done|]. split.
        { unfold subtree_ok. simpl. by rewrite (proj2 (Z.eqb_eq _ _) Hfile). }
        split.
        -- intros ancestors. rewrite lines_of_tree_Node. simpl text_of.
           unfold line_text. simpl. by rewrite Hline, !string_app_assoc.
        -- intros _. unfold scan_entry.
           by rewrite (proj2 (Z.eqb_eq _ _) Hfile).
      * exists []. by rewrite (right_id_L [] (++)).
      * by apply Hrest.
    + rewrite bind_assoc. unfold int_range. case_decide as Hint.
      2:{ simpl. unfold entry_bounded.
          rewrite (proj2 (Z.eqb_neq _ _) Hdir). simpl.
          destruct (Z.leb_spec (- INT_MAX - 1) (indent + 1)),
                   (Z.leb_spec (indent + 1) INT_MAX); simpl; try done. lia. }
      rewrite mret_bind.
      pose proof (Hrec (full_path_of path (name e)) (indent + 1)%Z
                    (new_prefix_of prefix (Z.b2z last)) s1) as Hcall.
      unfold mbind at 1, M_bind at 1.
      destruct (list_directory_recursive fs fuel _ _ _ s1) as [[] s2| |];
        simpl in Hcall.
      * destruct Hcall as (Hh2 & Ho2 & (forest & Hwalked & Htext & _ & Hscan)
                           & (err & Herr) & Hall).
        eapply (loop_outcome_cons _ _ _ _ _ _ s s2); try congruence.
        -- exists (Node e forest). split; [done|]. split.
           { unfold subtree_ok. simpl.
             by rewrite (proj2 (Z.eqb_neq _ _) Hdir). }
           split.
           ++ intros ancestors. rewrite lines_of_tree_Node. simpl text_of.
              unfold line_text. simpl.
              rewrite (Htext (ancestors ++ [last])), Hline.
              by rewrite !string_app_assoc.
           ++ intros Hs. unfold scan_entry.
              by rewrite (proj2 (Z.eqb_neq _ _) Hdir), (Hscan (Hall1 Hs)).
        -- exists err. congruence.
        -- intros Hs. by apply Hall, Hall1.
        -- apply Hrest. congruence.
      * simpl. unfold entry_bounded. rewrite Hcall.
        by rewrite (proj2 (Z.eqb_neq _ _) Hdir), andb_false_r.
      * simpl. unfold entry_bounded. rewrite Hcall.
        by rewrite (proj2 (Z.eqb_neq _ _) Hdir), andb_false_r.
Qed.

(** [list_directory_recursive], for every amount of fuel. *)
Lemma list_directory_recursive_spec fuel :
  ∀ path indent prefix s,
    call_outcome fs fuel path indent prefix s
      (list_directory_recursive fs fuel path indent prefix s).
Proof.
  induction fuel as [|fuel IH]; intros path indent prefix s; [done|].
  simpl list_directory_recursive. unfold opendir.
  unfold mbind at 1, M_bind at 1.
  destruct (fs_opendir fs path) as [dir|] eqn:Hopendir.
  2:{ simpl. rewrite Hopendir. split; [done|]. split; [done|]. split.
      { exists []. split; [by left|]. split; [|split; [left; auto|done]].
        intros ?. simpl. by rewrite string_app_nil_r. }
      split; [by eexists|]. done. }
  set (s0 := set_open_dirs s (S (open_dirs s))).
  pose proof (read_directory_spec fs path dir s0 ltac:(simpl; lia)) as Hread.
  unfold mbind at 1, M_bind at 1.
  destruct (read_directory fs path dir s0) as [[[entries n]|] s1| |];
    simpl in Hread.
  - destruct Hread as ((cap & k & Hinv & _) & Hout1 & Herr1 & Hheap1 & Hopen1
                       & (used & Hplan1 & Hused)).
    rewrite (bind_ret _ _ _ _ _ (sort_entries_spec _ _ _ _ _ Hinv)).
    set (sorted := qsort (listed fs path dir) compareDirEntries).
    assert (sorted ≡ₚ listed fs path dir) as Hperm by apply qsort_Permutation.
    set (arr := (Some <$> sorted) ++ drop (Z.to_nat n) entries).
    assert (∀ j e, sorted !! j = Some e →
                   arr !! (Z.to_nat 0 + j) = Some (Some e)) as Harr.
    { intros j e Hj. by eapply sorted_lookup. }
    clearbody arr.
    assert (Z.to_nat n = length sorted) as ->.
    { rewrite Hperm. symmetry. by eapply array_inv_length. }
    pose proof (print_entries_spec fuel path indent prefix arr n
                  IH sorted 0%Z s1) as Hloop.
    unfold mbind at 1, M_bind at 1.
    destruct (print_entries _ _ _ _ _ _ _ _ s1) as [[] s2| |]; simpl.
    + destruct Hloop as (Hheap2 & Hopen2 & (forest & Hroots & Hsubs & Htext & Hscan)
                         & (err & Herr2) & Hall).
      { done. }
      { apply array_inv_count in Hinv. rewrite Hperm. lia. }
      { done. }
      { rewrite (names_perm _ _ Hperm), Hheap1. multiset_solver. }
      rewrite (names_perm _ _ Hperm), Hheap1 in Hheap2.
      rewrite free_spec by multiset_solver. simpl.
      split; [multiset_solver|]. split; [simpl in *; lia|].
      assert (all_succeed s → all_succeed s1) as Hall1.
      { intros Hs. by eapply all_succeed_split. }
      split.
      { exists forest. split; [right; by exists dir|].
        split; [intros ancestors; by rewrite (Htext ancestors), Hout1|].
        split; [right; by exists dir|].
        intros Hs. rewrite Hopendir. by apply Hscan, Hall1. }
      split.
      { eexists. rewrite Herr2, Herr1, <- (assoc_L (++)). done. }
      intros Hs. split; [by apply Hall, Hall1|].
      intros dir' Hdir'. rewrite Hopendir in Hdir'. injection Hdir' as <-.
      exists err. by rewrite Herr2, Herr1, <- (assoc_L (++)).
    + rewrite Hopendir, <- (forallb_perm _ _ _ Hperm), Hloop; try done.
      * apply andb_false_r.
      * apply array_inv_count in Hinv. rewrite Hperm. lia.
      * rewrite (names_perm _ _ Hperm), Hheap1. multiset_solver.
    + rewrite Hopendir, <- (forallb_perm _ _ _ Hperm), Hloop; try done.
      * apply andb_false_r.
      * apply array_inv_count in Hinv. rewrite Hperm. lia.
      * rewrite (names_perm _ _ Hperm), Hheap1. multiset_solver.
  - destruct Hread as (Hout1 & Hheap1 & Hopen1 & (used & Hplan1 & Hused)
                       & (w & msg & _ & Herr1)).
    assert (¬ all_succeed s) as Hfailed by (by eapply all_succeed_no_failure).
    unfold mret, M_ret. simpl.
    split; [done|]. split; [simpl in *; lia|]. split.
    { exists []. split; [by left|]. split; [|split; [left; auto|done]].
      intros ?. simpl. by rewrite Hout1, string_app_nil_r. }
    split; [by eexists|]. done.
  - simpl. rewrite Hopendir.
    destruct (Z.leb_spec (2 * Z.of_nat (length (listed fs path dir))) INT_MAX);
      [lia|done].
  - done.
Qed.
End Walk.


(** ** The scenarios of the specification *)

Example scenario_A_output :
  main scenario_A 2 ["ntree"] initial_state =
  Ret 0%Z (mkState
    ("." +:+ LF +:+
     "├── a" +:+ LF +:+
     "└── b.txt" +:+ LF) [] ∅ [] 0).
Proof. vm_compute. reflexivity. Qed.

Example scenario_B_output :
  main scenario_B 2 ["ntree"; "."] initial_state =
  Ret 0%Z (mkState
    ("." +:+ LF +:+
     "├── dir1" +:+ LF +:+
     "│   └── file1.txt" +:+ LF +:+
     "└── file2.txt" +:+ LF) [] ∅ [] 0).
Proof. vm_compute. reflexivity. Qed.

Example scenario_C_output :
  main scenario_C 2 ["ntree"] initial_state =
  Ret 0%Z (mkState
    ("." +:+ LF +:+
     "├── secret" +:+ LF +:+
     "├── z" +:+ LF +:+
     "│   └── f" +:+ LF +:+
     "└── a.txt" +:+ LF)
    [Perror "Error getting file status";
     Fprintf ("Error: Cannot open directory './secret'" +:+ LF)]
    ∅ [] 0).
Proof. vm_compute. reflexivity. Qed.

(** ** The lines of one directory *)

Section Level.



Lemma below_texts_length ancestors prefix ts :
  length (below_texts ancestors prefix ts) = length ts.
Proof. induction ts; simpl; congruence. Qed.

(** The lines of a forest, level by level. *)
Lemma lines_level ancestors prefix ts :
  text_of (lines_of_forest ancestors prefix ts)
  = level_text prefix
      (level_rows (entry_of <$> ts) (below_texts ancestors prefix ts)).
Proof.
  induction ts as [|[e children] ts IH]; [done|].
  cbn [lines_of_forest below_texts fmap list_fmap].
  rewrite level_rows_cons. cbn [level_text].
  rewrite text_of_app, lines_of_tree_Node, IH. cbn [text_of].
  unfold line_text. simpl.
  assert (is_nil (entry_of <$> ts) = is_nil ts) as ->.
  { apply is_nil_length. by rewrite length_fmap. }
  by rewrite !string_app_assoc.
Qed.
End Level.

(** ** The sort of a listing *)

Section SortedListing.
Context `{Qsort}.

(** What the sort gives: a rearrangement in which no file comes before a
    directory and the names of two entries of the same kind are in the order
    of [strcmp]. *)
Lemma sorted_listing_order (es : list DirEntry) i j a b :
  i < j →
  qsort es compareDirEntries !! i = Some a →
  qsort es compareDirEntries !! j = Some b →
  (is_dir a = 0%Z → is_dir b = 0%Z) ∧
  ((is_dir a = 0%Z ↔ is_dir b = 0%Z) →
   (strcmp (name a) (name b) ≤ 0)%Z ∧
   (no_nul (name a) = true → no_nul (name b) = true →
    String.le (name a) (name b))).
Proof.
  intros Hij Hi Hj.
  pose proof (sorted_entries_lookup es i j a b Hij Hi Hj) as Hle.
  split.
  - intros Ha. destruct (decide (is_dir b = 0%Z)) as [|Hb]; [done|].
    rewrite compareDirEntries_file_dir in Hle by done. lia.
  - intros Hkind. rewrite compareDirEntries_same_kind in Hle by done.
    split; [done|]. intros. by apply strcmp_le.
Qed.
End SortedListing.

(** C1. Phase 2 of a listing, the call of [qsort] with
    [compareDirEntries], rearranges the entries that phase 1 stored so that
    every directory comes before every file and two entries of the same
    kind are in the byte-wise lexicographic order of their names; the slots
    after them are left alone.  So the lines that a call prints for its
    directory are in that order.  The comparison function decides a
    difference of kind before it looks at the names, and the order of the
    names is the order of their bytes: an upper-case letter comes before a
    lower-case one and "10" before "9". *)
Theorem sort_directories_first_then_names `{Qsort} (fs : filesystem) :
  (∀ (entries : list slot) (num_entries capacity : Z) (es : list DirEntry)
     (s : state),
     array_inv entries num_entries capacity es →
     ∃ sorted,
       sort_entries entries num_entries s
       = Ret ((Some <$> sorted) ++ drop (Z.to_nat num_entries) entries) s ∧
       sorted ≡ₚ es ∧
       ∀ i j a b,
         i < j → sorted !! i = Some a → sorted !! j = Some b →
         (is_dir a = 0%Z → is_dir b = 0%Z) ∧
         ((is_dir a = 0%Z ↔ is_dir b = 0%Z) →
          (strcmp (name a) (name b) ≤ 0)%Z ∧
          (no_nul (name a) = true → no_nul (name b) = true →
           String.le (name a) (name b)))) ∧
  (∀ (fuel : nat) (path : string) (indent_level : Z) (prefix : string)
     (s s' : state),
     list_directory_recursive fs fuel path indent_level prefix s = Ret () s' →
     ∃ (es : list DirEntry) (below : list string),
       length below = length es ∧
       stdout s' = stdout s +:+ level_text prefix (level_rows es below) ∧
       (es = [] ∨
        ∃ dir, fs_opendir fs path = Some dir ∧ es ≡ₚ listed fs path dir) ∧
       ∀ i j a b,
         i < j → es !! i = Some a → es !! j = Some b →
         (is_dir a = 0%Z → is_dir b = 0%Z) ∧
         ((is_dir a = 0%Z ↔ is_dir b = 0%Z) →
          (strcmp (name a) (name b) ≤ 0)%Z ∧
          (no_nul (name a) = true → no_nul (name b) = true →
           String.le (name a) (name b)))) ∧
  (∀ a b, is_dir a ≠ 0%Z → is_dir b = 0%Z →
          compareDirEntries a b = (-1)%Z ∧ compareDirEntries b a = 1%Z) ∧
  (∀ a b, (is_dir a = 0%Z ↔ is_dir b = 0%Z) →
          compareDirEntries a b = strcmp (name a) (name b)) ∧
  (compareDirEntries (mkDirEntry "B" 0) (mkDirEntry "a" 0) < 0)%Z ∧
  (compareDirEntries (mkDirEntry "10" 0) (mkDirEntry "9" 0) < 0)%Z.
Proof.
  split; [|split; [|split; [|split]]].
  - intros entries num_entries capacity es s Hinv.
    exists (qsort es compareDirEntries).
    split; [by eapply sort_entries_spec|].
    split; [apply qsort_Permutation|]. apply sorted_listing_order.
  - intros fuel path indent_level prefix s s' Hrun.
    pose proof (list_directory_recursive_spec fs fuel path indent_level
                  prefix s) as Hspec.
    rewrite Hrun in Hspec.
    destruct Hspec as (_ & _ & (forest & _ & Htext & Hroots & _) & _).
    exists (entry_of <$> forest), (below_texts [] prefix forest).
    split; [by rewrite below_texts_length, length_fmap|].
    split; [by rewrite (Htext []), lines_level|].
    destruct Hroots as [[-> _]|(dir & Hopendir & ->)].
    + split; [by left|]. intros i j a b _ Hi. done.
    + split; [right; exists dir; split; [done|apply qsort_Permutation]|].
      apply sorted_listing_order.
  - intros a b Ha Hb.
    by rewrite compareDirEntries_dir_file, compareDirEntries_file_dir.
  - intros a b. apply compareDirEntries_same_kind.
  - by vm_compute.
Qed.

Lemma sort_directories_first_then_names_witness :
  ∃ sorted,
    sort_entries [Some (mkDirEntry "file2.txt" 0); Some (mkDirEntry "dir1" 1);
                  None] 2%Z initial_state
    = Ret ((Some <$> sorted) ++ [None]) initial_state ∧
    sorted ≡ₚ [mkDirEntry "file2.txt" 0; mkDirEntry "dir1" 1].
Proof.
  destruct (proj1 (sort_directories_first_then_names scenario_B)
              [Some (mkDirEntry "file2.txt" 0); Some (mkDirEntry "dir1" 1);
               None] 2%Z 3%Z
              [mkDirEntry "file2.txt" 0; mkDirEntry "dir1" 1] initial_state)
    as (sorted & Hrun & Hperm & _).
  { split; [reflexivity|]. split; [lia|]. split; [lia|reflexivity]. }
  exists sorted. split; [exact Hrun|exact Hperm].
Defined.



(** ** The lister *)

Section Lister.
Context `{Qsort} (fs : filesystem).




End Lister.

(** ** The first allocation that fails *)

Section FirstFailure.
Context `{Qsort} (fs : filesystem).
Implicit Types (s : state) (used rest : list bool).

(** The allocator under a plan. *)
Lemma next_alloc_planned s ok plan :
  alloc_plan s = ok :: plan → next_alloc s = Ret ok (set_alloc_plan s plan).
Proof. intros Hplan. unfold next_alloc. by rewrite Hplan. Qed.

Lemma first_failure_unique used rest used' rest' :
  used ++ false :: rest = used' ++ false :: rest' →
  Forall (λ ok, ok = true) used → Forall (λ ok, ok = true) used' →
  used = used' ∧ rest = rest'.
Proof.
  intros Heq Hused. revert used' Heq.
  induction Hused as [|ok used -> _ IH]; intros used' Heq Hused'.
  - destruct Hused' as [|ok used' -> _]; simplify_eq/=. done.
  - destruct Hused' as [|ok used' -> Hused']; simplify_eq/=.
    destruct (IH used') as [-> ->]; done.
Qed.

(** A reading loop that completes has been granted all the allocations it
    asked for. *)
Lemma read_entries_granted path dir :
  ∀ entries n cap s r s' used rest,
    read_entries fs path dir entries n cap s = Ret (Some r) s' →
    alloc_plan s = used ++ false :: rest →
    Forall (λ ok, ok = true) used →
    loop_allocations n cap (length (listed fs path dir)) ≤ length used.
Proof.
  induction dir as [|d dir' IH]; intros entries n cap s r s' used rest Hrun
    Hplan Hused; [simpl; lia|].
  simpl read_entries in Hrun. fold (is_dot d) in Hrun. cbn [listed].
  destruct (is_dot d); [by eapply IH|].
  destruct (fs_stat fs (full_path_of path d)) as [st_mode|].
  2:{ apply bind_inv in Hrun as ([] & s1 & Hperror & Hrun).
      injection Hperror as <-. by eapply IH. }
  cbn [length loop_allocations].
  apply bind_inv in Hrun as (grown & s1 & Hgrow & Hrun).
  destruct grown as [[entries1 cap1]|]; [|done].
  assert (∃ used1,
            alloc_plan s1 = used1 ++ false :: rest ∧
            Forall (λ ok, ok = true) used1 ∧
            (if (n >=? cap)%Z
             then cap1 = (cap * 2)%Z ∧ length used = S (length used1)
             else cap1 = cap ∧ used1 = used)) as (used1 & Hplan1 & Hused1 & Hcap).
  { destruct (n >=? cap)%Z.
    - apply bind_inv in Hgrow as (cap' & s2 & Hint & Hgrow).
      unfold int_range in Hint. case_decide; [|done]. injection Hint as <- <-.
      apply bind_inv in Hgrow as (ok & s3 & Halloc & Hgrow).
      unfold realloc in Halloc.
      destruct Hused as [|ok' used1 -> Hused1];
        rewrite (next_alloc_planned s _ _ Hplan) in Halloc;
        injection Halloc as <- <-.
      + by apply bind_inv in Hgrow as ([] & ? & _ & ?).
      + injection Hgrow as <- <- <-. by exists used1.
    - injection Hgrow as <- <- <-. by exists used. }
  apply bind_inv in Hrun as (ok & s2 & Hdup & Hrun).
  unfold malloc in Hdup.
  apply bind_inv in Hrun as ([] & s3 & Hbounds & Hrun).
  unfold in_bounds in Hbounds. case_decide; [|done]. injection Hbounds as <-.
  destruct Hused1 as [|ok' used2 -> Hused2];
    rewrite (bind_ret _ _ _ _ _ (next_alloc_planned s1 _ _ Hplan1)) in Hdup;
    injection Hdup as <- <-.
  { by apply bind_inv in Hrun as ([] & ? & _ & ?). }
  apply (IH _ _ _ _ _ _ used2 rest) in Hrun; [|done..].
  revert Hcap Hrun. destruct (n >=? cap)%Z; intros [-> Hlen] Hrun;
    simpl in *; subst; simpl; lia.
Qed.


Lemma read_directory_granted path dir s r s1 used rest :
  read_directory fs path dir s = Ret (Some r) s1 →
  alloc_plan s = used ++ false :: rest →
  Forall (λ ok, ok = true) used →
  directory_allocations (length (listed fs path dir)) ≤ length used.
Proof.
  intros Hrun Hplan Hused. unfold read_directory, malloc in Hrun.
  rewrite bind_assoc in Hrun.
  destruct Hused as [|ok used1 -> Hused1];
    rewrite (bind_ret _ _ _ _ _ (next_alloc_planned s _ _ Hplan)) in Hrun.
  { rewrite mret_bind in Hrun.
    apply bind_inv in Hrun as ([] & ? & _ & ([] & ? & _ & Hret)%bind_inv).
    unfold mret, M_ret in Hret. done. }
  rewrite bind_assoc in Hrun.
  apply bind_inv in Hrun as ([] & s2 & Hown & Hrun).
  injection Hown as <-. rewrite mret_bind in Hrun.
  apply bind_inv in Hrun as (r' & s3 & Hloop & Hrun).
  destruct r' as [[entries' n']|]; [|done].
  eapply (read_entries_granted _ _ _ _ _ _ _ _ used1 rest) in Hloop;
    [|done..].
  unfold directory_allocations. simpl. lia.
Qed.


(** The first failure of the plan falls within the allocations of phase 1:
    the directory is given up. *)
Lemma read_directory_first_failure path dir s used rest :
  0 < open_dirs s →
  alloc_plan s = used ++ false :: rest →
  Forall (λ ok, ok = true) used →
  length used < directory_allocations (length (listed fs path dir)) →
  (2 * Z.of_nat (length (listed fs path dir)) ≤ INT_MAX)%Z →
  ∃ s1, read_directory fs path dir s = Ret None s1 ∧ alloc_plan s1 = rest.
Proof.
  intros Hopen Hplan Hused Hfirst Hsize.
  pose proof (read_directory_spec fs path dir s Hopen) as Hspec.
  destruct (read_directory fs path dir s) as [[[entries n]|] s1| |] eqn:Hrun;
    simpl in Hspec; [| |lia|done].
  - pose proof (read_directory_granted _ _ _ _ _ _ _ Hrun Hplan Hused). lia.
  - exists s1. split; [done|].
    destruct Hspec as (_ & _ & _ & (used' & Hplan' & Hused') & _).
    rewrite Hplan in Hplan'.
    by destruct (first_failure_unique _ _ _ _ Hplan' Hused Hused') as [_ ->].
Qed.

End FirstFailure.




(** C7. When the directory of a call cannot be opened, the call reports the
    error on the error stream, prints nothing and returns: the state is
    otherwise as it was, so for the caller the directory is one without
    entries, and the caller goes on with the next sibling. *)
Theorem unopened_directory_is_reported_and_empty `{Qsort} (fs : filesystem)
    (fuel : nat) (path : string) (indent_level : Z) (prefix : string)
    (s : state) :
  fs_opendir fs path = None →
  list_directory_recursive fs (S fuel) path indent_level prefix s
  = Ret () (mkState (stdout s)
              (stderr s ++ [Fprintf ("Error: Cannot open directory '"
                                       +:+ path +:+ "'" +:+ LF)])
              (heap s) (alloc_plan s) (open_dirs s)) ∧
  scan fs (S fuel) path = Some [].
Proof.
  intros Hopendir. simpl. unfold opendir, mbind, M_bind.
  by rewrite Hopendir.
Qed.

Lemma unopened_directory_is_reported_and_empty_witness :
  fs_opendir scenario_C "./secret" = None ∧
  list_directory_recursive scenario_C 1 "./secret" 1 "│   " initial_state
  = Ret () (mkState "" [Fprintf ("Error: Cannot open directory './secret'" +:+ LF)]
              ∅ [] 0) ∧
  scan scenario_C 1 "./secret" = Some [].
Proof.
  split; [reflexivity|].
  apply (unopened_directory_is_reported_and_empty scenario_C 0 "./secret" 1
           "│   " initial_state).
  reflexivity.
Defined.


(** ** Paths and prefixes *)

Section Truncation.
Implicit Types path prefix : string.

Lemma PATH_MAX_pos : 0 < PATH_MAX.
Proof. unfold PATH_MAX. lia. Qed.


Lemma indent_unit_utf8 is_last : utf8_length (indent_unit is_last) = 4.
Proof. by destruct is_last. Qed.

Lemma indent_unit_length is_last : String.length (indent_unit is_last) ≤ 6.
Proof. destruct is_last; simpl; lia. Qed.

Lemma new_prefix_of_unit prefix (is_last : bool) :
  new_prefix_of prefix (Z.b2z is_last)
  = take_bytes (PATH_MAX - 1) (prefix +:+ indent_unit is_last).
Proof. by destruct is_last. Qed.

Lemma indent_of_app ancestors is_last :
  indent_of (ancestors ++ [is_last])
  = indent_of ancestors +:+ indent_unit is_last.
Proof.
  induction ancestors as [|a ancestors IH]; simpl.
  - by rewrite string_app_nil_r.
  - by rewrite IH, string_app_assoc.
Qed.

Lemma indent_of_utf8 ancestors :
  utf8_length (indent_of ancestors) = 4 * length ancestors.
Proof.
  induction ancestors as [|a ancestors IH]; simpl; [done|].
  rewrite utf8_length_app, indent_unit_utf8, IH. lia.
Qed.

Lemma indent_of_length ancestors :
  String.length (indent_of ancestors) ≤ 6 * length ancestors.
Proof.
  induction ancestors as [|a ancestors IH]; simpl; [done|].
  rewrite string_length_app. pose proof (indent_unit_length a). lia.
Qed.

(** The prefix of every line is what fits a buffer of the indentation that
    its ancestors ask for, after the prefix [prefix0] of the outermost
    call. *)
Lemma lines_prefix prefix0 :
  (∀ t ancestors prefix is_last l,
      prefix = take_bytes (PATH_MAX - 1) (prefix0 +:+ indent_of ancestors) →
      l ∈ lines_of_tree ancestors prefix is_last t →
      line_prefix l
      = take_bytes (PATH_MAX - 1) (prefix0 +:+ indent_of (line_ancestors l))) ∧
  (∀ ts ancestors prefix l,
      prefix = take_bytes (PATH_MAX - 1) (prefix0 +:+ indent_of ancestors) →
      l ∈ lines_of_forest ancestors prefix ts →
      line_prefix l
      = take_bytes (PATH_MAX - 1) (prefix0 +:+ indent_of (line_ancestors l))).
Proof.
  apply tree_forest_ind.
  - intros e ts IH ancestors prefix is_last l Hprefix.
    rewrite lines_of_tree_Node. intros [->|Hl]%elem_of_cons; [done|].
    eapply IH; [|done].
    rewrite new_prefix_of_unit, Hprefix, take_bytes_app_take.
    by rewrite indent_of_app, string_app_assoc.
  - intros ancestors prefix l _ ?%elem_of_nil. done.
  - intros t ts IHt IHts ancestors prefix l Hprefix. simpl.
    intros [Hl|Hl]%elem_of_app; [by eapply IHt|by eapply IHts].
Qed.
End Truncation.

(** ** The tree that is walked *)

Section Tree.
Context `{Qsort} (fs : filesystem).




Lemma lines_names :
  (∀ t ancestors prefix is_last,
      line_name <$> lines_of_tree ancestors prefix is_last t
      = name <$> preorder t) ∧
  (∀ ts ancestors prefix,
      line_name <$> lines_of_forest ancestors prefix ts
      = name <$> preorder_forest ts).
Proof.
  apply tree_forest_ind.
  - intros e ts IH ancestors prefix is_last.
    rewrite lines_of_tree_Node. simpl. f_equal. apply IH.
  - done.
  - intros t ts IHt IHts ancestors prefix. simpl.
    unfold preorder_forest in *. simpl.
    by rewrite !fmap_app, IHt, IHts.
Qed.


(** A walk that is bounded returns. *)
Lemma bounded_returns fuel path indent_level prefix s :
  bounded fs fuel path indent_level = true →
  ∃ s', list_directory_recursive fs fuel path indent_level prefix s = Ret () s'.
Proof.
  intros Hbounded.
  pose proof (list_directory_recursive_spec fs fuel path indent_level prefix s)
    as Hspec.
  destruct (list_directory_recursive fs fuel path indent_level prefix s)
    as [[] s'| |]; [by exists s'|simpl in Hspec; congruence..].
Qed.
End Tree.

(** The prefix of a call is kept in a buffer of [PATH_MAX] bytes.  Under
    last siblings the prefix at depth 1023 is 4092 spaces; one more unit does
    not fit, and the prefix at depth 1024 has 4095 characters, not 4096.  The
    path of a directory at that depth can be as short as 2049 bytes. *)
Lemma prefix_buffer_is_full_at_depth_1024 :
  String.length (path_at_depth 1024) = 2049 ∧
  path_at_depth 1024 = path_at_depth 1023 +:+ "/a" ∧
  String.length (prefix_at_depth 1023) = 4 * 1023 ∧
  prefix_at_depth 1024 = new_prefix_of (prefix_at_depth 1023) 1 ∧
  new_prefix_of (prefix_at_depth 1023) 1 ≠ prefix_at_depth 1023 +:+ "    " ∧
  utf8_length (prefix_at_depth 1024) = 4095 ∧
  utf8_length (prefix_at_depth 1024) ≠ 4 * 1024.
Proof.
  assert (utf8_length (prefix_at_depth 1024) = 4095) as Hlen
    by (vm_compute; reflexivity).
  split; [vm_compute; reflexivity|]. split; [vm_compute; reflexivity|].
  split; [vm_compute; reflexivity|]. split; [vm_compute; reflexivity|].
  split; [|split; [exact Hlen|rewrite Hlen; lia]].
  intros Heq.
  assert (Nat.eqb (String.length (new_prefix_of (prefix_at_depth 1023) 1))
            (String.length (prefix_at_depth 1023 +:+ "    ")) = false) as Hne
    by (vm_compute; reflexivity).
  rewrite Heq, Nat.eqb_refl in Hne. discriminate.
Qed.

(** The last line of the tree of 1025 nested directories: it has 1024
    ancestors and a prefix of 4095 characters. *)
Lemma deep_chain_last_line :
  (λ l, (length (line_ancestors l), utf8_length (line_prefix l)))
  <$> (scan (chain_fs 1025) 1027 "." ≫= λ forest,
       last (lines_of_forest [] "" forest))
  = Some (1024, 4095).
Proof. vm_compute. reflexivity. Qed.

(** C3, as the claim states it, fails.  Listing a chain of 1025 nested
    directories returns, and the line of the innermost directory, at depth
    1024, is printed with a prefix of 4095 characters, not of 4 * 1024. *)
Lemma prefix_is_capped_in_a_deep_chain :
  ∃ s' forest l,
    list_directory_recursive (chain_fs 1025) 1027 "." 0 "" initial_state
    = Ret () s' ∧
    scan (chain_fs 1025) 1027 "." = Some forest ∧
    stdout s' = text_of (lines_of_forest [] "" forest) ∧
    last (lines_of_forest [] "" forest) = Some l ∧
    length (line_ancestors l) = 1024 ∧
    utf8_length (line_prefix l) = 4095 ∧
    utf8_length (line_prefix l) ≠ 4 * 1024.
Proof.
  destruct (bounded_returns (chain_fs 1025) 1027 "." 0 "" initial_state)
    as (s' & Hrun); [vm_compute; reflexivity|].
  pose proof (list_directory_recursive_spec (chain_fs 1025) 1027 "." 0 ""
                initial_state) as Hspec.
  rewrite Hrun in Hspec.
  destruct Hspec as (_ & _ & (forest & _ & Htext & _ & Hscan) & _).
  specialize (Hscan (Forall_nil_2 _)).
  pose proof deep_chain_last_line as Hlast.
  rewrite Hscan in Hlast. simpl in Hlast.
  destruct (last (lines_of_forest [] "" forest)) as [l|] eqn:Hl; [|done].
  injection Hlast as Hdepth Hlen.
  exists s', forest, l. split; [done|]. split; [done|].
  split; [apply Htext|]. split; [done|]. split; [done|]. split; [done|].
  rewrite Hlen. lia.
Qed.

(** C3, amended.  The prefix passed to the recursive call is the prefix of
    the parent extended by one unit of four characters (["    "] below a
    last sibling, ["│   "] otherwise) and cut to [PATH_MAX - 1] bytes.  So
    the prefix of a line at depth [d] is the first [PATH_MAX - 1] bytes of
    the [d] units of its ancestors: it has exactly [4 * d] characters as long
    as these units take fewer than [PATH_MAX] bytes, which is so whenever
    [6 * d < PATH_MAX], and it never has more than [PATH_MAX - 1] bytes. *)
Theorem prefix_grows_by_one_unit_up_to_the_buffer `{Qsort} (fs : filesystem)
    (fuel : nat) (path : string) (indent_level : Z) (s s' : state) :
  list_directory_recursive fs fuel path indent_level "" s = Ret () s' →
  (∀ prefix (is_last : bool),
     new_prefix_of prefix (Z.b2z is_last)
     = take_bytes (PATH_MAX - 1) (prefix +:+ indent_unit is_last) ∧
     utf8_length (indent_unit is_last) = 4 ∧
     (String.length prefix + String.length (indent_unit is_last) < PATH_MAX →
      new_prefix_of prefix (Z.b2z is_last) = prefix +:+ indent_unit is_last)) ∧
  ∃ forest,
    walked fs fuel path forest ∧
    stdout s' = stdout s +:+ text_of (lines_of_forest [] "" forest) ∧
    ∀ l, l ∈ lines_of_forest [] "" forest →
      line_prefix l
      = take_bytes (PATH_MAX - 1) (indent_of (line_ancestors l)) ∧
      String.length (line_prefix l) < PATH_MAX ∧
      (String.length (indent_of (line_ancestors l)) < PATH_MAX →
       line_prefix l = indent_of (line_ancestors l) ∧
       utf8_length (line_prefix l) = 4 * length (line_ancestors l)) ∧
      (6 * length (line_ancestors l) < PATH_MAX →
       utf8_length (line_prefix l) = 4 * length (line_ancestors l)).
Proof.
  intros Hrun. split.
  { intros prefix is_last. split; [apply new_prefix_of_unit|].
    split; [apply indent_unit_utf8|].
    intros Hfits. rewrite new_prefix_of_unit. apply take_bytes_all.
    rewrite string_length_app. lia. }
  pose proof (list_directory_recursive_spec fs fuel path indent_level "" s)
    as Hspec.
  rewrite Hrun in Hspec.
  destruct Hspec as (_ & _ & (forest & Hwalked & Htext & _) & _).
  exists forest. split; [done|]. split; [apply Htext|].
  intros l Hl.
  assert (line_prefix l
          = take_bytes (PATH_MAX - 1) (indent_of (line_ancestors l))) as Hprefix.
  { by apply (proj2 (lines_prefix "") forest [] ""). }
  split; [done|].
  assert (∀ text, String.length text < PATH_MAX →
                  take_bytes (PATH_MAX - 1) text = text) as Hfit.
  { intros text ?. apply take_bytes_all. lia. }
  split; [|split].
  - rewrite Hprefix, take_bytes_length. pose proof PATH_MAX_pos. lia.
  - intros Hlen. rewrite Hprefix, Hfit by done.
    split; [done|apply indent_of_utf8].
  - intros Hdepth. rewrite Hprefix, Hfit; [apply indent_of_utf8|].
    pose proof (indent_of_length (line_ancestors l)). lia.
Qed.

Lemma prefix_grows_by_one_unit_up_to_the_buffer_witness :
  ∃ s' forest,
    list_directory_recursive scenario_B 2 "." 0 "" initial_state = Ret () s' ∧
    stdout s' = text_of (lines_of_forest [] "" forest) ∧
    ∀ l, l ∈ lines_of_forest [] "" forest →
         line_prefix l = take_bytes 4095 (indent_of (line_ancestors l)).
Proof.
  assert (list_directory_recursive scenario_B 2 "." 0 "" initial_state
          = Ret () (set_stdout initial_state
                      ("├── dir1" +:+ LF +:+ "│   └── file1.txt" +:+ LF
                       +:+ "└── file2.txt" +:+ LF))) as Hrun
    by (vm_compute; reflexivity).
  destruct (prefix_grows_by_one_unit_up_to_the_buffer scenario_B 2 "." 0
              initial_state _ Hrun)
    as (_ & forest & _ & Hout & Hlines).
  eexists _, forest. split; [exact Hrun|]. split; [exact Hout|].
  intros l Hl. exact (proj1 (Hlines l Hl)).
Defined.




(** C4. The output of a call is the pre-order traversal of the forest that
    it walks: the roots are the entries of the directory in the order of the
    sorter, below a directory is the forest walked from that directory, and
    the lines are those of the trees from first to last, each tree giving
    the line of its root and then the lines of its subtrees.  The forest is
    the whole tree under the directory when no allocation fails.  A bounded
    walk returns, so it has such an output. *)
Theorem output_is_preorder_traversal `{Qsort} (fs : filesystem)
    (fuel : nat) (path : string) (indent_level : Z) (prefix : string)
    (s : state) :
  (bounded fs fuel path indent_level = true →
   ∃ s', list_directory_recursive fs fuel path indent_level prefix s
         = Ret () s') ∧
  (∀ s',
     list_directory_recursive fs fuel path indent_level prefix s = Ret () s' →
     ∃ forest,
       walked fs fuel path forest ∧
       (all_succeed s → scan fs fuel path = Some forest) ∧
       stdout s' = stdout s +:+ text_of (lines_of_forest [] prefix forest) ∧
       line_name <$> lines_of_forest [] prefix forest
       = name <$> preorder_forest forest) ∧
  (∀ e ts, preorder (Node e ts) = e :: preorder_forest ts) ∧
  (∀ t ts, preorder_forest (t :: ts) = preorder t ++ preorder_forest ts) ∧
  (∀ fuel' path' forest,
     walked fs (S fuel') path' forest ↔
     forest = [] ∨
     ∃ dir, fs_opendir fs path' = Some dir ∧
            entry_of <$> forest
            = qsort (listed fs path' dir) compareDirEntries ∧
            Forall (subtree_ok (walked fs fuel') path') forest).
Proof.
  split; [apply bounded_returns|]. split; [|done].
  intros s' Hrun.
  pose proof (list_directory_recursive_spec fs fuel path indent_level prefix s)
    as Hspec.
  rewrite Hrun in Hspec.
  destruct Hspec as (_ & _ & (forest & Hwalked & Htext & _ & Hscan) & _).
  exists forest. split; [done|]. split; [done|]. split; [apply Htext|].
  apply lines_names.
Qed.

Lemma output_is_preorder_traversal_witness :
  ∃ s' forest,
    list_directory_recursive scenario_C 2 "." 0 "" initial_state = Ret () s' ∧
    scan scenario_C 2 "." = Some forest ∧
    stdout s' = text_of (lines_of_forest [] "" forest) ∧
    name <$> preorder_forest forest = ["secret"; "z"; "f"; "a.txt"]%string.
Proof.
  destruct (output_is_preorder_traversal scenario_C 2 "." 0 "" initial_state)
    as (Hreturns & Hpreorder & _).
  destruct Hreturns as (s' & Hrun); [vm_compute; reflexivity|].
  destruct (Hpreorder s' Hrun) as (forest & _ & Hscan & Hout & _).
  specialize (Hscan (Forall_nil_2 _)).
  exists s', forest. split; [exact Hrun|]. split; [exact Hscan|].
  split; [exact Hout|].
  vm_compute in Hscan. injection Hscan as <-. vm_compute. reflexivity.
Defined.

(** C8. With no argument the root is ["."], with one argument it is that
    argument; the program prints the root as given and a newline, then lists
    it with the empty prefix at level 0, and its exit status is 0 whenever it
    completes, whatever was reported on the way.  With two or more arguments
    it only prints the usage line on the error stream and exits with
    status 1: the file system plays no part in that result. *)
Theorem main_root_usage_and_exit_status `{Qsort} (fs : filesystem)
    (fuel : nat) (argv : list string) (s : state) :
  let root := match argv with [_; arg] => arg | _ => "."%string end in
  (length argv ≤ 2 →
   main fs fuel argv s
   = (list_directory_recursive fs fuel root 0 "" ≫= λ _, mret 0%Z)
       (set_stdout s (stdout s +:+ root +:+ LF)) ∧
   (∀ v s', main fs fuel argv s = Ret v s' →
      v = 0%Z ∧ ∃ out, stdout s' = stdout s +:+ (root +:+ LF) +:+ out) ∧
   (bounded fs fuel root 0 = true → ∃ s', main fs fuel argv s = Ret 0%Z s')) ∧
  (2 < length argv →
   main fs fuel argv s
   = Ret 1%Z (set_stderr s
                (stderr s ++ [Fprintf ("Usage: " +:+ default "" (argv !! 0)
                                         +:+ " [directory_path]" +:+ LF)]))).
Proof.
  intros root. split.
  - intros Hargc.
    assert (main fs fuel argv s
            = (list_directory_recursive fs fuel root 0 "" ≫= λ _, mret 0%Z)
                (set_stdout s (stdout s +:+ root +:+ LF))) as Hmain.
    { unfold main, root.
      destruct argv as [|prog [|arg [|? ?]]]; simpl in *; try done; lia. }
    split; [done|]. split.
    + intros v s'. rewrite Hmain. intros (? & s1 & Hrun & Hret)%bind_inv.
      injection Hret as <- <-. split; [done|].
      pose proof (list_directory_recursive_spec fs fuel root 0 ""
                    (set_stdout s (stdout s +:+ root +:+ LF))) as Hspec.
      rewrite Hrun in Hspec.
      destruct Hspec as (_ & _ & (forest & _ & Hout & _) & _).
      eexists. rewrite (Hout []). simpl. by rewrite !string_app_assoc.
    + intros Hbounded. rewrite Hmain.
      destruct (bounded_returns fs fuel root 0 ""
                  (set_stdout s (stdout s +:+ root +:+ LF)) Hbounded)
        as (s' & Hrun).
      exists s'. by rewrite (bind_ret _ _ _ _ _ Hrun).
  - intros Hargc. unfold main.
    destruct (Z.gtb_spec (Z.of_nat (length argv)) 2) as [_|]; [done|lia].
Qed.

Lemma main_root_usage_and_exit_status_witness :
  (∃ s', main scenario_B 2 ["ntree"] initial_state = Ret 0%Z s') ∧
  (∃ s', main scenario_B 2 ["ntree"; "./dir1"] initial_state = Ret 0%Z s' ∧
         stdout s' = "./dir1" +:+ LF +:+ "└── file1.txt" +:+ LF) ∧
  main scenario_B 2 ["ntree"; "."; "./dir1"] initial_state
  = Ret 1%Z (mkState "" [Fprintf ("Usage: ntree [directory_path]" +:+ LF)]
               ∅ [] 0).
Proof.
  split; [|split].
  - apply (main_root_usage_and_exit_status scenario_B 2 ["ntree"] initial_state).
    + simpl. lia.
    + vm_compute. reflexivity.
  - destruct (proj1 (main_root_usage_and_exit_status scenario_B 2
                       ["ntree"; "./dir1"] initial_state) ltac:(simpl; lia))
      as (_ & _ & Hret).
    destruct (Hret ltac:(vm_compute; reflexivity)) as (s' & Hrun).
    exists s'. split; [exact Hrun|].
    assert (main scenario_B 2 ["ntree"; "./dir1"] initial_state
            = Ret 0%Z (set_stdout initial_state
                         ("./dir1" +:+ LF +:+ "└── file1.txt" +:+ LF))) as Hrun'
      by (vm_compute; reflexivity).
    rewrite Hrun' in Hrun. by injection Hrun as <-.
  - apply (main_root_usage_and_exit_status scenario_B 2
             ["ntree"; "."; "./dir1"] initial_state).
    simpl. lia.
Defined.

(** ** The growth of the array *)

Section Growth.
Context (fs : filesystem).

Lemma next_alloc_unplanned s : alloc_plan s = [] → next_alloc s = Ret true s.
Proof. unfold next_alloc. by intros ->. Qed.

(** One round of the reading loop for a name that is kept, when no
    allocation fails: the capacity is doubled first if the count has reached
    it, then the entry is stored at index [num_entries]. *)
Lemma read_entries_round path d_name dir' st_mode entries n cap s :
  is_dot d_name = false →
  fs_stat fs (full_path_of path d_name) = Some st_mode →
  alloc_plan s = [] →
  length entries = Z.to_nat cap → (0 ≤ n ≤ cap)%Z → (0 < cap)%Z →
  (cap * 2 ≤ INT_MAX)%Z →
  let capacity' := (if (n >=? cap)%Z then cap * 2 else cap)%Z in
  read_entries fs path (d_name :: dir') entries n cap s
  = read_entries fs path dir'
      (<[Z.to_nat n := Some (mkDirEntry d_name (S_ISDIR st_mode))]>
         (resize (Z.to_nat capacity') None entries))
      (n + 1)%Z capacity'
      (set_heap s ({[+ NameCopy d_name +]} ⊎ heap s)).
Proof.
  intros Hdot Hstat Hplan Hlen Hrange Hcap Hint capacity'.
  simpl read_entries. fold (is_dot d_name). rewrite Hdot, Hstat.
  assert (∀ entries1 cap1,
             length entries1 = Z.to_nat cap1 → (n < cap1)%Z →
             (malloc (NameCopy d_name) ≫= λ ok : bool,
              in_bounds entries1 n ≫= λ _,
              if ok
              then read_entries fs path dir'
                     (<[Z.to_nat n := Some (mkDirEntry d_name (S_ISDIR st_mode))]>
                        entries1) (n + 1)%Z cap1
              else abandon "Error: Memory allocation failed for entry name"
                     entries1 n ≫= λ _, mret None) s
             = read_entries fs path dir'
                 (<[Z.to_nat n := Some (mkDirEntry d_name (S_ISDIR st_mode))]>
                    entries1) (n + 1)%Z cap1
                 (set_heap s ({[+ NameCopy d_name +]} ⊎ heap s))) as Hstore.
  { intros entries1 cap1 Hlen1 Hlt. unfold malloc.
    rewrite bind_assoc, (bind_ret _ _ _ _ _ (next_alloc_unplanned s Hplan)).
    unfold own. rewrite bind_assoc.
    unfold mbind at 1, M_bind at 1. rewrite mret_bind.
    unfold in_bounds. rewrite decide_True by lia. by rewrite mret_bind. }
  unfold capacity'. destruct (Z.geb_spec n cap) as [Hge|Hlt].
  - rewrite bind_assoc. unfold int_range.
    rewrite decide_True by (unfold INT_MAX in *; lia).
    rewrite mret_bind, bind_assoc. unfold realloc.
    rewrite (bind_ret _ _ _ _ _ (next_alloc_unplanned s Hplan)).
    rewrite mret_bind. apply Hstore; [by rewrite length_resize|lia].
  - rewrite mret_bind.
    rewrite (resize_all_alt entries (Z.to_nat cap)) by done.
    by apply Hstore.
Qed.
End Growth.

(** C9. The array starts with a capacity of 10 and a count of 0.  A round
    that keeps a name first doubles the capacity if the count has reached
    it, then stores the entry at the index of the count and adds one to the
    count.  So when no allocation fails the loop ends with a capacity of
    [10 * 2^k], for the least [k] that makes room for the entries, and the
    first slots of the array hold the entries in the order in which they
    were read, the other slots never having been written. *)
Theorem listing_grows_by_doubling (fs : filesystem) (path : string)
    (dir : list string) (s : state) :
  0 < open_dirs s →
  all_succeed s →
  (2 * Z.of_nat (length (listed fs path dir)) ≤ INT_MAX)%Z →
  (∃ entries num_entries s' capacity (doublings : nat),
     read_directory fs path dir s = Ret (Some (entries, num_entries)) s' ∧
     num_entries = Z.of_nat (length (listed fs path dir)) ∧
     length entries = Z.to_nat capacity ∧
     capacity = (10 * 2 ^ Z.of_nat doublings)%Z ∧
     (num_entries ≤ capacity)%Z ∧
     (doublings = 0 ∨ (capacity < 2 * num_entries)%Z) ∧
     take (Z.to_nat num_entries) entries = Some <$> listed fs path dir) ∧
  (∀ d_name dir' st_mode entries n cap s0,
     is_dot d_name = false →
     fs_stat fs (full_path_of path d_name) = Some st_mode →
     alloc_plan s0 = [] →
     length entries = Z.to_nat cap → (0 ≤ n ≤ cap)%Z → (0 < cap)%Z →
     (cap * 2 ≤ INT_MAX)%Z →
     let capacity' := (if (n >=? cap)%Z then cap * 2 else cap)%Z in
     read_entries fs path (d_name :: dir') entries n cap s0
     = read_entries fs path dir'
         (<[Z.to_nat n := Some (mkDirEntry d_name (S_ISDIR st_mode))]>
            (resize (Z.to_nat capacity') None entries))
         (n + 1)%Z capacity'
         (set_heap s0 ({[+ NameCopy d_name +]} ⊎ heap s0))).
Proof.
  intros Hopen Hs Hsize. split; [|apply read_entries_round].
  pose proof (read_directory_spec fs path dir s Hopen) as Hspec.
  destruct (read_directory fs path dir s) as [[[entries n]|] s'| |];
    simpl in Hspec.
  - destruct Hspec as ((cap & k & Hinv & Hcap & Hmin) & _).
    exists entries, n, s', cap, k. split; [done|].
    split; [by eapply array_inv_count|].
    destruct Hinv as (Hlen & Hrange & _ & Htake). repeat split; try done. lia.
  - destruct Hspec as (_ & _ & _ & (used & Hplan & _) & _).
    exfalso. by eapply all_succeed_no_failure.
  - lia.
  - done.
Qed.


Lemma listing_grows_by_doubling_witness :
  ∃ entries s',
    read_directory crowded_fs "." (replicate 25 "f"%string)
      (mkState "" [] ∅ [] 1)
    = Ret (Some (entries, 25%Z)) s' ∧
    length entries = 40 ∧
    take 25 entries = replicate 25 (Some (mkDirEntry "f" 0)).
Proof.
  destruct (listing_grows_by_doubling crowded_fs "." (replicate 25 "f"%string)
              (mkState "" [] ∅ [] 1))
    as ((entries & n & s' & cap & k & Hrun & Hn & Hlen & Hcap & Hle & Hmin & Htake) & _).
  - simpl. lia.
  - apply Forall_nil_2.
  - vm_compute. discriminate.
  - assert (read_directory crowded_fs "." (replicate 25 "f"%string)
              (mkState "" [] ∅ [] 1)
            = Ret (Some (replicate 25 (Some (mkDirEntry "f" 0))
                         ++ replicate 15 None, 25%Z))
                (mkState "" []
                   (list_to_set_disj (EntriesArray :: replicate 25 (NameCopy "f")))
                   [] 0)) as Hrun'
      by (vm_compute; reflexivity).
    rewrite Hrun' in Hrun. injection Hrun as <- <- <-.
    eexists _, _. split; [exact Hrun'|]. split; reflexivity.
Defined.

(** C10. When an allocation fails while a directory is read, be it the
    allocation of the array, a doubling of it or the copy of a name (that
    is, when the first allocation to fail is one of those that reading the
    directory asks for), the call reports it, releases the array and every
    name it had copied, closes the directory and returns without printing a
    line: the heap, the open directories and the standard output are as they
    were before the call, so the caller goes on with its next entry.  The
    exit status of the program is 0 whenever it completes.  (For a
    directory of fewer than 2^30 entries, beyond which the capacity is not
    an [int].) *)
Theorem allocation_failure_abandons_the_directory `{Qsort} (fs : filesystem)
    (fuel : nat) (path : string) (indent_level : Z) (prefix : string)
    (dir : list string) (s : state) (used rest : list bool) :
  fs_opendir fs path = Some dir →
  alloc_plan s = used ++ false :: rest →
  Forall (λ ok, ok = true) used →
  length used < directory_allocations (length (listed fs path dir)) →
  (2 * Z.of_nat (length (listed fs path dir)) ≤ INT_MAX)%Z →
  ∃ s1,
    list_directory_recursive fs (S fuel) path indent_level prefix s
    = Ret () s1 ∧
    stdout s1 = stdout s ∧
    heap s1 = heap s ∧
    open_dirs s1 = open_dirs s ∧
    alloc_plan s1 = rest ∧
    (∃ warnings msg, msg ∈ allocation_messages ∧
       stderr s1 = stderr s ++ warnings ++ [Perror msg]) ∧
    (∀ fuel0 argv s0 v s', length argv ≤ 2 →
       main fs fuel0 argv s0 = Ret v s' → v = 0%Z).
Proof.
  intros Hopendir Hplan Hused Hfirst Hsize.
  destruct (read_directory_first_failure fs path dir
              (set_open_dirs s (S (open_dirs s))) used rest
              ltac:(simpl; lia) Hplan Hused Hfirst Hsize)
    as (s1 & Hread & Hrest).
  pose proof (read_directory_spec fs path dir
                (set_open_dirs s (S (open_dirs s))) ltac:(simpl; lia)) as Hspec.
  rewrite Hread in Hspec. simpl in Hspec.
  destruct Hspec as (Hout & Hheap & Hopen & _ & Herr).
  exists s1. split.
  { simpl. unfold opendir. unfold mbind at 1, M_bind at 1. rewrite Hopendir.
    by rewrite (bind_ret _ _ _ _ _ Hread). }
  split; [done|]. split; [done|]. split; [lia|]. split; [done|].
  split; [done|].
  intros fuel0 argv s0 v s' Hargc. unfold main.
  destruct (Z.gtb_spec (Z.of_nat (length argv)) 2) as [|_]; [lia|].
  rewrite printf_bind. intros (? & ? & _ & Hret)%bind_inv.
  by injection Hret as <- _.
Qed.

Lemma allocation_failure_abandons_the_directory_witness :
  let s := mkState ("├── sub" +:+ LF) []
             (list_to_set_disj [EntriesArray; NameCopy "sub"; NameCopy "zz"])
             [true; true; false] 0 in
  fs_opendir sub_fs "./sub" = Some ["."; ".."; "x"; "y"]%string ∧
  (∃ s1, list_directory_recursive sub_fs 1 "./sub" 1 "│   " s = Ret () s1 ∧
         stdout s1 = stdout s ∧ heap s1 = heap s ∧
         open_dirs s1 = open_dirs s ∧ alloc_plan s1 = []) ∧
  main sub_fs 2 ["ntree"] failing_state
  = Ret 0%Z (mkState ("." +:+ LF +:+ "├── sub" +:+ LF +:+ "└── zz" +:+ LF)
               [Perror "Error: Memory allocation failed for entry name"]
               ∅ [] 0).
Proof.
  intros s. split; [reflexivity|]. split; [|vm_compute; reflexivity].
  destruct (allocation_failure_abandons_the_directory sub_fs 0 "./sub" 1 "│   "
              ["."; ".."; "x"; "y"]%string s [true; true] [])
    as (s1 & Hrun & Hout & Hheap & Hopen & Hplan & _).
  - reflexivity.
  - reflexivity.
  - repeat constructor.
  - vm_compute. lia.
  - vm_compute. discriminate.
  - exists s1. split; [exact Hrun|]. split; [exact Hout|].
    split; [exact Hheap|]. split; [exact Hopen|exact Hplan].
Defined.

(** * Further properties of the program *)

(** ** Memory and directory streams *)

(** X1. On every path by which a call returns (the directory listed, the
    directory not opened, or a failed allocation at any point) the heap is
    what it was when the call began and so is the number of open directory
    streams: each block that the call and its recursive calls allocated has
    been freed, each stream they opened has been closed. *)
Theorem every_return_path_releases_what_the_call_acquired `{Qsort}
    (fs : filesystem) (fuel : nat) (path : string) (indent_level : Z) (prefix : string)
    (s s' : state) :
  list_directory_recursive fs fuel path indent_level prefix s = Ret () s' →
  heap s' = heap s ∧ open_dirs s' = open_dirs s.
Proof.
  intros Hrun.
  pose proof (list_directory_recursive_spec fs fuel path indent_level prefix s)
    as Hspec.
  rewrite Hrun in Hspec. by destruct Hspec as (? & ? & _).
Qed.

Lemma every_return_path_releases_what_the_call_acquired_witness :
  ∃ s', list_directory_recursive sub_fs 2 "." 0 "" failing_state = Ret () s' ∧
        heap s' = heap failing_state ∧ open_dirs s' = open_dirs failing_state.
Proof.
  assert (list_directory_recursive sub_fs 2 "." 0 "" failing_state
          = Ret () (mkState ("├── sub" +:+ LF +:+ "└── zz" +:+ LF)
                      [Perror "Error: Memory allocation failed for entry name"]
                      ∅ [] 0)) as Hrun by (vm_compute; reflexivity).
  eexists. split; [exact Hrun|].
  exact (every_return_path_releases_what_the_call_acquired sub_fs 2 "." 0 ""
           failing_state _ Hrun).
Defined.


(** ** The comparison function as an order *)

Section Contract.
Implicit Types a b c : DirEntry.

Lemma strcmp_range s t : (-255 ≤ strcmp s t ≤ 255)%Z.
Proof.
  revert t; induction s as [|c1 r1 IH]; intros [|c2 r2]; simpl;
    try pose proof (byte_val_range c1); try pose proof (byte_val_range c2);
    try lia.
  destruct (Ascii.eqb c1 c2); [|lia].
  destruct (Ascii.eqb c1 zero); [lia|apply IH].
Qed.

Lemma compareDirEntries_flip a b :
  compareDirEntries b a = (- compareDirEntries a b)%Z.
Proof.
  destruct (compareDirEntries_cases a b) as [(?&?&->)|[(?&?&->)|(?&->)]].
  - by rewrite compareDirEntries_file_dir.
  - by rewrite compareDirEntries_dir_file.
  - rewrite compareDirEntries_same_kind by tauto. apply strcmp_flip.
Qed.

(** X2. [compareDirEntries] is a comparison function as [qsort] requires
    it: its results are consistent.  It returns 0 on equal arguments,
    exchanging the arguments negates the result, "not after" and "before"
    are transitive, and the result is 0 exactly for two entries of the same
    kind whose names [strcmp] finds equal.  The result is always between
    -255 and 255. *)
Theorem comparator_is_a_consistent_total_preorder a b c :
  (-255 ≤ compareDirEntries a b ≤ 255)%Z ∧
  compareDirEntries a a = 0%Z ∧
  compareDirEntries b a = (- compareDirEntries a b)%Z ∧
  ((compareDirEntries a b ≤ 0)%Z → (compareDirEntries b c ≤ 0)%Z →
   (compareDirEntries a c ≤ 0)%Z) ∧
  ((compareDirEntries a b < 0)%Z → (compareDirEntries b c < 0)%Z →
   (compareDirEntries a c < 0)%Z) ∧
  (compareDirEntries a b = 0%Z ↔
   (is_dir a = 0%Z ↔ is_dir b = 0%Z) ∧ strcmp (name a) (name b) = 0%Z).
Proof.
  split.
  { destruct (compareDirEntries_cases a b) as [(?&?&->)|[(?&?&->)|(?&->)]];
      [lia..|apply strcmp_range]. }
  split.
  { rewrite compareDirEntries_same_kind by done. apply strcmp_refl. }
  split; [apply compareDirEntries_flip|].
  split; [apply compareDirEntries_trans|].
  split.
  { intros Hab Hbc.
    pose proof (compareDirEntries_trans a b c ltac:(unfold cmp_le; lia)
                  ltac:(unfold cmp_le; lia)) as Hac.
    unfold cmp_le in Hac.
    destruct (decide (compareDirEntries a c = 0%Z)) as [H0|]; [|lia].
    pose proof (compareDirEntries_trans c a b) as Hcb. unfold cmp_le in Hcb.
    rewrite (compareDirEntries_flip a c), (compareDirEntries_flip b c) in Hcb.
    lia. }
  destruct (compareDirEntries_cases a b) as [(?&?&->)|[(?&?&->)|(?&->)]];
    [split; [lia|tauto]..|tauto].
Qed.
End Contract.


(** ** Walks that do not end *)

Section Endless.
Context `{Qsort} (fs : filesystem).

Lemma listed_elem path dir d_name st_mode :
  d_name ∈ dir → is_dot d_name = false →
  fs_stat fs (full_path_of path d_name) = Some st_mode →
  mkDirEntry d_name (S_ISDIR st_mode) ∈ listed fs path dir.
Proof.
  intros Hin Hdot Hstat. induction dir as [|d dir IH]; [by apply elem_of_nil in Hin|].
  cbn [listed]. apply elem_of_cons in Hin as [<-|Hin].
  - rewrite Hdot, Hstat. by left.
  - destruct (is_dot d); [by apply IH|].
    destruct (fs_stat fs (full_path_of path d)); [right|]; by apply IH.
Qed.

(** A set of paths from each of which the walk goes on to another one is
    never scanned to the end. *)
Lemma scan_endless (P : string → Prop) :
  (∀ path, P path →
     ∃ dir d_name st_mode,
       fs_opendir fs path = Some dir ∧ d_name ∈ dir ∧ is_dot d_name = false ∧
       fs_stat fs (full_path_of path d_name) = Some st_mode ∧
       S_ISDIR st_mode ≠ 0%Z ∧ P (full_path_of path d_name)) →
  ∀ fuel path, P path → scan fs fuel path = None.
Proof.
  intros Hstep. induction fuel as [|fuel IH]; intros path Hpath; [done|].
  destruct (Hstep path Hpath)
    as (dir & d & m & Hopendir & Hin & Hdot & Hstat & Hdir & Hnext).
  cbn [scan]. rewrite Hopendir.
  destruct (mapM _ _) as [forest|] eqn:Hscan; [|done].
  apply mapM_Some in Hscan.
  pose proof (listed_elem path dir d m Hin Hdot Hstat) as He.
  rewrite <- (qsort_Permutation _ _ compareDirEntries) in He.
  apply list_elem_of_lookup in He as [i Hi].
  destruct (Forall2_lookup_l _ _ _ _ _ Hscan Hi) as (t & _ & Ht).
  unfold scan_entry in Ht. cbn [is_dir name] in Ht.
  rewrite (proj2 (Z.eqb_neq _ _) Hdir), (IH _ Hnext) in Ht. done.
Qed.

Lemma endless_call fuel path indent_level prefix s s' :
  all_succeed s → scan fs fuel path = None →
  list_directory_recursive fs fuel path indent_level prefix s ≠ Ret () s'.
Proof.
  intros Hs Hscan Hrun.
  pose proof (list_directory_recursive_spec fs fuel path indent_level prefix s)
    as Hspec.
  rewrite Hrun in Hspec.
  destruct Hspec as (_ & _ & (forest & _ & _ & _ & Hforest) & _).
  specialize (Hforest Hs). congruence.
Qed.

End Endless.

(** X3. The recursion has no bound of its own and does not detect
    cycles.  When there is a set of paths such that the directory at each
    of them opens and holds an entry, other than ["."] and [".."], that
    [stat] classifies as a directory and whose joined path is in the set
    again, then a call for a path of the set in which no allocation fails
    does not return, however much stack it is given. *)
Theorem walk_that_always_finds_a_directory_never_returns `{Qsort}
    (fs : filesystem) (P : string → Prop) (fuel : nat) (path : string) (indent_level : Z)
    (prefix : string) (s s' : state) :
  (∀ p, P p →
     ∃ dir d_name st_mode,
       fs_opendir fs p = Some dir ∧ d_name ∈ dir ∧ is_dot d_name = false ∧
       fs_stat fs (full_path_of p d_name) = Some st_mode ∧
       S_ISDIR st_mode ≠ 0%Z ∧ P (full_path_of p d_name)) →
  P path → all_succeed s →
  list_directory_recursive fs fuel path indent_level prefix s ≠ Ret () s'.
Proof.
  intros Hstep Hpath Hs. apply endless_call; [done|].
  by apply (scan_endless fs P).
Qed.

(** X4. A directory whose path has [PATH_MAX - 1] bytes and that holds an
    entry is such a case.  The joined path of every entry is cut back to the
    path of the directory itself, so each entry is classified as the
    directory is and the call recurses for the same path without end. *)
Theorem directory_whose_path_fills_the_buffer_is_listed_without_end `{Qsort}
    (fs : filesystem) (fuel : nat) (path : string) (indent_level : Z) (prefix : string)
    (dir : list string) (d_name : string) (st_mode : Z) (s s' : state) :
  String.length path = PATH_MAX - 1 →
  fs_opendir fs path = Some dir →
  d_name ∈ dir → is_dot d_name = false →
  fs_stat fs path = Some st_mode → S_ISDIR st_mode ≠ 0%Z →
  all_succeed s →
  full_path_of path d_name = path ∧
  list_directory_recursive fs fuel path indent_level prefix s ≠ Ret () s'.
Proof.
  intros Hlen Hopendir Hin Hdot Hstat Hdir Hs.
  assert (∀ d, full_path_of path d = path) as Hjoin.
  { intros d. unfold full_path_of, snprintf.
    rewrite <- (string_app_nil_r path) at 2.
    rewrite <- (take_bytes_all (PATH_MAX - 1) path) at 2 by lia.
    rewrite <- Hlen. clear. induction path; simpl; [done|]. by f_equal. }
  split; [apply Hjoin|]. apply endless_call; [done|].
  apply (scan_endless fs (λ p, p = path)); [|done].
  intros p ->. exists dir, d_name, st_mode. by rewrite !Hjoin.
Qed.

Lemma walk_that_always_finds_a_directory_never_returns_witness :
  list_directory_recursive loop_fs 7 "." 0 "" initial_state
  ≠ Ret () initial_state.
Proof.
  apply (walk_that_always_finds_a_directory_never_returns loop_fs (λ _, True)).
  - intros p _. exists ["."; ".."; "a"]%string, "a"%string, mode_dir.
    split; [reflexivity|]. split; [repeat constructor|].
    split; [reflexivity|]. split; [reflexivity|]. split; [|exact I].
    vm_compute. discriminate.
  - exact I.
  - constructor.
Defined.

Lemma directory_whose_path_fills_the_buffer_is_listed_without_end_witness :
  full_path_of brim_path "x" = brim_path ∧
  list_directory_recursive brim_fs 3 brim_path 0 "" initial_state
  ≠ Ret () initial_state.
Proof.
  apply (directory_whose_path_fills_the_buffer_is_listed_without_end
           brim_fs 3 brim_path 0 "" ["x"]%string "x" mode_dir).
  - vm_compute. reflexivity.
  - vm_compute. reflexivity.
  - repeat constructor.
  - reflexivity.
  - vm_compute. reflexivity.
  - vm_compute. discriminate.
  - constructor.
Defined.


(** ** The error stream *)

Section Diagnostics.
Context `{Qsort} (fs : filesystem).
Implicit Types s : state.

Lemma print_entries_stderr fuel path indent prefix entries n :
  (∀ path indent prefix s s',
     all_succeed s →
     list_directory_recursive fs fuel path indent prefix s = Ret () s' →
     stderr s' = stderr s ++ diagnostics fs fuel path) →
  ∀ rest i s s',
    (0 ≤ i)%Z →
    (∀ k e, rest !! k = Some e →
            entries !! (Z.to_nat i + k) = Some (Some e)) →
    all_succeed s →
    print_entries (list_directory_recursive fs fuel)
      path indent prefix entries n i (length rest) s = Ret () s' →
    stderr s' = stderr s
                ++ concat (entry_diagnostics (diagnostics fs fuel) path <$> rest).
Proof.
  intros Hrec. induction rest as [|e rest' IH]; intros i s s' Hi Hlook Hs Hrun.
  { injection Hrun as <-. simpl. by rewrite (right_id_L [] (++)). }
  simpl length in Hrun. simpl print_entries in Hrun.
  erewrite bind_ret in Hrun; last first.
  { apply load_spec; [done|]. specialize (Hlook 0 e eq_refl).
    by rewrite Nat.add_0_r in Hlook. }
  rewrite printf_bind in Hrun.
  set (last := (i =? n - 1)%Z) in Hrun.
  assert ((if (Z.b2z last =? 0)%Z then printf "├── " else printf "└── ")
          = printf (connector last)) as Hconn by (by destruct last).
  rewrite Hconn, printf_bind, printf_bind in Hrun.
  set (s1 := set_stdout _ _) in Hrun.
  assert (stderr s1 = stderr s ∧ alloc_plan s1 = alloc_plan s)
    as (Herr1 & Hplan1) by done.
  clearbody s1.
  assert (all_succeed s1) as Hs1 by (unfold all_succeed; by rewrite Hplan1).
  assert (∀ s2, all_succeed s2 →
            (free (NameCopy (name e)) ≫= λ _,
             print_entries (list_directory_recursive fs fuel)
               path indent prefix entries n (i + 1)%Z (length rest')) s2
            = Ret () s' →
            stderr s' = stderr s2
              ++ concat (entry_diagnostics (diagnostics fs fuel) path <$> rest'))
    as Hrest.
  { intros s2 Hs2 ([] & s3 & Hfree & Hloop)%bind_inv.
    unfold free in Hfree. case_decide; [|done]. injection Hfree as <-.
    apply IH in Hloop; [exact Hloop|lia| |exact Hs2].
    intros k e' Hk. specialize (Hlook (S k) e' Hk).
    rewrite <- Hlook. f_equal. lia. }
  rewrite fmap_cons, concat_cons. unfold entry_diagnostics at 1.
  destruct (Z.eqb_spec (is_dir e) 0) as [Hfile|Hdir].
  - rewrite mret_bind in Hrun. apply Hrest in Hrun; [|done].
    by rewrite Hrun, Herr1.
  - rewrite bind_assoc in Hrun. unfold int_range in Hrun.
    case_decide as Hint; [|done].
    rewrite mret_bind in Hrun.
    apply bind_inv in Hrun as ([] & s2 & Hcall & Hrun).
    pose proof (Hrec _ _ _ _ _ Hs1 Hcall) as Herr2.
    pose proof (list_directory_recursive_spec fs fuel
                  (full_path_of path (name e)) (indent + 1)%Z
                  (new_prefix_of prefix (Z.b2z last)) s1) as Hspec.
    rewrite Hcall in Hspec.
    destruct Hspec as (_ & _ & _ & _ & Hall).
    apply Hrest in Hrun; [|by apply Hall].
    by rewrite Hrun, Herr2, Herr1, <- (assoc_L (++)).
Qed.

Lemma list_directory_recursive_stderr fuel :
  ∀ path indent prefix s s',
    all_succeed s →
    list_directory_recursive fs fuel path indent prefix s = Ret () s' →
    stderr s' = stderr s ++ diagnostics fs fuel path.
Proof.
  induction fuel as [|fuel IH]; intros path indent prefix s s' Hs Hrun; [done|].
  simpl list_directory_recursive in Hrun. unfold opendir in Hrun.
  unfold mbind at 1, M_bind at 1 in Hrun. cbn [diagnostics].
  destruct (fs_opendir fs path) as [dir|] eqn:Hopendir.
  2:{ by injection Hrun as <-. }
  set (s0 := set_open_dirs s (S (open_dirs s))) in Hrun.
  pose proof (read_directory_spec fs path dir s0 ltac:(simpl; lia)) as Hread.
  apply bind_inv in Hrun as (r & s1 & Hdir & Hrun).
  rewrite Hdir in Hread. destruct r as [[entries n]|]; simpl in Hread.
  2:{ destruct Hread as (_ & _ & _ & (used & Hplan1 & _) & _).
      by apply all_succeed_no_failure in Hplan1. }
  destruct Hread as ((cap & k & Hinv & _) & _ & Herr1 & _ & _
                     & (used & Hplan1 & _)).
  assert (all_succeed s1) as Hs1 by (by eapply (all_succeed_split s0)).
  rewrite (bind_ret _ _ _ _ _ (sort_entries_spec _ _ _ _ _ Hinv)) in Hrun.
  set (sorted := qsort (listed fs path dir) compareDirEntries) in *.
  assert (sorted ≡ₚ listed fs path dir) as Hperm by apply qsort_Permutation.
  apply bind_inv in Hrun as ([] & s2 & Hloop & Hfree).
  unfold free in Hfree. case_decide; [|done]. injection Hfree as <-.
  assert (Z.to_nat n = length sorted) as Hn.
  { rewrite Hperm. symmetry. by eapply array_inv_length. }
  rewrite Hn in Hloop.
  apply (print_entries_stderr fuel path indent prefix _ n IH sorted 0%Z) in Hloop;
    [|done| |done].
  - simpl. by rewrite Hloop, Herr1, <- (assoc_L (++)).
  - intros j e Hj. rewrite <- Hn. by eapply sorted_lookup.
Qed.
End Diagnostics.


(** X5. When no allocation fails, what a returning call has added to the
    error stream is [diagnostics]: for a directory that cannot be opened the
    one line that names it; for a directory that is listed one warning for
    each entry whose status query failed, followed by the diagnostics of its
    subdirectories in the order in which their lines are printed. *)
Theorem error_stream_holds_the_diagnostics_of_the_walk `{Qsort}
    (fs : filesystem) (fuel : nat) (path : string) (indent_level : Z)
    (prefix : string) (s s' : state) :
  all_succeed s →
  list_directory_recursive fs fuel path indent_level prefix s = Ret () s' →
  stderr s' = stderr s ++ diagnostics fs fuel path.
Proof. apply list_directory_recursive_stderr. Qed.

Lemma error_stream_holds_the_diagnostics_of_the_walk_witness :
  ∃ s', list_directory_recursive scenario_C 2 "." 0 "" initial_state
        = Ret () s' ∧
        stderr s' = [Perror "Error getting file status";
                     Fprintf ("Error: Cannot open directory './secret'" +:+ LF)].
Proof.
  eexists. split; [vm_compute; reflexivity|].
  rewrite (error_stream_holds_the_diagnostics_of_the_walk scenario_C 2 "." 0 ""
             initial_state _ ltac:(constructor) ltac:(vm_compute; reflexivity)).
  vm_compute. reflexivity.
Defined.


(** ** The order of [readdir] *)

Section ReaddirOrder.
Context `{Qsort}.

Lemma sorted_unique {A} (R : relation A) (l1 l2 : list A) :
  StronglySorted R l1 → StronglySorted R l2 → l1 ≡ₚ l2 →
  (∀ x y, x ∈ l1 → y ∈ l1 → R x y → R y x → x = y) →
  l1 = l2.
Proof.
  intros Hs1; revert l2. induction Hs1 as [|x l1 Hs1 IH Hx]; intros l2 Hs2 Hp Hanti.
  { by apply Permutation_nil in Hp. }
  destruct Hs2 as [|y l2 Hs2 Hy]; [by apply Permutation_sym, Permutation_nil_cons in Hp|].
  assert (x = y) as <-.
  { assert (x ∈ y :: l2) as [|Hx2]%elem_of_cons by (rewrite <- Hp; by left);
      [done|].
    assert (y ∈ x :: l1) as [|Hy1]%elem_of_cons by (rewrite Hp; by left);
      [done|].
    apply Hanti; [by left|by right|..].
    - by eapply Forall_forall in Hx.
    - by eapply Forall_forall in Hy. }
  f_equal. apply IH; [done|by eapply Permutation_cons_inv|].
  intros a b Ha Hb. apply Hanti; by right.
Qed.

Lemma S_ISDIR_cases st_mode : S_ISDIR st_mode = 0%Z ∨ S_ISDIR st_mode = 1%Z.
Proof. unfold S_ISDIR. destruct (_ =? _)%Z; auto. Qed.

Lemma listed_elem_inv fs path dir e :
  e ∈ listed fs path dir →
  name e ∈ dir ∧ (is_dir e = 0%Z ∨ is_dir e = 1%Z).
Proof.
  induction dir as [|d dir IH]; simpl; [by intros ?%elem_of_nil|].
  destruct (is_dot d).
  { intros [??]%IH. split; [by right|done]. }
  destruct (fs_stat fs (full_path_of path d)) as [m|].
  - intros [->|[??]%IH]%elem_of_cons.
    + split; [by left|apply S_ISDIR_cases].
    + split; [by right|done].
  - intros [??]%IH. split; [by right|done].
Qed.

Lemma listed_Permutation fs path dir1 dir2 :
  dir1 ≡ₚ dir2 → listed fs path dir1 ≡ₚ listed fs path dir2.
Proof.
  induction 1 as [|d dir1 dir2 _ IH|d1 d2 dir|dir1 dir2 dir3 _ IH1 _ IH2];
    simpl; [done| | |by etrans].
  - destruct (is_dot d); [done|].
    destruct (fs_stat fs (full_path_of path d)); [by constructor|done].
  - destruct (is_dot d1), (is_dot d2); try done;
      destruct (fs_stat fs (full_path_of path d1)),
               (fs_stat fs (full_path_of path d2)); try done.
    apply perm_swap.
Qed.

Lemma listed_stat_ext fs1 fs2 path dir :
  (∀ p, fs_stat fs1 p = fs_stat fs2 p) →
  listed fs1 path dir = listed fs2 path dir.
Proof.
  intros Hstat. induction dir as [|d dir IH]; simpl; [done|].
  by rewrite Hstat, IH.
Qed.

Lemma unclassified_Permutation fs path dir1 dir2 :
  dir1 ≡ₚ dir2 → unclassified fs path dir1 ≡ₚ unclassified fs path dir2.
Proof. intros Hp. unfold unclassified, children. by rewrite Hp. Qed.

Lemma unclassified_stat_ext fs1 fs2 path dir :
  (∀ p, fs_stat fs1 p = fs_stat fs2 p) →
  unclassified fs1 path dir = unclassified fs2 path dir.
Proof.
  intros Hstat. unfold unclassified.
  induction (children dir) as [|d l IH]; [done|].
  rewrite !filter_cons, IH. unfold stat_fails. by rewrite Hstat.
Qed.

(** Two listings of the same directory that differ in the order of
    [readdir] only are the same once sorted. *)
Lemma sorted_listing_unique fs path dir1 dir2 :
  dir1 ≡ₚ dir2 → Forall (λ d, no_nul d = true) dir1 →
  qsort (listed fs path dir1) compareDirEntries
  = qsort (listed fs path dir2) compareDirEntries.
Proof.
  intros Hp Hnames.
  apply (sorted_unique (cmp_le compareDirEntries)).
  - apply qsort_sorted; apply _.
  - apply qsort_sorted; apply _.
  - by rewrite !qsort_Permutation, (listed_Permutation fs path _ _ Hp).
  - intros a b Ha Hb Hab Hba. unfold cmp_le in *.
    rewrite qsort_Permutation in Ha, Hb.
    apply listed_elem_inv in Ha as [Ha Hka], Hb as [Hb Hkb].
    rewrite Forall_forall in Hnames.
    rewrite (compareDirEntries_flip a b) in Hba.
    assert (compareDirEntries a b = 0%Z) as H0 by lia.
    destruct (compareDirEntries_cases a b) as [(?&?&?)|[(?&?&?)|(Hk&Hcmp)]];
      [lia..|].
    rewrite Hcmp in H0. apply strcmp_eq in H0; [|by apply Hnames..].
    destruct a as [na ka], b as [nb kb]; simpl in *. f_equal; [done|lia].
Qed.
End ReaddirOrder.


Section Shuffle.
Context `{Qsort} (fs1 fs2 : filesystem).
Hypothesis same_stat : ∀ p, fs_stat fs1 p = fs_stat fs2 p.
Hypothesis same_names :
  ∀ p, option_Forall2 (≡ₚ) (fs_opendir fs1 p) (fs_opendir fs2 p).
Hypothesis c_strings :
  ∀ p dir, fs_opendir fs1 p = Some dir → Forall (λ d, no_nul d = true) dir.

Lemma shuffled_sorted path dir1 dir2 :
  fs_opendir fs1 path = Some dir1 → fs_opendir fs2 path = Some dir2 →
  qsort (listed fs1 path dir1) compareDirEntries
  = qsort (listed fs2 path dir2) compareDirEntries ∧
  length (unclassified fs1 path dir1) = length (unclassified fs2 path dir2).
Proof.
  intros H1 H2. pose proof (same_names path) as Hp.
  rewrite H1, H2 in Hp. inversion Hp as [?? Hperm|]; subst.
  split.
  - rewrite <- (listed_stat_ext fs1 fs2) by done.
    apply sorted_listing_unique; [done|by eapply c_strings].
  - rewrite <- (unclassified_stat_ext fs1 fs2) by done.
    by rewrite (unclassified_Permutation fs1 path _ _ Hperm).
Qed.

Lemma mapM_ext_eq {A B} (f g : A → option B) (l : list A) :
  (∀ x, f x = g x) → mapM f l = mapM g l.
Proof. intros Hfg. induction l as [|x l IH]; simpl; [done|]. by rewrite Hfg, IH. Qed.

Lemma shuffled_scan fuel path : scan fs1 fuel path = scan fs2 fuel path.
Proof.
  revert path. induction fuel as [|fuel IH]; intros path; [done|].
  cbn [scan]. pose proof (same_names path) as Hp.
  destruct (fs_opendir fs1 path) as [dir1|] eqn:H1,
           (fs_opendir fs2 path) as [dir2|] eqn:H2;
    try done; [|inversion Hp..].
  rewrite (proj1 (shuffled_sorted path dir1 dir2 H1 H2)).
  apply mapM_ext_eq. intros e. unfold scan_entry. by rewrite IH.
Qed.

Lemma shuffled_diagnostics fuel path :
  diagnostics fs1 fuel path = diagnostics fs2 fuel path.
Proof.
  revert path. induction fuel as [|fuel IH]; intros path; [done|].
  cbn [diagnostics]. pose proof (same_names path) as Hp.
  destruct (fs_opendir fs1 path) as [dir1|] eqn:H1,
           (fs_opendir fs2 path) as [dir2|] eqn:H2;
    try done; [|inversion Hp..].
  destruct (shuffled_sorted path dir1 dir2 H1 H2) as [-> ->].
  f_equal. f_equal. apply list_fmap_ext. intros _ e _.
  unfold entry_diagnostics. by rewrite IH.
Qed.
End Shuffle.


(** X6. The listing does not depend on the order in which [readdir]
    yields the names.  For two file systems that answer [stat] alike and
    whose directories hold the same names (C strings), in whatever order,
    two returning calls in which no allocation fails write the same text to
    both streams. *)
Theorem listing_does_not_depend_on_the_order_of_readdir `{Qsort}
    (fs1 fs2 : filesystem) (fuel : nat) (path : string) (indent_level : Z)
    (prefix : string) (s s1 s2 : state) :
  (∀ p, fs_stat fs1 p = fs_stat fs2 p) →
  (∀ p, option_Forall2 (≡ₚ) (fs_opendir fs1 p) (fs_opendir fs2 p)) →
  (∀ p dir, fs_opendir fs1 p = Some dir → Forall (λ d, no_nul d = true) dir) →
  all_succeed s →
  list_directory_recursive fs1 fuel path indent_level prefix s = Ret () s1 →
  list_directory_recursive fs2 fuel path indent_level prefix s = Ret () s2 →
  stdout s1 = stdout s2 ∧ stderr s1 = stderr s2.
Proof.
  intros Hstat Hnames Hc Hs Hrun1 Hrun2. split.
  - pose proof (list_directory_recursive_spec fs1 fuel path indent_level
                  prefix s) as Hspec1.
    pose proof (list_directory_recursive_spec fs2 fuel path indent_level
                  prefix s) as Hspec2.
    rewrite Hrun1 in Hspec1. rewrite Hrun2 in Hspec2.
    destruct Hspec1 as (_ & _ & (forest1 & _ & Htext1 & _ & Hscan1) & _).
    destruct Hspec2 as (_ & _ & (forest2 & _ & Htext2 & _ & Hscan2) & _).
    specialize (Hscan1 Hs). specialize (Hscan2 Hs).
    rewrite (shuffled_scan fs1 fs2 Hstat Hnames Hc) in Hscan1.
    assert (forest1 = forest2) as -> by congruence.
    by rewrite (Htext1 []), (Htext2 []).
  - rewrite (list_directory_recursive_stderr fs1 fuel _ _ _ _ _ Hs Hrun1).
    rewrite (list_directory_recursive_stderr fs2 fuel _ _ _ _ _ Hs Hrun2).
    by rewrite (shuffled_diagnostics fs1 fs2 Hstat Hnames Hc).
Qed.

Lemma listing_does_not_depend_on_the_order_of_readdir_witness :
  ∃ s1 s2,
    list_directory_recursive scenario_B 2 "." 0 "" initial_state = Ret () s1 ∧
    list_directory_recursive scenario_B_shuffled 2 "." 0 "" initial_state
    = Ret () s2 ∧
    stdout s1 = stdout s2 ∧ stderr s1 = stderr s2.
Proof.
  eexists _, _. split; [vm_compute; reflexivity|].
  split; [vm_compute; reflexivity|].
  apply (listing_does_not_depend_on_the_order_of_readdir
           scenario_B scenario_B_shuffled 2 "." 0 "" initial_state).
  - reflexivity.
  - intros p. unfold scenario_B, scenario_B_shuffled, table_fs.
    cbn [fs_opendir lookup_path].
    destruct (String.eqb "." p).
    { constructor. by apply (bool_decide_unpack _). }
    destruct (String.eqb "./dir1" p); constructor.
    by apply (bool_decide_unpack _).
  - intros p dir. unfold scenario_B, table_fs. cbn [fs_opendir lookup_path].
    destruct (String.eqb "." p); [intros [= <-]; by repeat constructor|].
    destruct (String.eqb "./dir1" p); [intros [= <-]; by repeat constructor|].
    done.
  - constructor.
  - vm_compute. reflexivity.
  - vm_compute. reflexivity.
Defined.


(** ** The nesting level *)

Section IndentLevel.
Context `{Qsort} (fs : filesystem).
Implicit Types s : state.

Lemma print_entries_level (rec1 rec2 : string → Z → string → M unit)
    path (i1 i2 : Z) prefix entries n :
  (- INT_MAX - 2 ≤ i2 ≤ i1)%Z →
  (∀ p pre s s', rec1 p (i1 + 1)%Z pre s = Ret () s' →
                 rec2 p (i2 + 1)%Z pre s = Ret () s') →
  ∀ todo k s s',
    print_entries rec1 path i1 prefix entries n k todo s = Ret () s' →
    print_entries rec2 path i2 prefix entries n k todo s = Ret () s'.
Proof.
  intros Hlevel Hrec. induction todo as [|todo IH]; intros k s s' Hrun; [done|].
  simpl print_entries in *.
  apply bind_inv in Hrun as (e & s0 & Hload & Hrun).
  rewrite (bind_ret _ _ _ _ _ Hload).
  rewrite printf_bind in *.
  apply bind_inv in Hrun as ([] & s1 & Hconn & Hrun).
  rewrite (bind_ret _ _ _ _ _ Hconn).
  rewrite printf_bind in *.
  apply bind_inv in Hrun as ([] & s2 & Hsub & Hrun).
  apply bind_inv in Hrun as ([] & s3 & Hfree & Hrun).
  apply IH in Hrun.
  assert ((if (is_dir e =? 0)%Z then mret ()
           else indent_level' ← int_range (i2 + 1);
                rec2 (full_path_of path (name e)) indent_level'
                  (new_prefix_of prefix (Z.b2z (k =? n - 1)%Z)))
            (set_stdout s1 (stdout s1 +:+ (name e +:+ LF)))
          = Ret () s2) as Hsub'.
  { destruct (is_dir e =? 0)%Z; [done|].
    apply bind_inv in Hsub as (l & s4 & Hint & Hsub).
    unfold int_range in *. case_decide as Hrange; [|done].
    injection Hint as <- <-.
    rewrite decide_True by lia. rewrite mret_bind. by apply Hrec. }
  rewrite (bind_ret _ _ _ _ _ Hsub'), (bind_ret _ _ _ _ _ Hfree). done.
Qed.

End IndentLevel.

(** X7. The parameter [indent_level] is passed down and incremented but
    plays no part in what the call does: a call that returns at one level
    returns the same state at any lower level (a higher one could leave the
    range of [int] on the way down). *)
Theorem indent_level_has_no_effect_on_the_listing `{Qsort} (fs : filesystem)
    (fuel : nat) (path : string) (level level' : Z) (prefix : string)
    (s s' : state) :
  (- INT_MAX - 2 ≤ level' ≤ level)%Z →
  list_directory_recursive fs fuel path level prefix s = Ret () s' →
  list_directory_recursive fs fuel path level' prefix s = Ret () s'.
Proof.
  revert path level level' prefix s s'.
  induction fuel as [|fuel IH]; intros path i1 i2 prefix s s' Hlevel Hrun;
    [done|].
  simpl list_directory_recursive in *.
  apply bind_inv in Hrun as (dir & s0 & Hopen & Hrun).
  rewrite (bind_ret _ _ _ _ _ Hopen).
  destruct dir as [dir|]; [|done].
  apply bind_inv in Hrun as (r & s1 & Hread & Hrun).
  rewrite (bind_ret _ _ _ _ _ Hread).
  destruct r as [[entries n]|]; [|done].
  apply bind_inv in Hrun as (sorted & s2 & Hsort & Hrun).
  rewrite (bind_ret _ _ _ _ _ Hsort).
  apply bind_inv in Hrun as ([] & s3 & Hloop & Hrun).
  erewrite bind_ret; [done|].
  eapply print_entries_level; [done| |done].
  intros p pre t t'. apply IH. lia.
Qed.

Lemma indent_level_has_no_effect_on_the_listing_witness :
  list_directory_recursive scenario_B 2 "." (-7) "" initial_state
  = list_directory_recursive scenario_B 2 "." 1000 "" initial_state.
Proof.
  erewrite (indent_level_has_no_effect_on_the_listing scenario_B 2 "." 1000 (-7));
    [|vm_compute; split; discriminate|vm_compute; reflexivity].
  vm_compute. reflexivity.
Defined.


(** ** The whole run *)

Section Whole.
Context `{Qsort} (fs : filesystem).

Lemma main_listing fuel argv s :
  length argv ≤ 2 →
  main fs fuel argv s
  = (list_directory_recursive fs fuel
       (match argv with [_; arg] => arg | _ => "."%string end) 0 ""
     ≫= λ _, mret 0%Z)
      (set_stdout s (stdout s +:+
         match argv with [_; arg] => arg | _ => "."%string end +:+ LF)).
Proof.
  intros Hargc. unfold main.
  destruct argv as [|prog [|arg [|? ?]]]; simpl in *; try done; lia.
Qed.

End Whole.

(** X8. A run with at most one argument in which no allocation fails, when
    it completes, has exit status 0 and has printed the root as given,
    followed by the lines of the whole tree scanned below the root; the
    error stream holds the diagnostics of that walk, and the heap and the
    open directory streams are as before the run. *)
Theorem run_prints_the_root_and_the_tree_below_it `{Qsort}
    (fs : filesystem) (fuel : nat) (argv : list string) (s s' : state) (v : Z) :
  length argv ≤ 2 → all_succeed s →
  main fs fuel argv s = Ret v s' →
  let root := match argv with [_; arg] => arg | _ => "."%string end in
  v = 0%Z ∧
  (∃ forest,
     scan fs fuel root = Some forest ∧
     stdout s' = stdout s +:+ root +:+ LF
                 +:+ text_of (lines_of_forest [] "" forest)) ∧
  stderr s' = stderr s ++ diagnostics fs fuel root ∧
  heap s' = heap s ∧ open_dirs s' = open_dirs s.
Proof.
  intros Hargc Hs Hmain root. rewrite main_listing in Hmain by done.
  fold root in Hmain.
  apply bind_inv in Hmain as ([] & s1 & Hrun & Hret).
  injection Hret as <- <-. split; [done|].
  set (s0 := set_stdout s (stdout s +:+ root +:+ LF)) in *.
  assert (all_succeed s0) as Hs0 by done.
  pose proof (list_directory_recursive_spec fs fuel root 0 "" s0) as Hspec.
  rewrite Hrun in Hspec.
  destruct Hspec as (Hheap & Hopen & (forest & _ & Hout & _ & Hscan) & _).
  split.
  { exists forest. split; [by apply Hscan|].
    rewrite (Hout []). simpl. by rewrite !string_app_assoc. }
  split; [|done].
  by rewrite (list_directory_recursive_stderr fs fuel _ _ _ _ _ Hs0 Hrun).
Qed.

Lemma run_prints_the_root_and_the_tree_below_it_witness :
  ∃ s', main scenario_C 2 ["ntree"] initial_state = Ret 0%Z s' ∧
        stdout s' = "." +:+ LF +:+ "├── secret" +:+ LF +:+ "├── z" +:+ LF
                    +:+ "│   └── f" +:+ LF +:+ "└── a.txt" +:+ LF ∧
        stderr s' = [Perror "Error getting file status";
                     Fprintf ("Error: Cannot open directory './secret'" +:+ LF)].
Proof.
  assert (main scenario_C 2 ["ntree"] initial_state
          = Ret 0%Z (mkState
              ("." +:+ LF +:+ "├── secret" +:+ LF +:+ "├── z" +:+ LF
               +:+ "│   └── f" +:+ LF +:+ "└── a.txt" +:+ LF)
              [Perror "Error getting file status";
               Fprintf ("Error: Cannot open directory './secret'" +:+ LF)]
              ∅ [] 0)) as Hrun by (vm_compute; reflexivity).
  eexists. split; [exact Hrun|].
  destruct (run_prints_the_root_and_the_tree_below_it scenario_C 2 ["ntree"]
              initial_state _ 0%Z ltac:(simpl; lia) ltac:(constructor) Hrun)
    as (_ & _ & Herr & _).
  split; [reflexivity|]. exact Herr.
Defined.

(** * Proofs about nhex *)

#[local] Existing Instances nhex.M_ret nhex.M_bind.

Section NhexMonad.
Context {A B : Type}.


Lemma nhex_bind_inv (m : nhex.M A) (f : A → nhex.M B) s b s' :
  (m ≫= f) s = nhex.Ret b s' → ∃ a s1, m s = nhex.Ret a s1 ∧ f a s1 = nhex.Ret b s'.
Proof. unfold mbind, nhex.M_bind. destruct (m s); naive_solver. Qed.

Lemma nhex_printf_bind text (f : unit → nhex.M B) s :
  (nhex.printf text ≫= f) s
  = f () (nhex.mkState (nhex.stdout s +:+ text) (nhex.stderr s)
            (nhex.buffers s) (nhex.streams s) (nhex.alloc_plan s)).
Proof. done. Qed.
End NhexMonad.

Section NhexRows.
Implicit Types (s : nhex.state) (chunk buffer rest data : list ascii).


Lemma nhex_printf_nil s : nhex.printf "" s = nhex.Ret () s.
Proof. unfold nhex.printf. rewrite string_app_nil_r. by destruct s. Qed.

(** The loop of the hexadecimal column prints the cells of its positions. *)
Lemma nhex_hex_cells_spec bytes_per_line buffer todo :
  ∀ i s,
    nhex.hex_cells bytes_per_line (Z.of_nat (length buffer)) buffer
      (Z.of_nat i) todo s
    = nhex.printf
        (nhex.join (nhex.hex_cell bytes_per_line buffer <$> seq i todo)) s.
Proof.
  induction todo as [|todo IH]; intros i s.
  { simpl. by rewrite nhex_printf_nil. }
  cbn [nhex.hex_cells seq fmap list_fmap nhex.join].
  assert (∀ (f : unit → nhex.M unit) s0,
            ((if (Z.of_nat i <? Z.of_nat (length buffer))%Z
              then match buffer !! Z.to_nat (Z.of_nat i) with
                   | Some b => nhex.printf (nhex.printf_0X 2 (byte_val b) +:+ " ")
                   | None => nhex.undefined
                   end
              else nhex.printf "   ") ≫= f) s0
            = (nhex.printf match buffer !! i with
                           | Some b => nhex.printf_0X 2 (byte_val b) +:+ " "
                           | None => "   "
                           end ≫= f) s0) as Hcell.
  { intros f s0. rewrite Nat2Z.id.
    destruct (Z.ltb_spec (Z.of_nat i) (Z.of_nat (length buffer))) as [Hlt|Hge].
    - destruct (lookup_lt_is_Some_2 buffer i ltac:(lia)) as [b ->]. done.
    - by rewrite (lookup_ge_None_2 buffer i) by lia. }
  rewrite Hcell, nhex_printf_bind.
  assert (∀ (f : unit → nhex.M unit) s0,
            ((if (bytes_per_line >=? 2)%Z
                 && (Z.of_nat i =? bytes_per_line ÷ 2 - 1)%Z
              then nhex.printf " " else mret ()) ≫= f) s0
            = (nhex.printf (if (bytes_per_line >=? 2)%Z
                               && (Z.of_nat i =? bytes_per_line ÷ 2 - 1)%Z
                            then " " else "") ≫= f) s0) as Hgap.
  { intros f s0. destruct (_ && _); [done|].
    unfold mbind, nhex.M_bind. by rewrite nhex_printf_nil. }
  rewrite Hgap, nhex_printf_bind.
  replace (Z.of_nat i + 1)%Z with (Z.of_nat (S i)) by lia.
  rewrite IH. unfold nhex.printf, nhex.hex_cell. simpl.
  by rewrite !string_app_assoc.
Qed.

(** The loop of the text column prints the bytes as they are shown. *)
Lemma nhex_text_cells_spec buffer todo :
  ∀ i s,
    i + todo ≤ length buffer →
    nhex.text_cells buffer (Z.of_nat i) todo s
    = nhex.printf
        (string_of_list_ascii (nhex.shown <$> take todo (drop i buffer))) s.
Proof.
  induction todo as [|todo IH]; intros i s Hlen.
  { simpl. by rewrite nhex_printf_nil. }
  cbn [nhex.text_cells]. rewrite Nat2Z.id.
  destruct (lookup_lt_is_Some_2 buffer i ltac:(lia)) as [b Hb]. rewrite Hb.
  rewrite nhex_printf_bind.
  replace (Z.of_nat i + 1)%Z with (Z.of_nat (S i)) by lia.
  rewrite IH by lia.
  rewrite (drop_S _ _ _ Hb). unfold nhex.printf, nhex.shown. simpl.
  by rewrite !string_app_assoc.
Qed.

(** The rows of a file that is not empty: the first one, and the rows of
    what is left, further down by one row. *)
Lemma nhex_rows_nil n : 0 < n → nhex.rows n [] = [].
Proof.
  intros Hn. unfold nhex.rows. simpl.
  by rewrite Nat.div_small by lia.
Qed.

Lemma nhex_rows_cons n data :
  0 < n → data ≠ [] →
  nhex.rows n data
  = (0%Z, take n data)
    :: ((λ row, (row.1 + Z.of_nat n, row.2)%Z) <$> nhex.rows n (drop n data)).
Proof.
  intros Hn Hdata. unfold nhex.rows.
  assert (0 < length data) as Hlen by (destruct data; simpl; [done|lia]).
  assert ((length data + n - 1) / n
          = S ((length (drop n data) + n - 1) / n)) as ->.
  { rewrite length_drop.
    destruct (decide (length data ≤ n)) as [Hle|Hgt].
    - replace (length data - n + n - 1) with (n - 1) by lia.
      rewrite (Nat.div_small (n - 1)) by lia.
      symmetry. apply (Nat.div_unique _ _ _ (length data - 1)); lia.
    - replace (length data + n - 1) with ((length data - n + n - 1) + 1 * n)
        by lia.
      rewrite Nat.div_add by lia. lia. }
  cbn [seq]. rewrite fmap_cons. f_equal.
  rewrite <- fmap_S_seq, <- !list_fmap_compose.
  apply list_fmap_ext. intros _ k _. simpl.
  rewrite drop_drop. f_equal. lia.
Qed.

Lemma nhex_rows_chunks n data :
  0 < n → concat (snd <$> nhex.rows n data) = data.
Proof.
  intros Hn. remember (length data) as m eqn:Hm.
  revert data Hm. induction (lt_wf m) as [m _ IH]. intros data ->.
  destruct (decide (data = [])) as [->|Hne]; [by rewrite nhex_rows_nil|].
  rewrite nhex_rows_cons by done. cbn [fmap list_fmap concat snd].
  rewrite <- list_fmap_compose.
  rewrite (list_fmap_ext _ snd (nhex.rows n (drop n data)))
    by (by intros ? [] ?).
  rewrite (IH (length (drop n data))); [apply take_drop| |done].
  rewrite length_drop. destruct data; simpl in *; [done|lia].
Qed.
End NhexRows.

Section NhexLoop.
Implicit Types (s : nhex.state) (rest data : list ascii).

Lemma nhex_bind_printed {B} (m : nhex.M unit) text (f : unit → nhex.M B) s :
  m s = nhex.printf text s →
  (m ≫= f) s
  = f () (nhex.mkState (nhex.stdout s +:+ text) (nhex.stderr s)
            (nhex.buffers s) (nhex.streams s) (nhex.alloc_plan s)).
Proof. intros Hm. unfold mbind, nhex.M_bind. by rewrite Hm. Qed.


(** The reading loop prints the rows of what is left of the file, from the
    offset it has reached; it stops early only when the offset leaves the
    range of [long], or for lack of fuel. *)
Lemma nhex_dump_loop_spec bytes_per_line :
  (0 < bytes_per_line)%Z →
  ∀ fuel offset rest s,
    (0 ≤ offset)%Z →
    match nhex.dump_loop fuel bytes_per_line offset rest s with
    | nhex.Ret _ s' =>
        s' = nhex.mkState
               (nhex.stdout s +:+
                nhex.join ((λ row, nhex.row_text bytes_per_line
                                     (offset + row.1) row.2)
                             <$> nhex.rows (Z.to_nat bytes_per_line) rest))
               (nhex.stderr s) (nhex.buffers s) (nhex.streams s)
               (nhex.alloc_plan s)
    | nhex.Undefined => (nhex.LONG_MAX < offset + Z.of_nat (length rest))%Z
    | nhex.Diverge => fuel ≤ length rest
    end.
Proof.
  intros Hbpl. set (n := Z.to_nat bytes_per_line).
  assert (0 < n) as Hn by (unfold n; lia).
  induction fuel as [|fuel IH]; intros offset rest s Hoffset.
  { simpl. lia. }
  cbn [nhex.dump_loop]. fold n.
  destruct (decide (rest = [])) as [->|Hrest].
  { rewrite take_nil. simpl. rewrite nhex_rows_nil by done. simpl.
    rewrite string_app_nil_r. by destruct s. }
  set (buffer := take n rest).
  assert (0 < length rest) as Hlen by (destruct rest; simpl; [done|lia]).
  assert (length buffer = n `min` length rest) as Hbuffer
    by apply length_take.
  destruct (Z.gtb_spec (Z.of_nat (length buffer)) 0) as [_|]; [|lia].
  rewrite nhex_printf_bind.
  rewrite (nhex_bind_printed _ _ _ _
             (nhex_hex_cells_spec bytes_per_line buffer n 0 _)).
  rewrite nhex_printf_bind. rewrite Nat2Z.id.
  rewrite (nhex_bind_printed _ _ _ _
             (nhex_text_cells_spec buffer (length buffer) 0 _ ltac:(lia))).
  rewrite nhex_printf_bind. cbn [nhex.stdout nhex.stderr nhex.buffers
                                 nhex.streams nhex.alloc_plan].
  rewrite drop_0, firstn_all.
  set (s1 := nhex.mkState _ _ _ _ _).
  assert (nhex.stdout s1
          = nhex.stdout s +:+ nhex.row_text bytes_per_line offset buffer)
    as Hout.
  { unfold s1, nhex.row_text. fold n. simpl. by rewrite !string_app_assoc. }
  assert (nhex.stderr s1 = nhex.stderr s ∧ nhex.buffers s1 = nhex.buffers s ∧
          nhex.streams s1 = nhex.streams s ∧
          nhex.alloc_plan s1 = nhex.alloc_plan s) as (He & Hb & Hf & Hp)
    by done.
  clearbody s1.
  unfold nhex.long_range. case_decide as Hrange.
  2:{ unfold mbind, nhex.M_bind, nhex.undefined. lia. }
  unfold mbind at 1, nhex.M_bind at 1, mret, nhex.M_ret.
  specialize (IH (offset + Z.of_nat (length buffer))%Z (drop n rest) s1
                ltac:(lia)).
  rewrite length_drop in IH.
  destruct (nhex.dump_loop fuel bytes_per_line _ (drop n rest) s1)
    as [[] s'| |]; [|lia..].
  rewrite IH, Hout, He, Hb, Hf, Hp. f_equal.
  rewrite (nhex_rows_cons n rest) by done. fold buffer.
  rewrite fmap_cons. cbn [nhex.join fst snd].
  rewrite Z.add_0_r, string_app_assoc. f_equal. f_equal.
  rewrite <- list_fmap_compose.
  destruct (decide (length rest < n)) as [Hshort|Hfull].
  { rewrite drop_ge by lia. by rewrite nhex_rows_nil. }
  f_equal. apply list_fmap_ext. intros _ [o chunk] _. simpl. f_equal. lia.
Qed.
End NhexLoop.

Section NhexDigits.

Lemma nhex_hex_digits_length digits n :
  String.length (nhex.hex_digits digits n) = digits.
Proof.
  revert n. induction digits as [|digits IH]; intros n; simpl; [done|].
  rewrite string_length_app, IH. simpl. lia.
Qed.

Lemma nhex_hex_width_le (digits : nat) n :
  0 < digits → (0 ≤ n < 16 ^ Z.of_nat digits)%Z →
  nhex.hex_width n ≤ digits.
Proof.
  intros Hd Hn. unfold nhex.hex_width.
  destruct (Z.eqb_spec n 0) as [|Hne]; [lia|].
  assert (Z.log2 n < 4 * Z.of_nat digits)%Z.
  { apply Z.log2_lt_pow2; [lia|].
    rewrite Z.pow_mul_r by lia. change (2 ^ 4)%Z with 16%Z. lia. }
  pose proof (Z.log2_nonneg n).
  assert (Z.log2 n / 4 < Z.of_nat digits)%Z
    by (apply Z.div_lt_upper_bound; lia).
  assert (0 ≤ Z.log2 n / 4)%Z by (apply Z.div_pos; lia).
  lia.
Qed.

Lemma nhex_printf_0X_fits (digits : nat) n :
  0 < digits → (0 ≤ n < 16 ^ Z.of_nat digits)%Z →
  nhex.printf_0X digits n = nhex.hex_digits digits n.
Proof.
  intros Hd Hn. unfold nhex.printf_0X.
  pose proof (nhex_hex_width_le digits n Hd Hn). f_equal. lia.
Qed.

(** A property of the sixteen digits. *)
Lemma nhex_hex_digit_ind (P : ascii → Prop) :
  Forall P (nhex.hex_digit <$> [0; 1; 2; 3; 4; 5; 6; 7; 8; 9; 10; 11; 12; 13;
                                14; 15]%Z) →
  ∀ d, (0 ≤ d < 16)%Z → P (nhex.hex_digit d).
Proof.
  intros HP d Hd. rewrite Forall_fmap, Forall_forall in HP.
  apply (HP d). 
  assert (∃ k, k < 16 ∧ d = Z.of_nat k) as (k & Hk & ->)
    by (exists (Z.to_nat d); lia).
  do 16 (destruct k as [|k]; [repeat constructor|]). lia.
Qed.

Lemma nhex_decode_offset digits n text :
  nhex.decode nhex.Offset (nhex.hex_digits digits n +:+ text)
  = nhex.decode nhex.Offset text.
Proof.
  revert n text. induction digits as [|digits IH]; intros n text; simpl; [done|].
  rewrite string_app_assoc, IH. simpl.
  assert (Ascii.eqb (nhex.hex_digit (n mod 16)) ":" = false) as ->; [|done].
  apply (nhex_hex_digit_ind (λ c, Ascii.eqb c ":" = false)).
  - repeat constructor.
  - apply Z.mod_pos_bound. lia.
Qed.

Lemma nhex_decode_cell (b : ascii) text :
  nhex.decode (nhex.Cells None)
    (nhex.printf_0X 2 (byte_val b) +:+ " " +:+ text)
  = b :: nhex.decode (nhex.Cells None) text.
Proof. by destruct b as [[] [] [] [] [] [] [] []]. Qed.

Lemma nhex_cell_length (b : ascii) :
  String.length (nhex.printf_0X 2 (byte_val b)) = 2.
Proof.
  rewrite nhex_printf_0X_fits; [apply nhex_hex_digits_length|lia|].
  pose proof (byte_val_range b). simpl. lia.
Qed.

Lemma nhex_shown_not_newline (b : ascii) :
  Ascii.eqb (nhex.shown b) "010" = false.
Proof. by destruct b as [[] [] [] [] [] [] [] []]. Qed.

Lemma nhex_shown_printable (b : ascii) :
  nhex.isprint (byte_val (nhex.shown b)) = true.
Proof. by destruct b as [[] [] [] [] [] [] [] []]. Qed.
End NhexDigits.

Section NhexReadBack.
Implicit Types (chunk data : list ascii).

Lemma nhex_decode_cells bytes_per_line chunk todo :
  ∀ i text,
    nhex.decode (nhex.Cells None)
      (nhex.join (nhex.hex_cell bytes_per_line chunk <$> seq i todo) +:+ text)
    = take todo (drop i chunk) ++ nhex.decode (nhex.Cells None) text.
Proof.
  induction todo as [|todo IH]; intros i text; [done|].
  cbn [seq fmap list_fmap nhex.join]. unfold nhex.hex_cell at 1.
  rewrite !string_app_assoc.
  assert (∀ t, nhex.decode (nhex.Cells None)
                 ((if (bytes_per_line >=? 2)%Z
                      && (Z.of_nat i =? bytes_per_line ÷ 2 - 1)%Z
                   then " " else "") +:+ t)
               = nhex.decode (nhex.Cells None) t) as Hgap.
  { intros t. by destruct (_ && _). }
  destruct (chunk !! i) as [b|] eqn:Hb.
  - rewrite string_app_assoc, nhex_decode_cell, Hgap, IH.
    by rewrite (drop_S _ _ _ Hb).
  - simpl String.append. cbn [nhex.decode]. simpl.
    rewrite Hgap, IH. apply lookup_ge_None in Hb.
    by rewrite !drop_ge, !take_nil by lia.
Qed.

Lemma nhex_decode_text chunk text :
  nhex.decode nhex.Text
    (string_of_list_ascii (nhex.shown <$> chunk) +:+ "|" +:+ LF +:+ text)
  = nhex.decode nhex.Offset text.
Proof.
  induction chunk as [|b chunk IH]; [done|].
  cbn [fmap list_fmap string_of_list_ascii String.append nhex.decode].
  by rewrite nhex_shown_not_newline.
Qed.

(** Reading a row back gives the bytes that the row shows. *)
Lemma nhex_decode_row bytes_per_line offset chunk text :
  length chunk ≤ Z.to_nat bytes_per_line →
  nhex.decode nhex.Offset
    (nhex.row_text bytes_per_line offset chunk +:+ text)
  = chunk ++ nhex.decode nhex.Offset text.
Proof.
  intros Hlen. unfold nhex.row_text, nhex.printf_0X.
  rewrite !string_app_assoc, nhex_decode_offset.
  change (nhex.decode nhex.Offset (": " +:+ ?t))
    with (nhex.decode (nhex.Cells None) t).
  rewrite nhex_decode_cells, drop_0, take_ge by done. f_equal.
  change (nhex.decode (nhex.Cells None) (" |" +:+ ?t))
    with (nhex.decode nhex.Text t).
  apply nhex_decode_text.
Qed.

Lemma nhex_rows_elem n data row :
  0 < n → row ∈ nhex.rows n data →
  ∃ k, row = (Z.of_nat (k * n), take n (drop (k * n) data)) ∧
       k * n < length data.
Proof.
  intros Hn (k & -> & Hk)%list_elem_of_fmap. exists k. split; [done|].
  apply elem_of_seq in Hk.
  pose proof (Nat.div_mod_eq (length data + n - 1) n) as Hdiv.
  pose proof (Nat.mod_upper_bound (length data + n - 1) n ltac:(lia)).
  nia.
Qed.

Lemma nhex_decode_rows bytes_per_line (rows : list (Z * list ascii)) :
  Forall (λ row, length row.2 ≤ Z.to_nat bytes_per_line) rows →
  nhex.decode nhex.Offset
    (nhex.join ((λ row, nhex.row_text bytes_per_line row.1 row.2) <$> rows))
  = concat (snd <$> rows).
Proof.
  induction 1 as [|[o chunk] rows Hrow _ IH]; [done|].
  cbn [fmap list_fmap nhex.join concat fst snd].
  by rewrite nhex_decode_row, IH.
Qed.

Lemma nhex_decode_dump bytes_per_line data :
  (0 < bytes_per_line)%Z →
  nhex.decode nhex.Offset (nhex.dump_text bytes_per_line data) = data.
Proof.
  intros Hbpl. unfold nhex.dump_text.
  rewrite nhex_decode_rows; [apply nhex_rows_chunks; lia|].
  apply Forall_forall. intros row (k & -> & _)%nhex_rows_elem; [|lia].
  simpl. rewrite length_take. lia.
Qed.
End NhexReadBack.

Section NhexWidth.
Implicit Types (chunk data : list ascii).

Lemma nhex_bytes_per_line_range env :
  (4 ≤ nhex.bytes_per_line_of_terminal env ≤ 64)%Z.
Proof.
  unfold nhex.bytes_per_line_of_terminal, nhex.MIN_BYTES_PER_LINE,
    nhex.MAX_BYTES_PER_LINE, nhex.DEFAULT_BYTES_PER_LINE.
  destruct (nhex.terminal env) as [w|]; [|lia].
  generalize ((w - 14) ÷ 4)%Z. intros q.
  destruct (Z.ltb_spec q 4); simpl; [lia|].
  destruct (Z.gtb_spec q 64); simpl; [lia|].
  destruct (Z.eqb_spec (Z.rem q 2) 0) as [|Hodd]; simpl; [lia|].
  destruct (Z.gtb_spec q 1); simpl; [|lia].
  assert (q ≠ 4%Z) by (by intros ->). lia.
Qed.

Lemma nhex_bytes_per_line_fits env w :
  nhex.terminal env = Some w → (30 ≤ w)%Z →
  (4 * nhex.bytes_per_line_of_terminal env + 14 ≤ w)%Z.
Proof.
  intros Hw Hwide.
  unfold nhex.bytes_per_line_of_terminal, nhex.MIN_BYTES_PER_LINE,
    nhex.MAX_BYTES_PER_LINE. rewrite Hw.
  assert (4 * ((w - 14) ÷ 4) ≤ w - 14)%Z as Hq
    by (Z.to_euclidean_division_equations; lia).
  revert Hq. generalize ((w - 14) ÷ 4)%Z. intros q Hq.
  destruct (Z.ltb_spec q 4); simpl; [lia|].
  destruct (Z.gtb_spec q 64); simpl; [lia|].
  destruct (negb _ && _); lia.
Qed.


Lemma nhex_cells_length bytes_per_line chunk todo :
  (2 ≤ bytes_per_line)%Z →
  ∀ i,
    String.length
      (nhex.join (nhex.hex_cell bytes_per_line chunk <$> seq i todo))
    = 3 * todo
      + (if decide (i ≤ Z.to_nat (bytes_per_line ÷ 2 - 1) < i + todo)
         then 1 else 0).
Proof.
  intros Hbpl.
  assert (0 ≤ bytes_per_line ÷ 2 - 1)%Z as Hm.
  { pose proof (Z.quot_le_mono 2 bytes_per_line 2 ltac:(lia) Hbpl).
    change (2 ÷ 2)%Z with 1%Z in *. lia. }
  induction todo as [|todo IH]; intros i.
  { simpl. case_decide; lia. }
  cbn [seq fmap list_fmap nhex.join].
  rewrite string_length_app, IH. unfold nhex.hex_cell.
  rewrite string_length_app.
  assert (String.length match chunk !! i with
                        | Some b => nhex.printf_0X 2 (byte_val b) +:+ " "
                        | None => "   "
                        end = 3) as ->.
  { destruct (chunk !! i); [|done].
    rewrite string_length_app, nhex_cell_length. done. }
  destruct (Z.geb_spec bytes_per_line 2); [|lia]. simpl andb.
  destruct (Z.eqb_spec (Z.of_nat i) (bytes_per_line ÷ 2 - 1));
    repeat case_decide; simpl; lia.
Qed.

Lemma nhex_text_length chunk :
  String.length (string_of_list_ascii (nhex.shown <$> chunk)) = length chunk.
Proof. induction chunk as [|b chunk IH]; simpl; [done|]. by f_equal. Qed.

(** The width of a row: ten characters for the offset, three for each
    position and one for the gap, two before the text, the text, and two
    after it. *)
Lemma nhex_row_length bytes_per_line offset chunk :
  (2 ≤ bytes_per_line)%Z → (0 ≤ offset < 2 ^ 32)%Z →
  String.length (nhex.row_text bytes_per_line offset chunk)
  = 3 * Z.to_nat bytes_per_line + 15 + length chunk.
Proof.
  intros Hbpl Hoffset. unfold nhex.row_text.
  rewrite !string_length_app, nhex_cells_length by done.
  rewrite (nhex_printf_0X_fits 8) by (simpl; lia).
  rewrite nhex_hex_digits_length.
  rewrite nhex_text_length.
  assert (bytes_per_line ÷ 2 - 1 < bytes_per_line)%Z.
  { pose proof (Z.quot_lt bytes_per_line 2 ltac:(lia) ltac:(lia)). lia. }
  assert (0 ≤ bytes_per_line ÷ 2 - 1)%Z.
  { pose proof (Z.quot_le_mono 2 bytes_per_line 2 ltac:(lia) Hbpl).
    change (2 ÷ 2)%Z with 1%Z in *. lia. }
  rewrite decide_True by lia. simpl. lia.
Qed.
End NhexWidth.

Section NhexMain.
Implicit Types (s : nhex.state) (data : list ascii).

(** A run with one argument, once the file is open and the buffer
    allocated. *)
Lemma nhex_main_dump env fuel program path data s :
  nhex.files env path = Some data →
  hd true (nhex.alloc_plan s) = true →
  nhex.main env fuel [program; path] s
  = (nhex.dump_loop fuel (nhex.bytes_per_line_of_terminal env) 0 data ≫= λ _,
     nhex.free ≫= λ _, nhex.fclose ≫= λ _, mret nhex.EXIT_SUCCESS)
      (nhex.mkState (nhex.stdout s) (nhex.stderr s) (S (nhex.buffers s))
         (S (nhex.streams s)) (tail (nhex.alloc_plan s))).
Proof.
  intros Hfile Hplan. unfold nhex.main. simpl.
  unfold mbind at 1, nhex.M_bind at 1, nhex.fopen. rewrite Hfile.
  unfold mbind at 1, nhex.M_bind at 1, nhex.malloc. simpl.
  destruct (nhex.alloc_plan s) as [|[] plan]; done.
Qed.

Lemma nhex_dump_returns env fuel data s :
  length data < fuel →
  (Z.of_nat (length data) ≤ nhex.LONG_MAX)%Z →
  (nhex.dump_loop fuel (nhex.bytes_per_line_of_terminal env) 0 data ≫= λ _,
   nhex.free ≫= λ _, nhex.fclose ≫= λ _, mret nhex.EXIT_SUCCESS)
    (nhex.mkState (nhex.stdout s) (nhex.stderr s) (S (nhex.buffers s))
       (S (nhex.streams s)) (tail (nhex.alloc_plan s)))
  = nhex.Ret 0%Z
      (nhex.mkState
         (nhex.stdout s +:+
          nhex.dump_text (nhex.bytes_per_line_of_terminal env) data)
         (nhex.stderr s) (nhex.buffers s) (nhex.streams s)
         (tail (nhex.alloc_plan s))).
Proof.
  intros Hfuel Hsize.
  pose proof (nhex_bytes_per_line_range env) as Hbpl.
  set (s2 := nhex.mkState _ _ _ _ _).
  pose proof (nhex_dump_loop_spec (nhex.bytes_per_line_of_terminal env)
                ltac:(lia) fuel 0 data s2 ltac:(lia)) as Hloop.
  unfold mbind at 1, nhex.M_bind at 1.
  destruct (nhex.dump_loop fuel _ 0 data s2) as [[] s3| |]; [|lia..].
  subst s3. unfold s2. simpl. do 3 f_equal.
Qed.
End NhexMain.

(** X9. The number of bytes on a row is even and between 4 and 64; it is 16
    when standard output is not a terminal.  On a terminal of at least 30
    columns it is such that a row of [4 * n + 14] characters fits the
    width, and it is the largest such even number up to 64; on a narrower
    terminal it is 4. *)
Theorem nhex_bytes_per_line_is_even_and_fits_the_terminal
    (env : nhex.environment) :
  let n := nhex.bytes_per_line_of_terminal env in
  (4 ≤ n ≤ 64)%Z ∧ Z.rem n 2 = 0%Z ∧
  (nhex.terminal env = None → n = 16%Z) ∧
  (∀ w, nhex.terminal env = Some w →
        ((w < 30 → n = 4) ∧
         (30 ≤ w → 4 * n + 14 ≤ w ∧ (n = 64 ∨ w < 4 * (n + 2) + 14)))%Z).
Proof.
  intros n. split; [apply nhex_bytes_per_line_range|].
  unfold n, nhex.bytes_per_line_of_terminal, nhex.MIN_BYTES_PER_LINE,
    nhex.MAX_BYTES_PER_LINE, nhex.DEFAULT_BYTES_PER_LINE.
  destruct (nhex.terminal env) as [w|]; [|by repeat split].
  assert ((14 ≤ w → 4 * ((w - 14) ÷ 4) ≤ w - 14 < 4 * ((w - 14) ÷ 4) + 4) ∧
          (w < 14 → (w - 14) ÷ 4 ≤ 0))%Z as [Hq Hq']
    by (Z.to_euclidean_division_equations; lia).
  revert Hq Hq'. generalize ((w - 14) ÷ 4)%Z. intros q Hq Hq'.
  assert (∀ b, 4 ≤ b → Z.rem b 2 ≠ 0 → Z.rem (b - 1) 2 = 0)%Z as Heven
    by (intros; Z.to_euclidean_division_equations; lia).
  destruct (Z.ltb_spec q 4); simpl.
  { split; [done|]. split; [done|]. intros ? [= <-]. lia. }
  destruct (Z.gtb_spec q 64); simpl.
  { split; [done|]. split; [done|]. intros ? [= <-]. lia. }
  destruct (Z.eqb_spec (Z.rem q 2) 0) as [|Hodd]; simpl.
  { split; [done|]. split; [done|]. intros ? [= <-]. lia. }
  destruct (Z.gtb_spec q 1); simpl; [|lia].
  split; [by apply Heven|]. split; [done|]. intros ? [= <-].
  assert (q ≠ 64%Z) by (by intros ->). lia.
Qed.

(** X10. When the file opens and the buffer is allocated the run prints the
    dump and nothing else: one row for every [n] bytes of the file, [n] the
    number of bytes on a row, the row of index [k] headed by the offset
    [k * n] and showing the bytes from there in order, the last row showing
    what is left; an empty file gives no row.  The exit status is 0, the
    error stream is untouched, the buffer has been freed and the file
    closed. *)
Theorem nhex_dump_has_a_row_for_every_chunk (env : nhex.environment)
    (fuel : nat) (program path : string) (data : list ascii) (s : nhex.state) :
  nhex.files env path = Some data →
  hd true (nhex.alloc_plan s) = true →
  length data < fuel →
  (Z.of_nat (length data) ≤ nhex.LONG_MAX)%Z →
  nhex.main env fuel [program; path] s
  = nhex.Ret 0%Z
      (nhex.mkState
         (nhex.stdout s +:+
          nhex.dump_text (nhex.bytes_per_line_of_terminal env) data)
         (nhex.stderr s) (nhex.buffers s) (nhex.streams s)
         (tail (nhex.alloc_plan s))).
Proof.
  intros Hfile Hplan Hfuel Hsize.
  rewrite (nhex_main_dump env fuel program path data s Hfile Hplan).
  by apply nhex_dump_returns.
Qed.

Lemma nhex_dump_has_a_row_for_every_chunk_witness :
  nhex.main (sample_env (Some 40%Z)) 35 ["nhex"; "f"] nhex.initial_state
  = nhex.Ret 0%Z
      (nhex.mkState
         ("00000000: 48 65 6C  6C 6F 2C  |Hello,|" +:+ LF +:+
          "00000006: 20 57 6F  72 6C 64  | World|" +:+ LF +:+
          "0000000C: 21 0A 30  31 32 33  |!.0123|" +:+ LF +:+
          "00000012: 34 35 36  37 38 39  |456789|" +:+ LF +:+
          "00000018: 61 62 63  64 65 66  |abcdef|" +:+ LF +:+
          "0000001E: 67 68 69  6A        |ghij|" +:+ LF)
         [] 0 0 []).
Proof.
  rewrite (nhex_dump_has_a_row_for_every_chunk (sample_env (Some 40%Z)) 35
             "nhex" "f" sample_file nhex.initial_state);
    [|reflexivity|reflexivity|vm_compute; lia|vm_compute; discriminate].
  vm_compute. reflexivity.
Defined.

(** X11. The dump can be read back: the bytes spelled by the hexadecimal
    columns of the rows that a run prints, taken in order, are the content
    of the file. *)
Theorem nhex_dump_reads_back_as_the_file (env : nhex.environment)
    (fuel : nat) (program path : string) (data : list ascii) (s : nhex.state) :
  nhex.files env path = Some data →
  hd true (nhex.alloc_plan s) = true →
  length data < fuel →
  (Z.of_nat (length data) ≤ nhex.LONG_MAX)%Z →
  nhex.stdout s = ""%string →
  ∃ s', nhex.main env fuel [program; path] s = nhex.Ret 0%Z s' ∧
        nhex.decode nhex.Offset (nhex.stdout s') = data.
Proof.
  intros Hfile Hplan Hfuel Hsize Hout.
  rewrite (nhex_main_dump env fuel program path data s Hfile Hplan).
  rewrite nhex_dump_returns by done.
  eexists. split; [done|]. simpl. rewrite Hout. simpl.
  apply nhex_decode_dump. pose proof (nhex_bytes_per_line_range env). lia.
Qed.

Lemma nhex_dump_reads_back_as_the_file_witness :
  ∃ s', nhex.main (sample_env None) 35 ["nhex"; "f"] nhex.initial_state
        = nhex.Ret 0%Z s' ∧
        nhex.decode nhex.Offset (nhex.stdout s') = sample_file.
Proof.
  apply (nhex_dump_reads_back_as_the_file (sample_env None) 35 "nhex" "f"
           sample_file nhex.initial_state).
  - reflexivity.
  - reflexivity.
  - vm_compute. lia.
  - vm_compute. discriminate.
  - reflexivity.
Defined.

(** X12. The rows that a run prints for a file of at most 2^32 bytes are
    aligned: the run prints one text for each row of the dump, and the text
    of a row has [3 * n + 15] characters and one for each byte it shows, the
    newline included, where [n] is the number of bytes on a row; a row
    shows at least one byte and at most [n].  So the text column begins at
    the same place in all rows and all rows but the last have the same
    width.  The text column holds printable characters only, and on a
    terminal of at least 30 columns no row is wider than the terminal. *)
Theorem nhex_rows_are_aligned_and_fit_the_terminal (env : nhex.environment)
    (fuel : nat) (program path : string) (data : list ascii) (s : nhex.state) :
  let n := nhex.bytes_per_line_of_terminal env in
  nhex.files env path = Some data →
  hd true (nhex.alloc_plan s) = true →
  length data < fuel →
  (Z.of_nat (length data) ≤ 2 ^ 32)%Z →
  ∃ s' texts,
    nhex.main env fuel [program; path] s = nhex.Ret 0%Z s' ∧
    nhex.stdout s' = nhex.stdout s +:+ nhex.join texts ∧
    Forall2 (λ row text,
       text = nhex.row_text n row.1 row.2 ∧
       String.length text = 3 * Z.to_nat n + 15 + length row.2 ∧
       0 < length row.2 ≤ Z.to_nat n ∧
       Forall (λ c, nhex.isprint (byte_val c) = true) (nhex.shown <$> row.2) ∧
       (∀ w, nhex.terminal env = Some w → (30 ≤ w)%Z →
             (Z.of_nat (String.length text) ≤ w + 1)%Z))
      (nhex.rows (Z.to_nat n) data) texts.
Proof.
  intros n Hfile Hplan Hfuel Hsize.
  pose proof (nhex_bytes_per_line_range env) as Hn. fold n in Hn.
  rewrite (nhex_main_dump env fuel program path data s Hfile Hplan).
  rewrite nhex_dump_returns by (done || (unfold nhex.LONG_MAX; lia)).
  eexists _, ((λ row, nhex.row_text n row.1 row.2)
                <$> nhex.rows (Z.to_nat n) data).
  split; [done|]. split; [done|].
  apply Forall2_fmap_r, Forall_Forall2_diag, Forall_forall.
  intros row (k & -> & Hk)%nhex_rows_elem; [|lia].
  cbn [fst snd]. split; [done|].
  assert (String.length
            (nhex.row_text n (Z.of_nat (k * Z.to_nat n))
               (take (Z.to_nat n) (drop (k * Z.to_nat n) data)))
          = 3 * Z.to_nat n + 15
            + length (take (Z.to_nat n) (drop (k * Z.to_nat n) data)))
    as Hwidth by (apply nhex_row_length; lia).
  split; [done|].
  split; [rewrite length_take, length_drop; lia|]. split.
  { apply Forall_fmap, Forall_forall. intros c _. apply nhex_shown_printable. }
  intros w Hw Hwide. cbn [fst snd]. rewrite Hwidth, length_take, length_drop.
  pose proof (nhex_bytes_per_line_fits env w Hw Hwide) as Hfits.
  fold n in Hfits. lia.
Qed.

Lemma nhex_rows_are_aligned_and_fit_the_terminal_witness :
  ∃ s' texts,
    nhex.main (sample_env (Some 40%Z)) 35 ["nhex"; "f"] nhex.initial_state
    = nhex.Ret 0%Z s' ∧
    nhex.stdout s' = nhex.join texts ∧
    Forall (λ text, String.length text ≤ 41) texts.
Proof.
  destruct (nhex_rows_are_aligned_and_fit_the_terminal
              (sample_env (Some 40%Z)) 35 "nhex" "f" sample_file
              nhex.initial_state)
    as (s' & texts & Hrun & Hout & Hrows).
  - reflexivity.
  - reflexivity.
  - vm_compute. lia.
  - vm_compute. discriminate.
  - exists s', texts. split; [exact Hrun|]. split; [exact Hout|].
    clear Hrun Hout.
    induction Hrows as [|row text rows texts (_ & _ & _ & _ & Hfits) _ IH];
      constructor; [|exact IH].
    specialize (Hfits 40%Z eq_refl ltac:(lia)). lia.
Defined.

(** X13. However a run ends, it leaves no buffer allocated and no file
    open.  Its exit status is 0 only when it was given one argument, the
    file opened and the buffer was allocated, and then it has written the
    dump and nothing to the error stream.  Otherwise the status is 1,
    nothing is written to standard output and the error stream gets the two
    usage lines (unless there is exactly one argument), or the report that
    the file could not be opened, or the report that the buffer could not
    be allocated, in which case the file has been closed again. *)
Theorem nhex_exit_status_and_cleanup (env : nhex.environment) (fuel : nat)
    (argv : list string) (s s' : nhex.state) (v : Z) :
  nhex.main env fuel argv s = nhex.Ret v s' →
  nhex.buffers s' = nhex.buffers s ∧ nhex.streams s' = nhex.streams s ∧
  ((v = 0%Z ∧ nhex.stderr s' = nhex.stderr s ∧
    ∃ program path data,
      argv = [program; path] ∧ nhex.files env path = Some data ∧
      hd true (nhex.alloc_plan s) = true ∧
      nhex.stdout s'
      = nhex.stdout s +:+
        nhex.dump_text (nhex.bytes_per_line_of_terminal env) data) ∨
   (v = 1%Z ∧ nhex.stdout s' = nhex.stdout s ∧
    ((length argv ≠ 2 ∧
      ∃ program, argv !! 0 = Some program ∧
        nhex.stderr s'
        = nhex.stderr s ++
          [Fprintf ("Usage: " +:+ program +:+ " <file_path>" +:+ LF);
           Fprintf ("Displays the binary content of a file in hexadecimal format."
                    +:+ LF)]) ∨
     (∃ program path,
        argv = [program; path] ∧ nhex.files env path = None ∧
        nhex.stderr s' = nhex.stderr s ++ [Perror "Error opening file"]) ∨
     (∃ program path data,
        argv = [program; path] ∧ nhex.files env path = Some data ∧
        hd true (nhex.alloc_plan s) = false ∧
        nhex.stderr s' = nhex.stderr s ++ [Perror "Error allocating buffer"])))).
Proof.
  intros Hrun.
  assert (∀ program rest,
            argv = program :: rest → length argv ≠ 2 →
            nhex.main env fuel argv s
            = nhex.Ret 1%Z
                (nhex.mkState (nhex.stdout s)
                   ((nhex.stderr s ++
                     [Fprintf ("Usage: " +:+ program +:+ " <file_path>" +:+ LF)])
                    ++ [Fprintf ("Displays the binary content of a file in hexadecimal format."
                                 +:+ LF)])
                   (nhex.buffers s) (nhex.streams s) (nhex.alloc_plan s)))
    as Husage.
  { intros program rest -> Hargc. unfold nhex.main.
    destruct (Z.eqb_spec (Z.of_nat (length (program :: rest))) 2); [lia|].
    done. }
  destruct argv as [|program [|path [|extra rest]]].
  - done.
  - rewrite (Husage program []) in Hrun by done. injection Hrun as <- <-.
    split; [done|]. split; [done|]. right. split; [done|]. split; [done|].
    left. split; [done|]. exists program. split; [done|].
    simpl. by rewrite <- (assoc_L (++)).
  - destruct (nhex.files env path) as [data|] eqn:Hfile.
    + destruct (hd true (nhex.alloc_plan s)) eqn:Hplan.
      * rewrite (nhex_main_dump env fuel program path data s Hfile Hplan)
          in Hrun.
        apply nhex_bind_inv in Hrun as ([] & s3 & Hloop & Hrun).
        pose proof (nhex_bytes_per_line_range env) as Hbpl.
        match type of Hloop with
        | nhex.dump_loop _ _ _ _ ?s2 = _ =>
            pose proof (nhex_dump_loop_spec
                          (nhex.bytes_per_line_of_terminal env) ltac:(lia)
                          fuel 0 data s2 ltac:(lia)) as Hspec
        end.
        rewrite Hloop in Hspec. subst s3.
        injection Hrun as <- <-. simpl.
        split; [done|]. split; [done|]. left. split; [done|]. split; [done|].
        by exists program, path, data.
      * unfold nhex.main in Hrun. simpl in Hrun.
        unfold mbind at 1, nhex.M_bind at 1, nhex.fopen in Hrun.
        rewrite Hfile in Hrun.
        unfold mbind at 1, nhex.M_bind at 1, nhex.malloc in Hrun.
        simpl in Hrun.
        destruct (nhex.alloc_plan s) as [|[] plan]; try done.
        injection Hrun as <- <-. simpl.
        split; [done|]. split; [done|]. right. split; [done|]. split; [done|].
        right; right. by exists program, path, data.
    + unfold nhex.main in Hrun. simpl in Hrun.
      unfold mbind at 1, nhex.M_bind at 1, nhex.fopen in Hrun.
      rewrite Hfile in Hrun. injection Hrun as <- <-. simpl.
      split; [done|]. split; [done|]. right. split; [done|]. split; [done|].
      right; left. by exists program, path.
  - rewrite (Husage program (path :: extra :: rest)) in Hrun
      by (simpl; done || lia).
    injection Hrun as <- <-.
    split; [done|]. split; [done|]. right. split; [done|]. split; [done|].
    left. split; [simpl; lia|]. exists program. split; [done|].
    simpl. by rewrite <- (assoc_L (++)).
Qed.

Lemma nhex_exit_status_and_cleanup_witness :
  ∃ s', nhex.main (sample_env None) 0 ["nhex"; "f"]
          (nhex.mkState "" [] 0 0 [false])
        = nhex.Ret 1%Z s' ∧
        nhex.buffers s' = 0 ∧ nhex.streams s' = 0 ∧
        nhex.stderr s' = [Perror "Error allocating buffer"].
Proof.
  assert (nhex.main (sample_env None) 0 ["nhex"; "f"]
            (nhex.mkState "" [] 0 0 [false])
          = nhex.Ret 1%Z (nhex.mkState "" [Perror "Error allocating buffer"]
                            0 0 [])) as Hrun by reflexivity.
  eexists. split; [exact Hrun|].
  destruct (nhex_exit_status_and_cleanup _ _ _ _ _ _ Hrun) as (Hb & Hf & _).
  split; [exact Hb|]. split; [exact Hf|]. reflexivity.
Defined.
